(** * Sample_2024: the survey-image graph provider and the navigation controller

    A shallow embedding of [src/my-road-viewer/data-provider.js] (the
    [CustomDataProvider] class handed to the MapillaryJS viewer) and of the
    two front ends kept in [src/app.js]: the graph-based one that drives the
    viewer engine (module [Graph]) and the flat-image one that drives a bare
    image element (module [Flat]).

    Conventions of the embedding.
    - A heading is a JavaScript number, an IEEE 754 double ([number], the
      [spec_float] of the Standard Library at precision 53): [+] is the
      rounded addition [SFadd] and [%] the exact remainder of the truncated
      division, whose sign follows the dividend. The numbers of the other
      cells and the indices are integers, carried as [Z].
      A product with [Math.PI / 180] is kept symbolic ([radians]).
    - A CSV cell is a [jsval]; truthiness, [String(v)] and [===] are given
      on it as JavaScript defines them.
    - [Map] objects are [gmap]s: the code only calls [has], [get] and [set].
    - A [Promise] is the way it settles.
    - The globals of [app.js] and the parts of the page its handlers write
      form one [State]. Event handlers run in the [Run] monad: that state,
      the trace of the display calls completed, and an exception that aborts
      the rest of the handler while keeping the assignments already made.
    - The collaborators are parameters: the comparator behind
      [localeCompare], the S2 cell function and the clock ([Env]), [fetch].
    - [console.log] lines, the loading banner and the zoom buttons of the
      main map touch nothing the handlers read and are left out. *)

From Stdlib Require QArith.
From Stdlib Require Import Floats.SpecFloat.
From stdpp Require Import gmap strings list fin_maps pretty sorting.

Open Scope Z_scope.

(** ** JavaScript values *)

Inductive jsval :=
| JUndefined
| JNull
| JBool (b : bool)
| JNum (n : Z)
| JStr (s : string).

#[global] Instance jsval_eq_dec : EqDecision jsval.
Proof. solve_decision. Defined.

(** [ToBoolean]: what a condition such as [row.id && row.lat] tests. *)
Definition truthy (v : jsval) : bool :=
  match v with
  | JUndefined | JNull => false
  | JBool b => b
  | JNum n => negb (n =? 0)
  | JStr s => negb (String.eqb s "")
  end.

(** [String(v)], also what a template literal does to an interpolated value. *)
Definition ToString (v : jsval) : string :=
  match v with
  | JUndefined => "undefined"
  | JNull => "null"
  | JBool true => "true"
  | JBool false => "false"
  | JNum n => pretty n
  | JStr s => s
  end.

(** [a === b] on values without [NaN]. *)
Definition strict_eq (a b : jsval) : bool := bool_decide (a = b).

(** ** JavaScript numbers

    A number is an IEEE 754 binary64 value: a signed zero, an infinity, NaN,
    or a finite [(-1)^s * m * 2^e]. *)
Definition number : Set := spec_float.

(** The number an integer literal, or an integer-valued cell, denotes. *)
Definition ofZ (n : Z) : number := binary_normalize 53 1024 n 0 false.
Coercion ofZ : Z >-> number.

(** [a + b] on numbers: the sum rounded to the nearest double, ties to even. *)
Definition js_add (a b : number) : number := SFadd 53 1024 a b.

(** [n % d] on numbers ([Number::remainder]): NaN when [n] is infinite or
    [d] is zero; [n] when [d] is infinite or [n] is zero; otherwise
    [n - d * q] for the integer [q] of the truncated quotient, which is a
    double and needs no rounding, with the sign of [n] also when it is
    zero. *)
Definition js_rem (n d : number) : number :=
  match n, d with
  | S754_nan, _ | _, S754_nan => S754_nan
  | S754_infinity _, _ => S754_nan
  | _, S754_zero _ => S754_nan
  | _, S754_infinity _ => n
  | S754_zero _, _ => n
  | S754_finite sn mn en, S754_finite _ md ed =>
      let e := Z.min en ed in
      let r := Z.rem (Zpos (fst (shl_align mn en e)))
                     (Zpos (fst (shl_align md ed e))) in
      binary_normalize 53 1024 (cond_Zopp sn r) e sn
  end.

(** [ToBoolean] of a number: false for [0], [-0] and [NaN]. *)
Definition number_truthy (x : number) : bool :=
  match x with
  | S754_zero _ | S754_nan => false
  | _ => true
  end.

(** The real number a finite number stands for. *)
Definition numberValue (x : number) : option QArith_base.Q :=
  match x with
  | S754_zero _ => Some (QArith_base.inject_Z 0)
  | S754_finite s m e =>
      Some (QArith_base.Qmult (QArith_base.inject_Z (cond_Zopp s (Zpos m)))
                              (QArith_base.Qpower (QArith_base.inject_Z 2) e))
  | _ => None
  end.

(** [s.includes(sub)] *)
Definition includes (s sub : string) : bool :=
  match String.index 0 sub s with
  | Some _ => true
  | None => false
  end.

(** [arr[i]] for a number [i]: [undefined] ([None]) outside the array. *)
Definition js_index {A} (arr : list A) (i : Z) : option A :=
  if i <? 0 then None else arr !! Z.to_nat i.

(** [arr.findIndex(pred)]: the first position satisfying [pred], else -1. *)
Fixpoint findIndex_from {A} (pred : A → bool) (arr : list A) (k : Z) : Z :=
  match arr with
  | [] => -1
  | x :: rest => if pred x then k else findIndex_from pred rest (k + 1)
  end.

Definition findIndex {A} (pred : A → bool) (arr : list A) : Z :=
  findIndex_from pred arr 0.

(** A JavaScript [Error] object: its message. *)
Record Error := MkError { message : string }.

(** A promise, by the way it settles. *)
Inductive Promise (A : Type) :=
| Resolved (value : A)
| Rejected (reason : Error).
Arguments Resolved {A} value.
Arguments Rejected {A} reason.

(** ** The CSV loader, [loadCSVData] *)

(** A row object as Papa Parse delivers it ([header: true],
    [dynamicTyping: true]): one cell per column; a column the line does not
    reach reads [undefined], an empty cell [null]. *)
Record Row := MkRow {
  row_id : jsval;
  row_lat : jsval;
  row_long : jsval;
  row_heading_front : jsval;
  row_front : jsval;
  row_rear : jsval;
  row_front_width : jsval;
  row_front_height : jsval;
  row_rear_width : jsval;
  row_rear_height : jsval
}.

(** A survey point: a row whose heading is a number of degrees, the only
    cell the core computes with. The other cells keep the value the loader
    produced, since the core only prints, compares or forwards them. *)
Record SurveyPoint := MkPoint {
  id : jsval;
  lat : jsval;
  long : jsval;
  heading_front : number;
  front : jsval;
  rear : jsval;
  front_width : jsval;
  front_height : jsval;
  rear_width : jsval;
  rear_height : jsval
}.

(** The loader reads its rows through their cells only, and each cell for
    its truthiness only: the heading cell of a survey point is carried by
    what [ToBoolean] makes of the number. *)
Class AsRow (R : Type) := as_row : R → Row.

#[global] Instance row_as_row : AsRow Row := fun r => r.

#[global] Instance point_as_row : AsRow SurveyPoint := fun p =>
  {| row_id := id p; row_lat := lat p; row_long := long p;
     row_heading_front := JBool (number_truthy (heading_front p));
     row_front := front p; row_rear := rear p;
     row_front_width := front_width p; row_front_height := front_height p;
     row_rear_width := rear_width p; row_rear_height := rear_height p |}.

(** The two front ends differ in the filter of the loader. *)
Inductive FrontEnd := GraphBased | FlatImage.

(** [row && row.id && row.lat && row.long && row.heading_front], and in the
    flat-image front end [&& row.front && row.rear]. A row object is itself
    truthy. *)
Definition validRow (v : FrontEnd) (r : Row) : bool :=
  truthy (row_id r) && truthy (row_lat r) && truthy (row_long r)
  && truthy (row_heading_front r)
  && match v with
     | GraphBased => true
     | FlatImage => truthy (row_front r) && truthy (row_rear r)
     end.

(** What Papa Parse reports: [complete(results)] or [error(error)]. *)
Inductive PapaOutcome (R : Type) :=
| PapaComplete (data : list R)
| PapaError (msg : string).
Arguments PapaComplete {R} data.
Arguments PapaError {R} msg.

Section Loader.
(** [a.localeCompare(b)]: negative, zero or positive. *)
Variable localeCompare : string → string → Z.
Context {R : Type} `{AsRow R}.

Definition compareRows (a b : R) : Z :=
  localeCompare (ToString (row_id (as_row a))) (ToString (row_id (as_row b))).

(** [Array.prototype.sort] is stable; with a consistent comparator its
    result is the stable insertion of each element in turn. *)
Fixpoint sort_insert (x : R) (sorted : list R) : list R :=
  match sorted with
  | [] => [x]
  | y :: rest =>
      if compareRows x y <=? 0 then x :: y :: rest
      else y :: sort_insert x rest
  end.

Definition js_sort (arr : list R) : list R := foldr sort_insert [] arr.

Definition loadCSVData (v : FrontEnd) (results : PapaOutcome R)
  : Promise (list R) :=
  match results with
  | PapaError msg => Rejected (MkError ("CSV error: " +:+ msg))
  | PapaComplete data =>
      if 0 <? Z.of_nat (length data) then
        let validData := filter (fun row => validRow v (as_row row) = true) data in
        if Z.of_nat (length validData) =? 0
        then Rejected (MkError "No valid data in CSV")
        else Resolved (js_sort validData)
      else Rejected (MkError "No data in CSV")
  end.
End Loader.

(** ** The data provider, [CustomDataProvider] *)

(** An angle in radians, as the code obtains it: [Math.PI / 2], or a number
    of degrees multiplied by [Math.PI / 180]. *)
Inductive radians :=
| HalfPi
| DegreesToRadians (deg : number).

(** [{ id, url }] *)
Record Resource := MkResource { resource_id : string; url : string }.

Module ImageEnt.
Record t := Build {
  id : string;
  sequence : string;                      (* sequence: { id } *)
  merge_id : string;
  computed_geometry : jsval * jsval;      (* { lat, lng } *)
  geometry : jsval * jsval;               (* { lat, lng } *)
  computed_rotation : radians * Z * radians;
  camera_type : string;
  camera_parameters : list QArith_base.Q;
  width : jsval;
  height : jsval;
  thumb : Resource;
  mesh : Resource;
  cluster : Resource;
  captured_at : Z;
  creator : string * string;              (* { id, username } *)
  point_id : jsval
}.
End ImageEnt.

Module Sequence.
Record t := Build { id : string; image_ids : list string }.
End Sequence.

(** What [getCoreImages] resolves with. *)
Record CoreImages := MkCoreImages {
  cell_id : string;
  core_images : list ImageEnt.t
}.

(** One entry of what [getImages] resolves with; [node] is [null] ([None])
    for an id the provider does not hold. *)
Record ImageNode := MkImageNode {
  node : option ImageEnt.t;
  node_id : string
}.

(** What [getCluster] and [getMesh] resolve with. *)
Record Cluster := MkCluster {
  cluster_points : list (string * jsval);
  cluster_reference : Z * Z * Z           (* { lat, lng, alt } *)
}.
Record Mesh := MkMesh { faces : list Z; vertices : list Z }.

Record CustomDataProvider := MkProvider {
  provider_surveyData : list SurveyPoint;
  images : gmap string ImageEnt.t;
  sequences : gmap string Sequence.t;
  cells : gmap string (list ImageEnt.t)
}.

(** The collaborators the provider calls: the S2 geometry provider of
    MapillaryJS ([this._geometry]) and the clock. *)
Record Env := MkEnv {
  lngLatToCellId : jsval * jsval → string;
  (** [Date_now k]: what the [k]-th call of [Date.now()] returns. *)
  Date_now : nat → Z
}.

Definition _createImageEnt (now : Z) (id : string) (sequenceId : string)
    (lat lng : jsval) (headingRad : radians) (width height : jsval)
    (imageUrl : string) (pointId : jsval) : ImageEnt.t :=
  {| ImageEnt.id := id;
     ImageEnt.sequence := sequenceId;
     ImageEnt.merge_id := "sample_2024";
     ImageEnt.computed_geometry := (lat, lng);
     ImageEnt.geometry := (lat, lng);
     ImageEnt.computed_rotation := (HalfPi, 0, headingRad);
     ImageEnt.camera_type := "perspective";
     ImageEnt.camera_parameters := [QArith_base.Qmake 8 10; QArith_base.Qmake 0 1; QArith_base.Qmake 0 1];
     ImageEnt.width := width;
     ImageEnt.height := height;
     ImageEnt.thumb := MkResource (id +:+ "_thumb") imageUrl;
     ImageEnt.mesh := MkResource (id +:+ "_mesh") "";
     ImageEnt.cluster := MkResource (id +:+ "_cluster") "";
     ImageEnt.captured_at := now;
     ImageEnt.creator := ("user", "survey");
     ImageEnt.point_id := pointId |}.

(** The degrees behind [headingRad] and [rearHeadingRad]. *)
Definition frontHeadingDeg (point : SurveyPoint) : number := heading_front point.
Definition rearHeadingDeg (point : SurveyPoint) : number :=
  js_rem (js_add (heading_front point) 180) 360.

Section Provider.
Variable env : Env.

Definition frontImageOf (calls : nat) (point : SurveyPoint) : ImageEnt.t :=
  let headingRad := DegreesToRadians (frontHeadingDeg point) in
  _createImageEnt (Date_now env calls)
    ("point" +:+ ToString (id point) +:+ "_front") "seq_front"
    (lat point) (long point) headingRad
    (front_width point) (front_height point)
    ("./images/" +:+ ToString (front point)) (id point).

Definition rearImageOf (calls : nat) (point : SurveyPoint) : ImageEnt.t :=
  let rearHeadingRad := DegreesToRadians (rearHeadingDeg point) in
  _createImageEnt (Date_now env calls)
    ("point" +:+ ToString (id point) +:+ "_rear") "seq_rear"
    (lat point) (long point) rearHeadingRad
    (rear_width point) (rear_height point)
    ("./images/" +:+ ToString (rear point)) (id point).

(** The locals of [_processSurveyData] while its first loop runs. *)
Record Building := MkBuilding {
  b_images : gmap string ImageEnt.t;
  frontImages : list ImageEnt.t;
  rearImages : list ImageEnt.t;
  clock_calls : nat
}.

(** The body of [this.surveyData.forEach((point) => ...)]. *)
Definition processPoint (b : Building) (point : SurveyPoint) : Building :=
  let frontImage := frontImageOf (clock_calls b) point in
  let rearImage := rearImageOf (S (clock_calls b)) point in
  {| b_images := <[ImageEnt.id rearImage := rearImage]>
                   (<[ImageEnt.id frontImage := frontImage]> (b_images b));
     frontImages := frontImages b ++ [frontImage];
     rearImages := rearImages b ++ [rearImage];
     clock_calls := S (S (clock_calls b)) |}.

(** The body of [allImages.forEach(image => ...)]: the bucket array is
    created on first use and extended in place. *)
Definition bucketImage (cells : gmap string (list ImageEnt.t))
    (image : ImageEnt.t) : gmap string (list ImageEnt.t) :=
  let cellId := lngLatToCellId env (ImageEnt.computed_geometry image) in
  let cells1 := match cells !! cellId with
                | Some _ => cells
                | None => <[cellId := []]> cells
                end in
  match cells1 !! cellId with
  | Some bucket => <[cellId := bucket ++ [image]]> cells1
  | None => cells1
  end.

(** The first loop of [_processSurveyData], over [this.surveyData]. *)
Definition processAll (surveyData : list SurveyPoint) : Building :=
  foldl processPoint (MkBuilding ∅ [] [] 0) surveyData.

(** [const allImages = [...frontImages, ...rearImages]] *)
Definition allImages (surveyData : list SurveyPoint) : list ImageEnt.t :=
  frontImages (processAll surveyData) ++ rearImages (processAll surveyData).

Definition _processSurveyData (surveyData : list SurveyPoint)
  : CustomDataProvider :=
  let b := processAll surveyData in
  let sequences1 :=
    <["seq_front" := Sequence.Build "seq_front" (map ImageEnt.id (frontImages b))]>
      (∅ : gmap string Sequence.t) in
  let sequences2 :=
    <["seq_rear" := Sequence.Build "seq_rear" (map ImageEnt.id (rearImages b))]>
      sequences1 in
  {| provider_surveyData := surveyData;
     images := b_images b;
     sequences := sequences2;
     cells := foldl bucketImage ∅ (allImages surveyData) |}.

(** [new CustomDataProvider(surveyData)] *)
Definition newCustomDataProvider (surveyData : list SurveyPoint)
  : CustomDataProvider := _processSurveyData surveyData.
End Provider.

Definition getCoreImages (this : CustomDataProvider) (cellId : string)
  : Promise CoreImages :=
  let images := match cells this !! cellId with
                | Some bucket => bucket
                | None => []
                end in
  Resolved {| cell_id := cellId; core_images := images |}.

Definition getImages (this : CustomDataProvider) (imageIds : list string)
  : Promise (list ImageNode) :=
  Resolved (map (fun id => {| node := images this !! id; node_id := id |})
                imageIds).

Definition getSpatialImages (this : CustomDataProvider)
    (imageIds : list string) : Promise (list ImageNode) :=
  getImages this imageIds.

Definition getSequence (this : CustomDataProvider) (sequenceId : string)
  : Promise Sequence.t :=
  match sequences this !! sequenceId with
  | Some s => Resolved s
  | None => Rejected (MkError ("Sequence " +:+ sequenceId +:+ " not found"))
  end.

Definition getCluster (this : CustomDataProvider) (url : string)
  : Promise Cluster :=
  Resolved {| cluster_points := []; cluster_reference := (0, 0, 0) |}.

Definition getMesh (this : CustomDataProvider) (url : string) : Promise Mesh :=
  Resolved {| faces := []; vertices := [] |}.

Definition getImageTiles {A} (this : CustomDataProvider) (tiles : jsval)
  : Promise A :=
  Rejected (MkError "Image tiles not supported").

(** *** [getImageBuffer] and the network *)

(** A [Response]: [ok], [status], and how [arrayBuffer()] settles. *)
Record Response := MkResponse {
  ok : bool;
  status : Z;
  arrayBuffer : Promise (list Byte.byte)
}.

(** A computation that talks to the network: the requests it issued, in
    order, and the promise it returns. *)
Record Fetched (A : Type) := MkFetched {
  requests : list string;
  settled : Promise A
}.
Arguments MkFetched {A} requests settled.
Arguments requests {A} f.
Arguments settled {A} f.

(** [p.then(onFulfilled)] where [onFulfilled] either throws or returns a
    promise, and [p.catch(error => { ...; throw error; })]. *)
Definition promise_then {A B} (p : Promise A) (onFulfilled : A → Promise B)
  : Promise B :=
  match p with
  | Resolved a => onFulfilled a
  | Rejected e => Rejected e
  end.

Definition promise_catch_rethrow {A} (p : Promise A) : Promise A :=
  match p with
  | Resolved a => Resolved a
  | Rejected error => Rejected error
  end.

(** [fetch] is the browser's: [fetch url] settles with a response, or
    rejects on a transport error. *)
Definition getImageBuffer (fetch : string → Promise Response) (url : string)
  : Fetched (list Byte.byte) :=
  {| requests := [url];
     settled :=
       promise_catch_rethrow
         (promise_then (fetch url) (fun response =>
            if negb (ok response)
            then Rejected (MkError ("Failed to load image: " +:+ url))
            else arrayBuffer response)) |}.

(** ** The front ends, [app.js] *)

(** *** Globals and page *)

(** The style [highlightMarker] gives a circle marker of the map. *)
Record MarkerStyle := MkStyle { fillColor : string; radius : Z }.

Definition defaultStyle : MarkerStyle := MkStyle "#05CB63" 10.
Definition highlightStyle : MarkerStyle := MkStyle "#e74c3c" 12.

(** What the main map shows: the bounds of all points ([fitBounds]) or a
    centre chosen by [map.setView] at the zoom level the map already has. *)
Inductive MapView :=
| FitBounds
| SetView (lat long : jsval).

(** The values interpolated into the [title-info] element. *)
Record TitleInfo := MkTitleInfo {
  position : Z;          (* Point ${currentPointIndex + 1} *)
  total : Z;             (* of ${surveyData.length} *)
  view : string;         (* ${view} View *)
  heading : number       (* Heading: ${heading} *)
}.

(** The MapillaryJS viewer, by the image it was last asked to show: the
    [imageId] option of its constructor, then the argument of [moveTo]. *)
Record Viewer := MkViewer { requestedImage : string }.

(** The three globals the spec calls NavigationState. *)
Record NavigationState := MkNav {
  currentPointIndex : Z;
  isShowingFront : bool;
  isViewerMode : bool
}.

(** The remaining globals of the graph-based front end, and the callbacks
    [setTimeout] has scheduled and not yet run. *)
Record Engine := MkEngine {
  viewerInitialized : bool;
  viewer : option Viewer;
  dataProvider : option CustomDataProvider;
  pendingTimeouts : nat
}.

(** The page: the Leaflet maps and the elements the handlers write. *)
Record Page := MkPage {
  markers : list MarkerStyle;             (* global [markers], by their style *)
  mapView : MapView;
  minimapView : option (jsval * jsval * Z);
  minimapCircles : list (jsval * jsval);  (* the circle markers on the minimap *)
  viewerContainerActive : bool;           (* class [active] of viewer-container *)
  titleInfo : option TitleInfo;
  prevDisabled : bool;
  nextDisabled : bool;
  surveyImageSrc : option string          (* flat-image front end only *)
}.

Record State := MkState {
  surveyData : list SurveyPoint;
  nav : NavigationState;
  engine : Engine;
  page : Page
}.

Definition set_nav (f : NavigationState → NavigationState) (s : State) : State :=
  MkState (surveyData s) (f (nav s)) (engine s) (page s).
Definition set_engine (f : Engine → Engine) (s : State) : State :=
  MkState (surveyData s) (nav s) (f (engine s)) (page s).
Definition set_page (f : Page → Page) (s : State) : State :=
  MkState (surveyData s) (nav s) (engine s) (f (page s)).

Definition with_currentPointIndex (i : Z) (n : NavigationState) :=
  MkNav i (isShowingFront n) (isViewerMode n).
Definition with_isShowingFront (b : bool) (n : NavigationState) :=
  MkNav (currentPointIndex n) b (isViewerMode n).
Definition with_isViewerMode (b : bool) (n : NavigationState) :=
  MkNav (currentPointIndex n) (isShowingFront n) b.

Definition with_viewerInitialized (b : bool) (e : Engine) :=
  MkEngine b (viewer e) (dataProvider e) (pendingTimeouts e).
Definition with_viewer (v : option Viewer) (e : Engine) :=
  MkEngine (viewerInitialized e) v (dataProvider e) (pendingTimeouts e).
Definition with_dataProvider (p : option CustomDataProvider) (e : Engine) :=
  MkEngine (viewerInitialized e) (viewer e) p (pendingTimeouts e).
Definition with_pendingTimeouts (n : nat) (e : Engine) :=
  MkEngine (viewerInitialized e) (viewer e) (dataProvider e) n.

Definition with_markers (m : list MarkerStyle) (p : Page) :=
  MkPage m (mapView p) (minimapView p) (minimapCircles p)
    (viewerContainerActive p) (titleInfo p) (prevDisabled p) (nextDisabled p)
    (surveyImageSrc p).
Definition with_mapView (v : MapView) (p : Page) :=
  MkPage (markers p) v (minimapView p) (minimapCircles p)
    (viewerContainerActive p) (titleInfo p) (prevDisabled p) (nextDisabled p)
    (surveyImageSrc p).
Definition with_minimap (v : option (jsval * jsval * Z))
    (c : list (jsval * jsval)) (p : Page) :=
  MkPage (markers p) (mapView p) v c
    (viewerContainerActive p) (titleInfo p) (prevDisabled p) (nextDisabled p)
    (surveyImageSrc p).
Definition with_viewerContainerActive (b : bool) (p : Page) :=
  MkPage (markers p) (mapView p) (minimapView p) (minimapCircles p)
    b (titleInfo p) (prevDisabled p) (nextDisabled p) (surveyImageSrc p).
Definition with_titleInfo (t : TitleInfo) (prev next : bool) (p : Page) :=
  MkPage (markers p) (mapView p) (minimapView p) (minimapCircles p)
    (viewerContainerActive p) (Some t) prev next (surveyImageSrc p).
Definition with_surveyImageSrc (src : string) (p : Page) :=
  MkPage (markers p) (mapView p) (minimapView p) (minimapCircles p)
    (viewerContainerActive p) (titleInfo p) (prevDisabled p) (nextDisabled p)
    (Some src).

(** *** Handlers: state, trace and exceptions *)

(** The calls a handler makes on the displays, recorded when they return. *)
Inductive Call :=
| UpdateImage                       (* updateImage() *)
| MoveTo (imageId : string)         (* viewer.moveTo(imageId) *)
| UpdateViewerInfo                  (* updateViewerInfo() *)
| UpdateMinimap                     (* updateMinimap() *)
| HighlightMarker (index : Z)       (* highlightMarker(index) *)
| MapSetView                        (* map.setView(...) *)
| ViewerSetZoom                     (* viewer.setZoom(0) *)
| ViewerSetCenter                   (* viewer.setCenter([0.5, 0.95]) *)
| SetTimeout.                       (* setTimeout(..., 100) *)

#[global] Instance Call_eq_dec : EqDecision Call.
Proof. solve_decision. Defined.

(** How a handler ends: the state it leaves, the calls it completed, and
    its value, [None] when a [TypeError] cut it short. *)
Record Outcome (A : Type) := MkOutcome {
  final : State;
  trace : list Call;
  result : option A
}.
Arguments MkOutcome {A} final trace result.
Arguments final {A} o.
Arguments trace {A} o.
Arguments result {A} o.

Definition Run (A : Type) : Type := State → Outcome A.

#[global] Instance Run_ret : MRet Run := fun A a s => MkOutcome s [] (Some a).

#[global] Instance Run_bind : MBind Run := fun A B f m s =>
  let o := m s in
  match result o with
  | None => MkOutcome (final o) (trace o) None
  | Some a =>
      let o' := f a (final o) in
      MkOutcome (final o') (trace o ++ trace o') (result o')
  end.

Definition get : Run State := fun s => MkOutcome s [] (Some s).
Definition modify (f : State → State) : Run unit :=
  fun s => MkOutcome (f s) [] (Some tt).
Definition called (c : Call) : Run unit := fun s => MkOutcome s [c] (Some tt).
Definition throwTypeError {A} : Run A := fun s => MkOutcome s [] None.

(** Reading a property of [v]: a [TypeError] when [v] is [undefined]. *)
Definition defined {A} (v : option A) : Run A :=
  match v with
  | Some a => mret a
  | None => throwTypeError
  end.

(** [surveyData[currentPointIndex]], read for one of its properties. *)
Definition currentPoint : Run SurveyPoint :=
  s ← get; defined (js_index (surveyData s) (currentPointIndex (nav s))).

(** *** Functions the two front ends share *)

Definition updateViewerInfo : Run unit :=
  s ← get;
  point ← currentPoint;
  let view := if isShowingFront (nav s) then "Front" else "Rear" in
  let heading := if isShowingFront (nav s) then heading_front point
                 else js_rem (js_add (heading_front point) 180) 360 in
  let length := Z.of_nat (length (surveyData s)) in
  modify (set_page (with_titleInfo
    (MkTitleInfo (currentPointIndex (nav s) + 1) length view heading)
    (currentPointIndex (nav s) =? 0)
    (currentPointIndex (nav s) =? length - 1)));;
  called UpdateViewerInfo.

Definition updateMinimap : Run unit :=
  point ← currentPoint;
  modify (set_page (with_minimap (Some (lat point, long point, 15))
                                 [(lat point, long point)]));;
  called UpdateMinimap.

Definition highlightMarker (index : Z) : Run unit :=
  modify (set_page (fun p => with_markers
    (imap (fun i _ => if Z.of_nat i =? index then highlightStyle
                      else defaultStyle) (markers p)) p));;
  called (HighlightMarker index).

Definition exitViewerMode : Run unit :=
  modify (set_nav (with_isViewerMode false));;
  modify (set_page (with_viewerContainerActive false));;
  point ← currentPoint;
  modify (set_page (with_mapView (SetView (lat point) (long point))));;
  called MapSetView;;
  s ← get;
  highlightMarker (currentPointIndex (nav s)).

(** [init]: the loader, then [initMap], [initMinimap] and [setupControls];
    a failure ends in the error banner and nothing is set up. *)
Inductive InitOutcome :=
| Ready (s : State)
| ErrorBanner (msg : string).

Definition initMap (data : list SurveyPoint) : State :=
  let s0 :=
    {| surveyData := data;
       nav := MkNav 0 true false;
       engine := MkEngine false None None 0;
       page := {| markers := map (fun _ => defaultStyle) data;
                  mapView := FitBounds;
                  minimapView := None;
                  minimapCircles := [];
                  viewerContainerActive := false;
                  titleInfo := None;
                  prevDisabled := false;
                  nextDisabled := false;
                  surveyImageSrc := None |} |} in
  final (highlightMarker 0 s0).

Definition init (v : FrontEnd) (localeCompare : string → string → Z)
    (results : PapaOutcome SurveyPoint) : InitOutcome :=
  match loadCSVData localeCompare v results with
  | Resolved data => Ready (initMap data)
  | Rejected error => ErrorBanner ("Failed to initialize: " +:+ message error)
  end.

(** The image id [`point${surveyData[currentPointIndex].id}_${view}`]. *)
Definition imageIdOf (point : SurveyPoint) (showingFront : bool) : string :=
  "point" +:+ ToString (id point) +:+ "_"
  +:+ (if showingFront then "front" else "rear").

(** *** The flat-image front end *)

Module Flat.

Definition updateImage : Run unit :=
  s ← get;
  point ← currentPoint;
  let imageFile := if isShowingFront (nav s) then front point else rear point in
  modify (set_page (with_surveyImageSrc ("./images/" +:+ ToString imageFile)));;
  called UpdateImage.

(** The four calls that end [enterViewerMode] and follow each move of the
    index: [updateImage(); updateViewerInfo(); updateMinimap();
    highlightMarker(currentPointIndex);] *)
Definition refreshAll : Run unit :=
  updateImage;;
  updateViewerInfo;;
  updateMinimap;;
  s ← get;
  highlightMarker (currentPointIndex (nav s)).

Definition enterViewerMode : Run unit :=
  modify (set_nav (with_isViewerMode true));;
  modify (set_page (with_viewerContainerActive true));;
  refreshAll.

(** [marker.on('click', ...)] of the marker created for [index]. *)
Definition markerClick (index : Z) : Run unit :=
  modify (set_nav (with_currentPointIndex index));;
  modify (set_nav (with_isShowingFront true));;
  enterViewerMode.

Definition prevClick : Run unit :=
  s ← get;
  if 0 <? currentPointIndex (nav s) then
    modify (set_nav (with_currentPointIndex (currentPointIndex (nav s) - 1)));;
    refreshAll
  else mret tt.

Definition nextClick : Run unit :=
  s ← get;
  if currentPointIndex (nav s) <? Z.of_nat (length (surveyData s)) - 1 then
    modify (set_nav (with_currentPointIndex (currentPointIndex (nav s) + 1)));;
    refreshAll
  else mret tt.

Definition switchViewClick : Run unit :=
  s ← get;
  modify (set_nav (with_isShowingFront (negb (isShowingFront (nav s)))));;
  updateImage;;
  updateViewerInfo.

Inductive Event :=
| MarkerClick (index : Z)
| CloseViewerClick
| MinimapClick
| PrevClick
| NextClick
| SwitchViewClick.

Definition handler (e : Event) : Run unit :=
  match e with
  | MarkerClick index => markerClick index
  | CloseViewerClick => exitViewerMode
  | MinimapClick => exitViewerMode
  | PrevClick => prevClick
  | NextClick => nextClick
  | SwitchViewClick => switchViewClick
  end.

(** A marker exists for each index of the loaded data, and no other. *)
Definition enabled (e : Event) (s : State) : Prop :=
  match e with
  | MarkerClick index => 0 ≤ index < Z.of_nat (length (markers (page s)))
  | _ => True
  end.

Definition step (e : Event) (s : State) : State := final (handler e s).

Inductive reachable (localeCompare : string → string → Z)
    (results : PapaOutcome SurveyPoint) : State → Prop :=
| reach_init s :
    init FlatImage localeCompare results = Ready s →
    reachable localeCompare results s
| reach_step s e :
    reachable localeCompare results s → enabled e s →
    reachable localeCompare results (step e s).

(** The image file the image element shows for a point and a side. *)
Definition imageSrcOf (point : SurveyPoint) (showingFront : bool) : string :=
  "./images/" +:+ ToString (if showingFront then front point else rear point).

End Flat.

(** *** The graph-based front end *)

Module Graph.

(** The image the viewer hands to the ['image'] listener, by the two
    properties the listener reads. *)
Record EngineImage := MkEngineImage {
  image_id : string;
  image_point_id : jsval
}.

Inductive Event :=
| MarkerClick (index : Z)
| CloseViewerClick
| MinimapClick
| PrevClick
| NextClick
| SwitchViewClick
| TimeoutFires
| ViewerLoad
| ViewerImage (image : option EngineImage).

Definition viewer_moveTo (imageId : string) : Run unit :=
  s ← get;
  defined (viewer (engine s));;
  modify (set_engine (with_viewer (Some (MkViewer imageId))));;
  called (MoveTo imageId).

Definition viewer_setZoom : Run unit :=
  s ← get; defined (viewer (engine s));; called ViewerSetZoom.

Definition viewer_setCenter : Run unit :=
  s ← get; defined (viewer (engine s));; called ViewerSetCenter.

(** [const view = ...; const imageId = ...; viewer.moveTo(imageId);] *)
Definition moveToCurrent : Run unit :=
  s ← get;
  point ← currentPoint;
  viewer_moveTo (imageIdOf point (isShowingFront (nav s))).

(** The calls that end [enterViewerMode] once the viewer is initialised and
    follow each move of the index: [viewer.moveTo(imageId);
    updateViewerInfo(); updateMinimap(); highlightMarker(currentPointIndex);] *)
Definition refreshAll : Run unit :=
  moveToCurrent;;
  updateViewerInfo;;
  updateMinimap;;
  s ← get;
  highlightMarker (currentPointIndex (nav s)).

(** [viewer.on('load', ...)] *)
Definition loadListener : Run unit :=
  viewer_setZoom;; viewer_setCenter.

(** [viewer.on('image', (image) => ...)] *)
Definition imageListener (image : option EngineImage) : Run unit :=
  match image with
  | None => mret tt
  | Some image =>
      if truthy (image_point_id image) then
        s ← get;
        let index := findIndex (fun p => strict_eq (id p) (image_point_id image))
                               (surveyData s) in
        if negb (index =? -1) then
          modify (set_nav (with_currentPointIndex index));;
          modify (set_nav (with_isShowingFront
                             (includes (image_id image) "_front")));;
          if isViewerMode (nav s) then
            viewer_setZoom;;
            viewer_setCenter;;
            updateViewerInfo;;
            updateMinimap;;
            highlightMarker index
          else mret tt
        else mret tt
      else mret tt
  end.

Section WithEnv.
Variable env : Env.

Definition initViewer : Run unit :=
  s ← get;
  if viewerInitialized (engine s) then mret tt
  else
    modify (set_engine (with_dataProvider
              (Some (newCustomDataProvider env (surveyData s)))));;
    point ← currentPoint;
    let firstImageId := "point" +:+ ToString (id point) +:+ "_front" in
    modify (set_engine (with_viewer (Some (MkViewer firstImageId))));;
    modify (set_engine (with_viewerInitialized true)).

(** The callback [enterViewerMode] hands to [setTimeout]. *)
Definition timeoutCallback : Run unit :=
  initViewer;;
  updateViewerInfo;;
  updateMinimap;;
  s ← get;
  highlightMarker (currentPointIndex (nav s)).

Definition enterViewerMode : Run unit :=
  modify (set_nav (with_isViewerMode true));;
  modify (set_page (with_viewerContainerActive true));;
  s ← get;
  if negb (viewerInitialized (engine s)) then
    modify (set_engine (with_pendingTimeouts (S (pendingTimeouts (engine s)))));;
    called SetTimeout
  else refreshAll.

Definition markerClick (index : Z) : Run unit :=
  modify (set_nav (with_currentPointIndex index));;
  modify (set_nav (with_isShowingFront true));;
  enterViewerMode.

Definition prevClick : Run unit :=
  s ← get;
  if 0 <? currentPointIndex (nav s) then
    modify (set_nav (with_currentPointIndex (currentPointIndex (nav s) - 1)));;
    refreshAll
  else mret tt.

Definition nextClick : Run unit :=
  s ← get;
  if currentPointIndex (nav s) <? Z.of_nat (length (surveyData s)) - 1 then
    modify (set_nav (with_currentPointIndex (currentPointIndex (nav s) + 1)));;
    refreshAll
  else mret tt.

Definition switchViewClick : Run unit :=
  s ← get;
  modify (set_nav (with_isShowingFront (negb (isShowingFront (nav s)))));;
  moveToCurrent;;
  updateViewerInfo.

Definition handler (e : Event) : Run unit :=
  match e with
  | MarkerClick index => markerClick index
  | CloseViewerClick => exitViewerMode
  | MinimapClick => exitViewerMode
  | PrevClick => prevClick
  | NextClick => nextClick
  | SwitchViewClick => switchViewClick
  | TimeoutFires =>
      modify (set_engine (fun e =>
        with_pendingTimeouts (Nat.pred (pendingTimeouts e)) e));;
      timeoutCallback
  | ViewerLoad => loadListener
  | ViewerImage image => imageListener image
  end.

(** A marker exists for each index of the loaded data; a timeout fires
    only once scheduled; the viewer's listeners run only once the viewer
    exists. *)
Definition enabled (e : Event) (s : State) : Prop :=
  match e with
  | MarkerClick index => 0 ≤ index < Z.of_nat (length (markers (page s)))
  | TimeoutFires => (0 < pendingTimeouts (engine s))%nat
  | ViewerLoad | ViewerImage _ => viewer (engine s) ≠ None
  | _ => True
  end.

Definition step (e : Event) (s : State) : State := final (handler e s).

Inductive reachable (localeCompare : string → string → Z)
    (results : PapaOutcome SurveyPoint) : State → Prop :=
| reach_init s :
    init GraphBased localeCompare results = Ready s →
    reachable localeCompare results s
| reach_step s e :
    reachable localeCompare results s → enabled e s →
    reachable localeCompare results (step e s).
End WithEnv.

End Graph.

(** ** Vocabulary of the statements *)

(** The ids the provider derives from a survey point. *)
Definition front_id (point : SurveyPoint) : string :=
  "point" +:+ ToString (id point) +:+ "_front".
Definition rear_id (point : SurveyPoint) : string :=
  "point" +:+ ToString (id point) +:+ "_rear".

(** The spatial cell of an image, and everything the buckets hold. *)
Definition cellOf (env : Env) (image : ImageEnt.t) : string :=
  lngLatToCellId env (ImageEnt.computed_geometry image).
Definition bucketContents (cells : gmap string (list ImageEnt.t))
  : list ImageEnt.t :=
  concat (map snd (map_to_list cells)).

(** Keys of [this.images] are the ids of the images stored under them,
    and every image created so far has its id among the keys. *)
Definition images_consistent (b : Building) : Prop :=
  (∀ k image, b_images b !! k = Some image →
     ImageEnt.id image = k ∧ image ∈ frontImages b ++ rearImages b)
  ∧ (∀ image, image ∈ frontImages b ++ rearImages b →
       is_Some (b_images b !! ImageEnt.id image)).


(** The survey point under [currentPointIndex], when there is one. *)
Definition pointAt (s : State) : option SurveyPoint :=
  js_index (surveyData s) (currentPointIndex (nav s)).

(** [currentPointIndex] is an index of the dataset. *)
Definition validIndex (s : State) : Prop :=
  0 ≤ currentPointIndex (nav s) < Z.of_nat (length (surveyData s)).

(** What the info panel shows for a navigation state: 1-based position,
    number of points, side label, and the heading of the side. *)
Definition infoOf (s : State) (point : SurveyPoint) : TitleInfo :=
  {| position := currentPointIndex (nav s) + 1;
     total := Z.of_nat (length (surveyData s));
     view := if isShowingFront (nav s) then "Front" else "Rear";
     heading := if isShowingFront (nav s) then heading_front point
                else js_rem (js_add (heading_front point) 180) 360 |}.

(** The marker styles with the marker of [index] emphasised and every other
    one in the default style. *)
Definition restyle (index : Z) (markers : list MarkerStyle) : list MarkerStyle :=
  imap (fun i _ => if Z.of_nat i =? index then highlightStyle else defaultStyle)
       markers.

(** The state each display refresh leaves, for the survey point shown. *)
Definition showInfo (point : SurveyPoint) (s : State) : State :=
  set_page (with_titleInfo (infoOf s point)
              (currentPointIndex (nav s) =? 0)
              (currentPointIndex (nav s) =? Z.of_nat (length (surveyData s)) - 1))
           s.
Definition showMinimap (point : SurveyPoint) (s : State) : State :=
  set_page (with_minimap (Some (lat point, long point, 15))
                         [(lat point, long point)]) s.
Definition showHighlight (index : Z) (s : State) : State :=
  set_page (fun p => with_markers (restyle index (markers p)) p) s.
Definition showImage (point : SurveyPoint) (s : State) : State :=
  set_page (with_surveyImageSrc
              (Flat.imageSrcOf point (isShowingFront (nav s)))) s.
Definition showInViewer (point : SurveyPoint) (s : State) : State :=
  set_engine (with_viewer
                (Some (MkViewer (imageIdOf point (isShowingFront (nav s)))))) s.

(** Each display agrees with the navigation state. *)
Definition imagerySynced (s : State) : Prop :=
  ∃ point, pointAt s = Some point
    ∧ surveyImageSrc (page s)
      = Some (Flat.imageSrcOf point (isShowingFront (nav s))).
Definition infoSynced (s : State) : Prop :=
  ∃ point, pointAt s = Some point
    ∧ titleInfo (page s) = Some (infoOf s point)
    ∧ prevDisabled (page s) = (currentPointIndex (nav s) =? 0)
    ∧ nextDisabled (page s)
      = (currentPointIndex (nav s) =? Z.of_nat (length (surveyData s)) - 1).
Definition minimapSynced (s : State) : Prop :=
  ∃ point, pointAt s = Some point
    ∧ minimapView (page s) = Some (lat point, long point, 15)
    ∧ minimapCircles (page s) = [(lat point, long point)].
Definition highlightSynced (s : State) : Prop :=
  length (markers (page s)) = length (surveyData s)
  ∧ markers (page s) = restyle (currentPointIndex (nav s)) (markers (page s)).

(** The invariant of the flat-image front end: the index is valid, the
    marker highlight follows it, each other display is either still
    untouched or in agreement, and all agree while the viewer is open. *)
Record FlatInv (s : State) : Prop := MkFlatInv {
  flat_valid : validIndex s;
  flat_highlight : highlightSynced s;
  flat_imagery : surveyImageSrc (page s) = None ∨ imagerySynced s;
  flat_info : titleInfo (page s) = None ∨ infoSynced s;
  flat_minimap : minimapView (page s) = None ∨ minimapSynced s;
  flat_viewer : isViewerMode (nav s) = true →
                imagerySynced s ∧ infoSynced s ∧ minimapSynced s
}.

(** The invariant of the graph-based front end that the handlers keep
    whether or not they run to their end: the index is valid and there is
    one marker per survey point. *)
Definition IndexInv (s : State) : Prop :=
  validIndex s ∧ length (markers (page s)) = length (surveyData s).

(** [m] keeps [P]: whatever state it leaves, also when it throws. *)
Definition keeps (P : State → Prop) {A} (m : Run A) : Prop :=
  ∀ s, P s → P (final (m s)).


(** ** Sample data: the three-point survey of the spec's scenarios *)

(** A comparator ordering strings by their code units. *)
Definition codeUnitCompare (a b : string) : Z :=
  match String.compare a b with
  | Lt => -1
  | Eq => 0
  | Gt => 1
  end.

Definition samplePoint (n heading : Z) : SurveyPoint :=
  {| id := JNum n; lat := JNum (-18); long := JNum 47;
     heading_front := heading;
     front := JStr ("front_" +:+ pretty n +:+ ".jpg");
     rear := JStr ("rear_" +:+ pretty n +:+ ".jpg");
     front_width := JNum 4000; front_height := JNum 2000;
     rear_width := JNum 4000; rear_height := JNum 2000 |}.

Definition sampleData : list SurveyPoint :=
  [samplePoint 1 90; samplePoint 2 180; samplePoint 3 270].

Definition sampleEnv : Env :=
  {| lngLatToCellId := fun g => ToString (fst g) +:+ "," +:+ ToString (snd g);
     Date_now := fun k => Z.of_nat k |}.

(** The flat-image front end with the viewer open on the second point. *)
Definition sampleFlatViewer : State :=
  Flat.step (Flat.MarkerClick 1) (initMap sampleData).

(** The graph-based front end with the viewer open on the second point and
    the engine started. *)
Definition sampleGraphViewer : State :=
  Graph.step sampleEnv Graph.TimeoutFires
    (Graph.step sampleEnv (Graph.MarkerClick 1) (initMap sampleData)).

(** The graph-based front end after a marker click on the first point, a
    click on the switch-view button before the deferred start of the engine,
    and that start. *)
Definition sampleGraphEarlySwitch : State :=
  Graph.step sampleEnv Graph.TimeoutFires
    (Graph.step sampleEnv Graph.SwitchViewClick
       (Graph.step sampleEnv (Graph.MarkerClick 0) (initMap sampleData))).

(** Two points with the boundary headings 359 and 0. *)
Definition boundaryData : list SurveyPoint :=
  [samplePoint 1 359; samplePoint 2 0].

(** A state of the front end showing the rear view of point [i] of [data]. *)
Definition rearViewOf (data : list SurveyPoint) (i : nat) : State :=
  set_nav (with_isShowingFront false)
    (set_nav (with_currentPointIndex (Z.of_nat i)) (initMap data)).

(** Rows as Papa Parse may deliver them: a complete one, one whose heading
    is the number 0, and one whose latitude is 0. *)
Definition sampleRow (n latitude heading : Z) : Row :=
  {| row_id := JNum n; row_lat := JNum latitude; row_long := JNum 47;
     row_heading_front := JNum heading;
     row_front := JStr "front.jpg"; row_rear := JStr "rear.jpg";
     row_front_width := JNum 4000; row_front_height := JNum 2000;
     row_rear_width := JNum 4000; row_rear_height := JNum 2000 |}.
Definition sampleRows : list Row :=
  [sampleRow 1 (-18) 90; sampleRow 2 (-18) 0; sampleRow 3 0 270].

(** ** Vocabulary of the further properties *)

(** A comparator that orders strings: any two are comparable, and the
    order is transitive. [localeCompare] is one. *)
Definition consistentComparator (localeCompare : string → string → Z) : Prop :=
  (∀ a b, localeCompare a b ≤ 0 ∨ localeCompare b a ≤ 0)
  ∧ (∀ a b c, localeCompare a b ≤ 0 → localeCompare b c ≤ 0 →
       localeCompare a c ≤ 0).

(** [a] sorts no later than [b]; [a] and [b] sort alike. *)
Definition rowLe (localeCompare : string → string → Z) {R} `{AsRow R}
    (a b : R) : Prop :=
  compareRows localeCompare a b ≤ 0.
Definition rowAlike (localeCompare : string → string → Z) {R} `{AsRow R}
    (a b : R) : Prop :=
  compareRows localeCompare a b ≤ 0 ∧ compareRows localeCompare b a ≤ 0.

#[global] Instance rowAlike_dec localeCompare {R} `{AsRow R} (a b : R) :
  Decision (rowAlike localeCompare a b).
Proof. unfold rowAlike. apply _. Defined.

(** The cell of a survey point: the one of both its images. *)
Definition cellOfPoint (env : Env) (point : SurveyPoint) : string :=
  lngLatToCellId env (lat point, long point).

(** Two rows that share the id 1 and differ in heading. *)
Definition duplicateIdData : list SurveyPoint :=
  [samplePoint 1 90; samplePoint 1 270].

(** The engine of the graph-based front end before [initViewer] has run, and
    after: the viewer exists and the provider is the one built over the
    dataset. *)
Definition engineIdle (s : State) : Prop :=
  viewerInitialized (engine s) = false
  ∧ viewer (engine s) = None
  ∧ dataProvider (engine s) = None.
Definition engineStarted (env : Env) (s : State) : Prop :=
  viewerInitialized (engine s) = true
  ∧ (∃ v, viewer (engine s) = Some v)
  ∧ dataProvider (engine s) = Some (newCustomDataProvider env (surveyData s)).

(** The invariant of the graph-based front end: the index is valid, the
    dataset is the loaded one, the engine is idle or started, the image the
    viewer was last asked for is an image of a survey point, a viewer that
    is open without the engine has a start pending, and with the viewer open
    and the engine started the info panel, minimap and highlight agree with
    the state. *)
Record GraphInv (env : Env) (data : list SurveyPoint) (s : State) : Prop :=
  MkGraphInv {
  graph_index : IndexInv s;
  graph_data : surveyData s = data;
  graph_engine : engineIdle s ∨ engineStarted env s;
  graph_viewer : ∀ v, viewer (engine s) = Some v →
                 ∃ point side, point ∈ surveyData s
                   ∧ requestedImage v = imageIdOf point side;
  graph_pending : isViewerMode (nav s) = true →
                  viewerInitialized (engine s) = false →
                  (0 < pendingTimeouts (engine s))%nat;
  graph_displays : isViewerMode (nav s) = true →
                   viewerInitialized (engine s) = true →
                   infoSynced s ∧ minimapSynced s ∧ highlightSynced s
}.

(** The graph-based front end after a marker click on the first point,
    before the deferred start of the engine. *)
Definition sampleGraphPending : State :=
  Graph.step sampleEnv (Graph.MarkerClick 0) (initMap sampleData).

(** The state after a move of the index to [index], where [point] is, and
    the four refreshes that follow it, in each front end. *)
Definition flatRefreshed (index : Z) (point : SurveyPoint) (s : State) : State :=
  showHighlight index
    (showMinimap point
       (showInfo point
          (showImage point (set_nav (with_currentPointIndex index) s)))).
Definition graphRefreshed (index : Z) (point : SurveyPoint) (s : State) : State :=
  showHighlight index
    (showMinimap point
       (showInfo point
          (showInViewer point (set_nav (with_currentPointIndex index) s)))).

(** The viewer shows the image of the current index and side. *)
Definition viewerSynced (s : State) : Prop :=
  ∃ point, pointAt s = Some point
    ∧ viewer (engine s)
      = Some (MkViewer (imageIdOf point (isShowingFront (nav s)))).

(** The image an engine hands to the ['image'] listener when it shows an
    image entity of the provider. *)
Definition engineImageOf (image : ImageEnt.t) : Graph.EngineImage :=
  Graph.MkEngineImage (ImageEnt.id image) (ImageEnt.point_id image).

(** ** Headings beyond the integers of the data model *)

(** The normalised form of a positive integer below 2^53 has its mantissa
    shifted left by this many bits. *)
Definition leadingShift (p : positive) : nat :=
  Z.to_nat (53 - Zpos (digits2_pos p)).

(** The number [-0]. *)
Definition negativeZero : number := S754_zero true.

(** The double nearest to 200.1, which the loader produces from the cell
    [200.1]: 7040392854975283 * 2^-45. *)
Definition heading_200_1 : number := S754_finite false 7040392854975283 (-45).

(** A survey point with id 1 and the given heading. *)
Definition pointWithHeading (h : number) : SurveyPoint :=
  {| id := JNum 1; lat := JNum (-18); long := JNum 47;
     heading_front := h;
     front := JStr "front_1.jpg"; rear := JStr "rear_1.jpg";
     front_width := JNum 4000; front_height := JNum 2000;
     rear_width := JNum 4000; rear_height := JNum 2000 |}.

(** ** Sample states of the graph-based front end off the main path *)



(** * Properties *)

(** ** The provider: chains, image table and cell buckets *)

Section ProviderFacts.
Variable env : Env.

Lemma foldl_processPoint_front data : ∀ b,
  frontImages (foldl (processPoint env) b data)
  = frontImages b
    ++ imap (fun i point => frontImageOf env (clock_calls b + 2 * i) point) data.
Proof.
  induction data as [|point data IH]; intros b; simpl.
  - by rewrite app_nil_r.
  - rewrite IH. simpl. rewrite <- app_assoc. simpl.
    rewrite Nat.add_0_r. do 2 f_equal.
    apply imap_ext. intros i x _. simpl. f_equal. lia.
Qed.

Lemma foldl_processPoint_rear data : ∀ b,
  rearImages (foldl (processPoint env) b data)
  = rearImages b
    ++ imap (fun i point => rearImageOf env (S (clock_calls b + 2 * i)) point) data.
Proof.
  induction data as [|point data IH]; intros b; simpl.
  - by rewrite app_nil_r.
  - rewrite IH. simpl. rewrite <- app_assoc. simpl.
    rewrite Nat.add_0_r. do 2 f_equal.
    apply imap_ext. intros i x _. simpl. f_equal. lia.
Qed.

Lemma frontImages_processAll data :
  frontImages (processAll env data)
  = imap (fun i point => frontImageOf env (2 * i) point) data.
Proof. unfold processAll. by rewrite foldl_processPoint_front. Qed.

Lemma rearImages_processAll data :
  rearImages (processAll env data)
  = imap (fun i point => rearImageOf env (S (2 * i)) point) data.
Proof. unfold processAll. by rewrite foldl_processPoint_rear. Qed.

Lemma front_ids_processAll data :
  map ImageEnt.id (frontImages (processAll env data)) = map front_id data.
Proof.
  rewrite frontImages_processAll.
  change (map ImageEnt.id) with (fmap (M:=list) ImageEnt.id).
  rewrite fmap_imap. 
  rewrite (imap_ext _ (const front_id)); [apply imap_const|done].
Qed.

Lemma rear_ids_processAll data :
  map ImageEnt.id (rearImages (processAll env data)) = map rear_id data.
Proof.
  rewrite rearImages_processAll.
  change (map ImageEnt.id) with (fmap (M:=list) ImageEnt.id).
  rewrite fmap_imap. 
  rewrite (imap_ext _ (const rear_id)); [apply imap_const|done].
Qed.

Lemma length_allImages data :
  length (allImages env data) = (2 * length data)%nat.
Proof.
  unfold allImages. rewrite length_app, frontImages_processAll,
    rearImages_processAll, !length_imap. lia.
Qed.

Lemma images_consistent_processPoint b point :
  images_consistent b → images_consistent (processPoint env b point).
Proof.
  intros [Hk Hi]. split.
  - intros k image. simpl. rewrite !lookup_insert_Some, !elem_of_app,
      !list_elem_of_singleton.
    intros [[<- <-]|[_ [[<- <-]|[_ Hb]]]]; [by auto..|].
    destruct (Hk _ _ Hb) as [? Hin]. apply elem_of_app in Hin. tauto.
  - intros image. simpl. rewrite !elem_of_app, !list_elem_of_singleton.
    rewrite !lookup_insert_is_Some.
    intros Hin.
    destruct (decide (ImageEnt.id (rearImageOf env (S (clock_calls b)) point)
                      = ImageEnt.id image)); [by left|].
    right. split; [done|].
    destruct (decide (ImageEnt.id (frontImageOf env (clock_calls b) point)
                      = ImageEnt.id image)); [by left|].
    right. split; [done|]. apply Hi. rewrite elem_of_app.
    destruct Hin as [[?| ->]|[?| ->]]; by auto.
Qed.

Lemma images_consistent_foldl data : ∀ b,
  images_consistent b → images_consistent (foldl (processPoint env) b data).
Proof.
  induction data as [|point data IH]; intros b Hb; simpl; [done|].
  apply IH, images_consistent_processPoint, Hb.
Qed.

Lemma images_consistent_processAll data :
  images_consistent (processAll env data).
Proof.
  apply images_consistent_foldl. split.
  - intros k image. simpl. by rewrite lookup_empty.
  - intros image. simpl. by rewrite elem_of_nil.
Qed.
End ProviderFacts.

Section CellFacts.
Variable env : Env.

Lemma bucketImage_insert cells image :
  bucketImage env cells image
  = <[cellOf env image := default [] (cells !! cellOf env image) ++ [image]]> cells.
Proof.
  unfold bucketImage, cellOf.
  destruct (cells !! _) as [bucket|] eqn:Hc; simpl.
  - by rewrite Hc.
  - by rewrite lookup_insert_eq, insert_insert_eq.
Qed.

Lemma bucketContents_bucketImage cells image :
  bucketContents (bucketImage env cells image) ≡ₚ image :: bucketContents cells.
Proof.
  rewrite bucketImage_insert. unfold bucketContents.
  set (c := cellOf env image).
  destruct (cells !! c) as [bucket|] eqn:Hc; simpl.
  - rewrite <- insert_delete_eq.
    rewrite map_to_list_insert by apply lookup_delete_eq.
    rewrite <- (map_to_list_delete cells c bucket Hc). simpl.
    rewrite <- app_assoc. simpl.
    symmetry. apply Permutation_middle.
  - by rewrite map_to_list_insert.
Qed.

Lemma bucketContents_foldl images : ∀ cells,
  bucketContents (foldl (bucketImage env) cells images)
  ≡ₚ bucketContents cells ++ images.
Proof.
  induction images as [|image images IH]; intros cells; simpl.
  - by rewrite app_nil_r.
  - rewrite IH, bucketContents_bucketImage. apply Permutation_middle.
Qed.

(** Each bucket holds the images of its cell, in creation order. *)
Lemma lookup_foldl_bucketImage images : ∀ cells c,
  foldl (bucketImage env) cells images !! c
  = match cells !! c, filter (fun image => cellOf env image = c) images with
    | None, [] => None
    | old, extra => Some (default [] old ++ extra)
    end.
Proof.
  induction images as [|image images IH]; intros cells c; simpl.
  - destruct (cells !! c); simpl; by rewrite ?app_nil_r.
  - rewrite IH, bucketImage_insert. rewrite filter_cons.
    destruct (decide (cellOf env image = c)) as [->|Hne].
    + rewrite lookup_insert_eq. simpl. rewrite <- app_assoc. simpl.
      by destruct (cells !! c).
    + by rewrite lookup_insert_ne.
Qed.

Lemma lookup_cells data c :
  cells (newCustomDataProvider env data) !! c
  = match filter (fun image => cellOf env image = c) (allImages env data) with
    | [] => None
    | bucket => Some bucket
    end.
Proof.
  unfold newCustomDataProvider, _processSurveyData. simpl.
  rewrite lookup_foldl_bucketImage, lookup_empty. by destruct (filter _ _).
Qed.
End CellFacts.

Section ProviderClaims.
Variable env : Env.

Lemma getSequence_front data :
  getSequence (newCustomDataProvider env data) "seq_front"
  = Resolved (Sequence.Build "seq_front" (map front_id data)).
Proof.
  unfold getSequence, newCustomDataProvider, _processSurveyData. simpl.
  rewrite lookup_insert_ne by done. rewrite lookup_insert_eq.
  by rewrite front_ids_processAll.
Qed.

Lemma getSequence_rear data :
  getSequence (newCustomDataProvider env data) "seq_rear"
  = Resolved (Sequence.Build "seq_rear" (map rear_id data)).
Proof.
  unfold getSequence, newCustomDataProvider, _processSurveyData. simpl.
  rewrite lookup_insert_eq. by rewrite rear_ids_processAll.
Qed.

Lemma getSequence_other data sequenceId :
  sequenceId ≠ "seq_front" → sequenceId ≠ "seq_rear" →
  getSequence (newCustomDataProvider env data) sequenceId
  = Rejected (MkError ("Sequence " +:+ sequenceId +:+ " not found")).
Proof.
  intros Hf Hr.
  unfold getSequence, newCustomDataProvider, _processSurveyData. simpl.
  by rewrite !lookup_insert_ne, lookup_empty by done.
Qed.

Lemma images_lookup_inv data k image :
  images (newCustomDataProvider env data) !! k = Some image →
  ImageEnt.id image = k ∧ image ∈ allImages env data.
Proof. apply (images_consistent_processAll env data). Qed.

Lemma images_lookup_known data image :
  image ∈ allImages env data →
  is_Some (images (newCustomDataProvider env data) !! ImageEnt.id image).
Proof. apply (images_consistent_processAll env data). Qed.

Lemma allImages_point_ids data :
  NoDup (map id data) → NoDup (allImages env data).
Proof.
  intros Hnd. unfold allImages.
  rewrite frontImages_processAll, rearImages_processAll.
  apply NoDup_app. split_and!.
  - apply (NoDup_fmap_1 ImageEnt.point_id).
    rewrite fmap_imap.
    rewrite (imap_ext _ (const id)); [by rewrite imap_const|done].
  - intros image Hf Hr.
    apply elem_of_lookup_imap_1 in Hf as (i & p & -> & _).
    apply elem_of_lookup_imap_1 in Hr as (j & q & Heq & _).
    by apply (f_equal ImageEnt.sequence) in Heq.
  - apply (NoDup_fmap_1 ImageEnt.point_id).
    rewrite fmap_imap.
    rewrite (imap_ext _ (const id)); [by rewrite imap_const|done].
Qed.
End ProviderClaims.

(** C2: for every dataset, the sequence returned for 'seq_front' lists
    exactly the ids point{id}_front in dataset order and the one returned for
    'seq_rear' the ids point{id}_rear in dataset order; each has as many
    entries as the dataset has points. *)
Theorem C2_sequences_in_dataset_order (env : Env) (data : list SurveyPoint) :
  ∃ seq_front seq_rear,
    getSequence (newCustomDataProvider env data) "seq_front" = Resolved seq_front
    ∧ getSequence (newCustomDataProvider env data) "seq_rear" = Resolved seq_rear
    ∧ Sequence.image_ids seq_front
      = map (fun point => "point" +:+ ToString (id point) +:+ "_front") data
    ∧ Sequence.image_ids seq_rear
      = map (fun point => "point" +:+ ToString (id point) +:+ "_rear") data
    ∧ length (Sequence.image_ids seq_front) = length data
    ∧ length (Sequence.image_ids seq_rear) = length data.
Proof.
  eexists _, _. split; [apply getSequence_front|].
  split; [apply getSequence_rear|]. simpl.
  by rewrite !length_map.
Qed.

(** C8: the sequence query fails exactly when the requested id is neither
    'seq_front' nor 'seq_rear', and then with the error "Sequence <id> not
    found"; for those two ids it resolves with the corresponding sequence. *)
Theorem C8_getSequence_not_found (env : Env) (data : list SurveyPoint)
    (sequenceId : string) :
  ((∃ error, getSequence (newCustomDataProvider env data) sequenceId
             = Rejected error)
   ↔ sequenceId ≠ "seq_front" ∧ sequenceId ≠ "seq_rear")
  ∧ (∀ error, getSequence (newCustomDataProvider env data) sequenceId
              = Rejected error →
       error = MkError ("Sequence " +:+ sequenceId +:+ " not found"))
  ∧ getSequence (newCustomDataProvider env data) "seq_front"
    = Resolved (Sequence.Build "seq_front" (map front_id data))
  ∧ getSequence (newCustomDataProvider env data) "seq_rear"
    = Resolved (Sequence.Build "seq_rear" (map rear_id data)).
Proof.
  split_and!; [|..|apply getSequence_front|apply getSequence_rear].
  - split.
    + intros [error Herr]. split; intros ->.
      * by rewrite getSequence_front in Herr.
      * by rewrite getSequence_rear in Herr.
    + intros [Hf Hr]. eexists. by apply getSequence_other.
  - intros error Herr.
    destruct (decide (sequenceId = "seq_front")) as [->|Hf];
      [by rewrite getSequence_front in Herr|].
    destruct (decide (sequenceId = "seq_rear")) as [->|Hr];
      [by rewrite getSequence_rear in Herr|].
    rewrite getSequence_other in Herr by done. congruence.
Qed.

(** C3: for every list of ids, [getImages] resolves (it never fails) with a
    list of the same length and order, each entry carrying the requested id;
    the entry of an id the provider knows holds the image entity of that id,
    and the entry of an unknown id holds the absent marker [null]. *)
Theorem C3_getImages_positional (env : Env) (data : list SurveyPoint)
    (imageIds : list string) :
  ∃ nodes,
    getImages (newCustomDataProvider env data) imageIds = Resolved nodes
    ∧ length nodes = length imageIds
    ∧ map node_id nodes = imageIds
    ∧ ∀ i entry, nodes !! i = Some entry →
        imageIds !! i = Some (node_id entry)
        ∧ match node entry with
          | Some image =>
              ImageEnt.id image = node_id entry ∧ image ∈ allImages env data
          | None =>
              node_id entry ∉ map ImageEnt.id (allImages env data)
          end.
Proof.
  set (provider := newCustomDataProvider env data).
  eexists. split; [reflexivity|].
  split; [by rewrite length_map|].
  split.
  { rewrite map_map. simpl. apply map_id. }
  intros i entry Hi.
  change (map ?f ?l) with (f <$> l) in Hi.
  rewrite list_lookup_fmap in Hi.
  destruct (imageIds !! i) as [k|] eqn:Hk; [|done].
  simpl in Hi. injection Hi as <-. cbn [node node_id]. split; [done|].
  change (b_images (processAll env data)) with (images provider).
  destruct (images provider !! k) as [image|] eqn:Himg.
  - exact (images_lookup_inv env data k image Himg).
  - intros Hin. change (map ?f ?l) with (f <$> l) in Hin.
    apply list_elem_of_fmap in Hin as (image & -> & Hin).
    apply (images_lookup_known env) in Hin. fold provider in Hin.
    rewrite Himg in Hin. by destruct Hin.
Qed.
(** C4: after construction every image entity (two per survey point) lies in
    exactly one cell bucket, the bucket of its own cell; the buckets together
    hold exactly the images created (no image is gained, lost or repeated:
    with distinct point ids the contents have no duplicate); every entry of
    the image table is among them; a cell query always resolves, with the
    empty list for a cell that is not indexed. *)
Theorem C4_cell_buckets_partition_images (env : Env) (data : list SurveyPoint) :
  length (allImages env data) = (2 * length data)%nat
  ∧ (∀ image, image ∈ allImages env data →
       ∃ bucket,
         cells (newCustomDataProvider env data) !! cellOf env image = Some bucket
         ∧ image ∈ bucket
         ∧ ∀ c bucket', cells (newCustomDataProvider env data) !! c = Some bucket' →
             image ∈ bucket' → c = cellOf env image)
  ∧ bucketContents (cells (newCustomDataProvider env data)) ≡ₚ allImages env data
  ∧ (NoDup (map id data) →
       NoDup (bucketContents (cells (newCustomDataProvider env data))))
  ∧ (∀ k image, images (newCustomDataProvider env data) !! k = Some image →
       image ∈ bucketContents (cells (newCustomDataProvider env data)))
  ∧ (∀ cellId, ∃ r,
       getCoreImages (newCustomDataProvider env data) cellId = Resolved r
       ∧ cell_id r = cellId
       ∧ (cells (newCustomDataProvider env data) !! cellId = None →
            core_images r = [])
       ∧ ∀ bucket, cells (newCustomDataProvider env data) !! cellId = Some bucket →
            core_images r = bucket).
Proof.
  assert (Hperm : bucketContents (cells (newCustomDataProvider env data))
                  ≡ₚ allImages env data).
  { unfold newCustomDataProvider, _processSurveyData. simpl.
    rewrite bucketContents_foldl. unfold bucketContents.
    by rewrite map_to_list_empty. }
  split_and!.
  - apply length_allImages.
  - intros image Hin.
    exists (filter (fun image' => cellOf env image' = cellOf env image)
                   (allImages env data)).
    assert (Hmem : image ∈ filter (fun image' => cellOf env image' = cellOf env image)
                                  (allImages env data)).
    { by apply list_elem_of_filter. }
    split_and!; [|done|].
    + rewrite lookup_cells. destruct (filter _ _) eqn:Hf; [|done].
      by apply elem_of_nil in Hmem.
    + intros c bucket'. rewrite lookup_cells.
      destruct (filter (fun image' => cellOf env image' = c) _) eqn:Hf;
        [done|].
      intros [= <-] Hin'.
      rewrite <- Hf in Hin'. apply list_elem_of_filter in Hin'. by destruct Hin'.
  - done.
  - intros Hnd. rewrite Hperm. by apply allImages_point_ids.
  - intros k image Hk. rewrite Hperm. by apply images_lookup_inv in Hk as [_ ?].
  - intros cellId. eexists. split; [reflexivity|]. simpl.
    split; [done|]. split.
    + by intros ->.
    + by intros bucket ->.
Qed.

(** *** The network *)

(** C9, as amended: [getImageBuffer] issues exactly one request, for the
    given URL, and never a second one; its promise rejects on a non-success
    response with the error "Failed to load image: <url>", which names the
    URL and nothing of the response; it rejects on a transport error with that
    very error; on a success response it settles as the body does, hence with
    the response bytes when the body is read. *)
Theorem C9_getImageBuffer_outcomes (fetch : string → Promise Response)
    (url : string) :
  requests (getImageBuffer fetch url) = [url]
  ∧ (∀ response, fetch url = Resolved response → ok response = false →
       settled (getImageBuffer fetch url)
       = Rejected (MkError ("Failed to load image: " +:+ url)))
  ∧ (∀ error, fetch url = Rejected error →
       settled (getImageBuffer fetch url) = Rejected error)
  ∧ (∀ response, fetch url = Resolved response → ok response = true →
       settled (getImageBuffer fetch url) = arrayBuffer response)
  ∧ (∀ response bytes, fetch url = Resolved response → ok response = true →
       arrayBuffer response = Resolved bytes →
       settled (getImageBuffer fetch url) = Resolved bytes).
Proof.
  unfold getImageBuffer. cbn [requests settled]. split_and!; [done|..].
  - intros response Hf Hok. rewrite Hf. simpl. by rewrite Hok.
  - intros error Hf. by rewrite Hf.
  - intros response Hf Hok. rewrite Hf. simpl. rewrite Hok. simpl.
    by destruct (arrayBuffer response).
  - intros response bytes Hf Hok Hb. rewrite Hf. simpl. rewrite Hok, Hb. done.
Qed.

(** C9, the claim as stated fails: the error of a non-success response does
    not carry the response status, and the error of a transport failure does
    not carry the URL. No reading of the error recovers the status, since a
    404 and a 500 for the same URL reject with the same error; none recovers
    the URL after a transport failure, since the browser's error is passed on
    as it is, whatever the URL. *)
Lemma C9_error_carries_no_status :
  (¬ ∃ statusOf : Error → Z,
       ∀ (code : Z) (error : Error),
         settled (getImageBuffer
                    (fun _ => Resolved (MkResponse false code (Resolved [])))
                    "./images/front_1.jpg") = Rejected error →
         statusOf error = code)
  ∧ (¬ ∃ urlOf : Error → string,
         ∀ (url : string) (error : Error),
           settled (getImageBuffer
                      (fun _ => Rejected (MkError "Failed to fetch")) url)
           = Rejected error →
           urlOf error = url).
Proof.
  split.
  - intros [statusOf Hs].
    pose proof (Hs 404 _ eq_refl) as H404.
    pose proof (Hs 500 _ eq_refl) as H500.
    simpl in *. congruence.
  - intros [urlOf Hu].
    pose proof (Hu "./images/front_1.jpg" _ eq_refl) as H1.
    pose proof (Hu "./images/rear_1.jpg" _ eq_refl) as H2.
    simpl in *. congruence.
Qed.

(** ** The loader *)

Section LoaderFacts.
Variable localeCompare : string → string → Z.
Context {R : Type} `{AsRow R}.

Lemma sort_insert_perm x (sorted : list R) :
  sort_insert localeCompare x sorted ≡ₚ x :: sorted.
Proof.
  induction sorted as [|y rest IH]; simpl; [done|].
  destruct (_ <=? 0); [done|]. rewrite IH. apply Permutation_swap.
Qed.

Lemma js_sort_perm (arr : list R) : js_sort localeCompare arr ≡ₚ arr.
Proof.
  induction arr as [|x arr IH]; simpl; [done|].
  by rewrite sort_insert_perm, IH.
Qed.

Lemma loadCSVData_resolved v results data :
  loadCSVData localeCompare v results = Resolved data →
  ∃ rows, results = PapaComplete rows
    ∧ data ≡ₚ filter (fun row => validRow v (as_row row) = true) rows
    ∧ data ≠ [].
Proof.
  destruct results as [rows|msg]; [|done]. simpl.
  destruct (0 <? _); [|done].
  destruct (Z.of_nat _ =? 0) eqn:Hlen; [done|]. intros [= <-].
  exists rows. split; [done|]. split; [apply js_sort_perm|].
  intros Hnil. apply Z.eqb_neq in Hlen. apply Hlen.
  apply (f_equal length) in Hnil. rewrite (js_sort_perm _) in Hnil.
  simpl in Hnil. lia.
Qed.
End LoaderFacts.

Lemma validRow_true v r :
  validRow v r = true ↔
  truthy (row_id r) = true ∧ truthy (row_lat r) = true
  ∧ truthy (row_long r) = true ∧ truthy (row_heading_front r) = true
  ∧ (v = FlatImage → truthy (row_front r) = true ∧ truthy (row_rear r) = true).
Proof.
  unfold validRow. destruct v; rewrite !andb_true_iff; intuition congruence.
Qed.

(** C10: the loader keeps a row only if every required cell (id, lat, long,
    heading_front, and front and rear in the flat-image front end) is truthy;
    a row whose heading_front, lat or long is the number 0 is therefore never
    among the survey points handed on. *)
Theorem C10_loader_drops_falsy_rows {R : Type} `{AsRow R}
    (localeCompare : string → string → Z) (v : FrontEnd)
    (results : PapaOutcome R) (data : list R) :
  loadCSVData localeCompare v results = Resolved data →
  (∀ row, row ∈ data →
     truthy (row_id (as_row row)) = true
     ∧ truthy (row_lat (as_row row)) = true
     ∧ truthy (row_long (as_row row)) = true
     ∧ truthy (row_heading_front (as_row row)) = true
     ∧ (v = FlatImage → truthy (row_front (as_row row)) = true
                        ∧ truthy (row_rear (as_row row)) = true))
  ∧ (∀ row, row_heading_front (as_row row) = JNum 0
            ∨ row_lat (as_row row) = JNum 0
            ∨ row_long (as_row row) = JNum 0 →
       row ∉ data).
Proof.
  intros Hload.
  apply loadCSVData_resolved in Hload as (rows & -> & Hperm & _).
  assert (Hvalid : ∀ row, row ∈ data → validRow v (as_row row) = true).
  { intros row. rewrite Hperm, list_elem_of_filter. tauto. }
  split.
  - intros row Hin. by apply validRow_true, Hvalid.
  - intros row Hzero Hin. apply Hvalid, validRow_true in Hin.
    destruct Hin as (_ & Hlat & Hlong & Hheading & _).
    destruct Hzero as [Hz|[Hz|Hz]]; rewrite Hz in *; done.
Qed.
(** ** Running handlers *)

Lemma bind_run {A B} (m : Run A) (f : A → Run B) s s' t a s'' t' r :
  m s = MkOutcome s' t (Some a) →
  f a s' = MkOutcome s'' t' r →
  (m ≫= f) s = MkOutcome s'' (t ++ t') r.
Proof.
  intros Hm Hf. unfold mbind, Run_bind. rewrite Hm. simpl. by rewrite Hf.
Qed.

Lemma bind_throw {A B} (m : Run A) (f : A → Run B) s s' t :
  m s = MkOutcome s' t None →
  (m ≫= f) s = MkOutcome s' t None.
Proof. intros Hm. unfold mbind, Run_bind. by rewrite Hm. Qed.

Lemma get_run s : get s = MkOutcome s [] (Some s).
Proof. reflexivity. Qed.

Lemma modify_run f s : modify f s = MkOutcome (f s) [] (Some tt).
Proof. reflexivity. Qed.

Lemma called_run c s : called c s = MkOutcome s [c] (Some tt).
Proof. reflexivity. Qed.

Lemma ret_run {A} (a : A) s : (mret a : Run A) s = MkOutcome s [] (Some a).
Proof. reflexivity. Qed.

Lemma currentPoint_run s point :
  pointAt s = Some point → currentPoint s = MkOutcome s [] (Some point).
Proof.
  intros Hp. unfold currentPoint, pointAt in *.
  etransitivity; [eapply bind_run; [apply get_run|]|reflexivity].
  cbv beta. rewrite Hp. apply ret_run.
Qed.

(** One step of a handler whose outcome is known. *)
Ltac run_atom :=
  first [ apply get_run | apply modify_run | apply called_run | apply ret_run
        | apply currentPoint_run; done ].
Ltac run_seq :=
  repeat (eapply bind_run; [solve [run_atom]|cbv beta]); try solve [run_atom].
Ltac run_as tac := etransitivity; [tac|reflexivity].

Lemma updateViewerInfo_run s point :
  pointAt s = Some point →
  updateViewerInfo s = MkOutcome (showInfo point s) [UpdateViewerInfo] (Some tt).
Proof. intros Hp. unfold updateViewerInfo. run_as run_seq. Qed.

Lemma updateMinimap_run s point :
  pointAt s = Some point →
  updateMinimap s = MkOutcome (showMinimap point s) [UpdateMinimap] (Some tt).
Proof. intros Hp. unfold updateMinimap. run_as run_seq. Qed.

Lemma highlightMarker_run index s :
  highlightMarker index s
  = MkOutcome (showHighlight index s) [HighlightMarker index] (Some tt).
Proof. unfold highlightMarker. run_as run_seq. Qed.

Lemma updateImage_run s point :
  pointAt s = Some point →
  Flat.updateImage s = MkOutcome (showImage point s) [UpdateImage] (Some tt).
Proof. intros Hp. unfold Flat.updateImage. run_as run_seq. Qed.

Lemma refreshAll_run s point :
  pointAt s = Some point →
  Flat.refreshAll s
  = MkOutcome
      (showHighlight (currentPointIndex (nav s))
         (showMinimap point (showInfo point (showImage point s))))
      [UpdateImage; UpdateViewerInfo; UpdateMinimap;
       HighlightMarker (currentPointIndex (nav s))]
      (Some tt).
Proof.
  intros Hp. unfold Flat.refreshAll. run_as ltac:(
    eapply bind_run; [by apply updateImage_run|cbv beta];
    eapply bind_run; [by apply updateViewerInfo_run|cbv beta];
    eapply bind_run; [by apply updateMinimap_run|cbv beta];
    eapply bind_run; [apply get_run|cbv beta];
    apply highlightMarker_run).
Qed.
(** ** The flat-image front end *)

Lemma pointAt_valid s : validIndex s → ∃ point, pointAt s = Some point.
Proof.
  unfold validIndex, pointAt, js_index. intros [H0 Hlen].
  destruct (_ <? 0) eqn:Hneg; [lia|].
  apply lookup_lt_is_Some. lia.
Qed.

Lemma pointAt_Some_valid s point : pointAt s = Some point → validIndex s.
Proof.
  unfold validIndex, pointAt, js_index.
  destruct (_ <? 0) eqn:Hneg; [done|]. intros Hp%lookup_lt_Some. lia.
Qed.

Lemma restyle_restyle i j markers :
  restyle i (restyle j markers) = restyle i markers.
Proof.
  unfold restyle. apply list_eq. intros k.
  rewrite !list_lookup_imap. by destruct (markers !! k).
Qed.

Lemma length_restyle i markers : length (restyle i markers) = length markers.
Proof. apply length_imap. Qed.

(** After the four refreshes every display agrees with the state. *)
Lemma refreshed_synced s point :
  pointAt s = Some point →
  length (markers (page s)) = length (surveyData s) →
  let s' := showHighlight (currentPointIndex (nav s))
              (showMinimap point (showInfo point (showImage point s))) in
  nav s' = nav s ∧ surveyData s' = surveyData s
  ∧ imagerySynced s' ∧ infoSynced s' ∧ minimapSynced s' ∧ highlightSynced s'.
Proof.
  intros Hp Hlen. simpl. split_and!; try done.
  - by exists point.
  - by exists point.
  - by exists point.
  - split; simpl; [by rewrite length_restyle|by rewrite restyle_restyle].
Qed.

Lemma FlatInv_refreshed s point :
  pointAt s = Some point →
  length (markers (page s)) = length (surveyData s) →
  FlatInv (showHighlight (currentPointIndex (nav s))
             (showMinimap point (showInfo point (showImage point s)))).
Proof.
  intros Hp Hlen.
  destruct (refreshed_synced s point Hp Hlen) as (Hnav & Hdata & ? & ? & ? & ?).
  split; auto.
  apply (pointAt_Some_valid _ point). done.
Qed.

Lemma markerClick_run s index point :
  js_index (surveyData s) index = Some point →
  let s1 := set_page (with_viewerContainerActive true)
              (set_nav (with_isViewerMode true)
                 (set_nav (with_isShowingFront true)
                    (set_nav (with_currentPointIndex index) s))) in
  Flat.markerClick index s
  = MkOutcome
      (showHighlight index (showMinimap point (showInfo point (showImage point s1))))
      [UpdateImage; UpdateViewerInfo; UpdateMinimap; HighlightMarker index]
      (Some tt).
Proof.
  intros Hp s1. unfold Flat.markerClick, Flat.enterViewerMode.
  run_as ltac:(
    do 4 (eapply bind_run; [apply modify_run|cbv beta]);
    apply (refreshAll_run _ point); exact Hp).
Qed.

Lemma prevClick_run s point :
  0 < currentPointIndex (nav s) →
  js_index (surveyData s) (currentPointIndex (nav s) - 1) = Some point →
  let s1 := set_nav (with_currentPointIndex (currentPointIndex (nav s) - 1)) s in
  Flat.prevClick s
  = MkOutcome
      (showHighlight (currentPointIndex (nav s) - 1)
         (showMinimap point (showInfo point (showImage point s1))))
      [UpdateImage; UpdateViewerInfo; UpdateMinimap;
       HighlightMarker (currentPointIndex (nav s) - 1)]
      (Some tt).
Proof.
  intros Hpos Hp s1. unfold Flat.prevClick.
  run_as ltac:(
    eapply bind_run; [apply get_run|cbv beta];
    rewrite (proj2 (Z.ltb_lt _ _) Hpos);
    eapply bind_run; [apply modify_run|cbv beta];
    apply (refreshAll_run _ point); exact Hp).
Qed.

Lemma prevClick_first s :
  currentPointIndex (nav s) ≤ 0 → Flat.prevClick s = MkOutcome s [] (Some tt).
Proof.
  intros Hpos. unfold Flat.prevClick.
  run_as ltac:(
    eapply bind_run; [apply get_run|cbv beta];
    rewrite (proj2 (Z.ltb_ge _ _) Hpos); apply ret_run).
Qed.

Lemma nextClick_run s point :
  currentPointIndex (nav s) < Z.of_nat (length (surveyData s)) - 1 →
  js_index (surveyData s) (currentPointIndex (nav s) + 1) = Some point →
  let s1 := set_nav (with_currentPointIndex (currentPointIndex (nav s) + 1)) s in
  Flat.nextClick s
  = MkOutcome
      (showHighlight (currentPointIndex (nav s) + 1)
         (showMinimap point (showInfo point (showImage point s1))))
      [UpdateImage; UpdateViewerInfo; UpdateMinimap;
       HighlightMarker (currentPointIndex (nav s) + 1)]
      (Some tt).
Proof.
  intros Hlt Hp s1. unfold Flat.nextClick.
  run_as ltac:(
    eapply bind_run; [apply get_run|cbv beta];
    rewrite (proj2 (Z.ltb_lt _ _) Hlt);
    eapply bind_run; [apply modify_run|cbv beta];
    apply (refreshAll_run _ point); exact Hp).
Qed.

Lemma nextClick_last s :
  Z.of_nat (length (surveyData s)) - 1 ≤ currentPointIndex (nav s) →
  Flat.nextClick s = MkOutcome s [] (Some tt).
Proof.
  intros Hge. unfold Flat.nextClick.
  run_as ltac:(
    eapply bind_run; [apply get_run|cbv beta];
    rewrite (proj2 (Z.ltb_ge _ _) Hge); apply ret_run).
Qed.

Lemma switchViewClick_run s point :
  pointAt s = Some point →
  let s1 := set_nav (with_isShowingFront (negb (isShowingFront (nav s)))) s in
  Flat.switchViewClick s
  = MkOutcome (showInfo point (showImage point s1))
      [UpdateImage; UpdateViewerInfo] (Some tt).
Proof.
  intros Hp s1. unfold Flat.switchViewClick.
  run_as ltac:(
    eapply bind_run; [apply get_run|cbv beta];
    eapply bind_run; [apply modify_run|cbv beta];
    eapply bind_run; [by apply (updateImage_run _ point)|cbv beta];
    by apply (updateViewerInfo_run _ point)).
Qed.

Lemma exitViewerMode_run s point :
  pointAt s = Some point →
  let s1 := set_page (with_mapView (SetView (lat point) (long point)))
              (set_page (with_viewerContainerActive false)
                 (set_nav (with_isViewerMode false) s)) in
  exitViewerMode s
  = MkOutcome (showHighlight (currentPointIndex (nav s)) s1)
      [MapSetView; HighlightMarker (currentPointIndex (nav s))] (Some tt).
Proof.
  intros Hp s1. unfold exitViewerMode.
  run_as ltac:(
    do 2 (eapply bind_run; [apply modify_run|cbv beta]);
    eapply bind_run; [by apply (currentPoint_run _ point)|cbv beta];
    eapply bind_run; [apply modify_run|cbv beta];
    eapply bind_run; [apply called_run|cbv beta];
    eapply bind_run; [apply get_run|cbv beta];
    apply highlightMarker_run).
Qed.
Lemma init_Ready v localeCompare results s :
  init v localeCompare results = Ready s →
  ∃ data, loadCSVData localeCompare v results = Resolved data
    ∧ data ≠ [] ∧ s = initMap data.
Proof.
  unfold init. destruct (loadCSVData _ _ _) as [data|error] eqn:Hload; [|done].
  intros [= <-]. exists data. split; [done|]. split; [|done].
  by apply loadCSVData_resolved in Hload as (rows & _ & _ & Hne).
Qed.

Lemma initMap_eq data :
  initMap data
  = showHighlight 0
      {| surveyData := data;
         nav := MkNav 0 true false;
         engine := MkEngine false None None 0;
         page := MkPage (map (fun _ => defaultStyle) data) FitBounds None []
                   false None false false None |}.
Proof. reflexivity. Qed.

Lemma initMap_valid data :
  data ≠ [] →
  validIndex (initMap data)
  ∧ length (markers (page (initMap data))) = length (surveyData (initMap data)).
Proof.
  intros Hne. rewrite initMap_eq. unfold validIndex. simpl.
  rewrite length_restyle, length_map. split; [|done].
  destruct data; [done|]. simpl. lia.
Qed.

Lemma FlatInv_initMap data : data ≠ [] → FlatInv (initMap data).
Proof.
  intros Hne. destruct (initMap_valid data Hne) as [Hvalid Hlen].
  split; try done; try by left.
  split; [done|]. rewrite initMap_eq. simpl. by rewrite restyle_restyle.
Qed.

Lemma js_index_in_range {A} (arr : list A) (i : Z) :
  0 ≤ i < Z.of_nat (length arr) → ∃ x, js_index arr i = Some x.
Proof.
  intros [H0 Hlen]. unfold js_index. destruct (i <? 0) eqn:Hneg; [lia|].
  apply lookup_lt_is_Some. lia.
Qed.

Lemma FlatInv_step e s :
  FlatInv s → Flat.enabled e s → FlatInv (Flat.step e s).
Proof.
  intros Hinv Hen. pose proof Hinv as [Hvalid [Hlen Hhl] Himg Hinfo Hmini Hview].
  destruct (pointAt_valid s Hvalid) as [point Hp].
  destruct e as [index| | | | |]; unfold Flat.step, Flat.handler, Flat.enabled in *.
  - rewrite Hlen in Hen.
    destruct (js_index_in_range _ _ Hen) as [point' Hp'].
    rewrite (markerClick_run s index point' Hp'). simpl.
    by apply (FlatInv_refreshed
                (set_page (with_viewerContainerActive true)
                   (set_nav (with_isViewerMode true)
                      (set_nav (with_isShowingFront true)
                         (set_nav (with_currentPointIndex index) s)))) point').
  - rewrite (exitViewerMode_run s point Hp). simpl.
    split; try done.
    split; simpl; [by rewrite length_restyle|by rewrite restyle_restyle].
  - rewrite (exitViewerMode_run s point Hp). simpl.
    split; try done.
    split; simpl; [by rewrite length_restyle|by rewrite restyle_restyle].
  - destruct (decide (0 < currentPointIndex (nav s))) as [Hpos|Hpos].
    + destruct (js_index_in_range (surveyData s) (currentPointIndex (nav s) - 1))
        as [point' Hp']; [unfold validIndex in Hvalid; lia|].
      rewrite (prevClick_run s point' Hpos Hp'). simpl.
      by apply (FlatInv_refreshed
                  (set_nav (with_currentPointIndex (currentPointIndex (nav s) - 1)) s)
                  point').
    + rewrite prevClick_first by lia. done.
  - destruct (decide (currentPointIndex (nav s)
                      < Z.of_nat (length (surveyData s)) - 1)) as [Hlt|Hge].
    + destruct (js_index_in_range (surveyData s) (currentPointIndex (nav s) + 1))
        as [point' Hp']; [unfold validIndex in Hvalid; lia|].
      rewrite (nextClick_run s point' Hlt Hp'). simpl.
      by apply (FlatInv_refreshed
                  (set_nav (with_currentPointIndex (currentPointIndex (nav s) + 1)) s)
                  point').
    + rewrite nextClick_last by lia. done.
  - rewrite (switchViewClick_run s point Hp). simpl.
    assert (Hi : imagerySynced
                   (showInfo point (showImage point
                      (set_nav (with_isShowingFront (negb (isShowingFront (nav s)))) s))))
      by (by exists point).
    assert (Hn : infoSynced
                   (showInfo point (showImage point
                      (set_nav (with_isShowingFront (negb (isShowingFront (nav s)))) s))))
      by (by exists point).
    split; auto; [by split|].
    intros Hmode. split_and!; [done..|]. by apply Hview.
Qed.

Lemma FlatInv_reachable localeCompare results s :
  Flat.reachable localeCompare results s → FlatInv s.
Proof.
  induction 1 as [s Hinit|s e _ IH Hen].
  - apply init_Ready in Hinit as (data & _ & Hne & ->). by apply FlatInv_initMap.
  - by apply FlatInv_step.
Qed.
(** ** The graph-based front end *)

Lemma final_bind {A B} (m : Run A) (f : A → Run B) s :
  final ((m ≫= f) s)
  = match result (m s) with
    | Some a => final (f a (final (m s)))
    | None => final (m s)
    end.
Proof. unfold mbind, Run_bind. by destruct (result (m s)). Qed.

Lemma keeps_bind P {A B} (m : Run A) (f : A → Run B) :
  keeps P m → (∀ a, keeps P (f a)) → keeps P (m ≫= f).
Proof.
  intros Hm Hf s Hs. rewrite final_bind.
  destruct (result (m s)); [apply Hf|]; by apply Hm.
Qed.

Lemma keeps_ret P {A} (a : A) : keeps P (mret a : Run A).
Proof. by intros s Hs. Qed.

Lemma keeps_called P c : keeps P (called c).
Proof. by intros s Hs. Qed.

Lemma keeps_defined P {A} (v : option A) : keeps P (defined v).
Proof. intros s Hs. by destruct v. Qed.

Lemma keeps_modify (P : State → Prop) g :
  (∀ s, P s → P (g s)) → keeps P (modify g).
Proof. intros Hg s Hs. by apply Hg. Qed.

Lemma keeps_get_bind P {B} (f : State → Run B) :
  (∀ s, P s → P (final (f s s))) → keeps P (get ≫= f).
Proof. intros Hf s Hs. rewrite final_bind. simpl. by apply Hf. Qed.

Lemma final_modify_bind {B} g (k : unit → Run B) s :
  final ((modify g ≫= k) s) = final (k tt (g s)).
Proof. by rewrite final_bind. Qed.

(** Steps that leave the index, the dataset and the number of markers
    alone keep [IndexInv]. *)
Lemma IndexInv_frame s s' :
  surveyData s' = surveyData s →
  currentPointIndex (nav s') = currentPointIndex (nav s) →
  length (markers (page s')) = length (markers (page s)) →
  IndexInv s → IndexInv s'.
Proof.
  unfold IndexInv, validIndex. intros -> -> ->. done.
Qed.

Ltac keeps_frame :=
  apply keeps_modify; intros ? ?;
  eapply IndexInv_frame; [..|eassumption];
  [reflexivity|reflexivity|simpl; rewrite ?length_imap; reflexivity].

Lemma keeps_get_then {B} (f : State → Run B) :
  (∀ s0, keeps IndexInv (f s0)) → keeps IndexInv (get ≫= f).
Proof. intros Hf. apply keeps_bind; [by intros s Hs|done]. Qed.

Lemma keeps_currentPoint : keeps IndexInv currentPoint.
Proof. unfold currentPoint. apply keeps_get_then. intros s0. apply keeps_defined. Qed.

Lemma keeps_updateViewerInfo : keeps IndexInv updateViewerInfo.
Proof.
  unfold updateViewerInfo. apply keeps_get_then. intros s0.
  apply keeps_bind; [apply keeps_currentPoint|intros point].
  apply keeps_bind; [keeps_frame|intros _]. apply keeps_called.
Qed.

Lemma keeps_updateMinimap : keeps IndexInv updateMinimap.
Proof.
  unfold updateMinimap.
  apply keeps_bind; [apply keeps_currentPoint|intros point].
  apply keeps_bind; [keeps_frame|intros _]. apply keeps_called.
Qed.

Lemma keeps_highlightMarker index : keeps IndexInv (highlightMarker index).
Proof.
  unfold highlightMarker.
  apply keeps_bind; [keeps_frame|intros _]. apply keeps_called.
Qed.

Lemma keeps_exitViewerMode : keeps IndexInv exitViewerMode.
Proof.
  unfold exitViewerMode.
  apply keeps_bind; [keeps_frame|intros _].
  apply keeps_bind; [keeps_frame|intros _].
  apply keeps_bind; [apply keeps_currentPoint|intros point].
  apply keeps_bind; [keeps_frame|intros _].
  apply keeps_bind; [apply keeps_called|intros _].
  apply keeps_get_then. intros s0. apply keeps_highlightMarker.
Qed.

Lemma keeps_viewer_moveTo imageId : keeps IndexInv (Graph.viewer_moveTo imageId).
Proof.
  unfold Graph.viewer_moveTo. apply keeps_get_then. intros s0.
  apply keeps_bind; [apply keeps_defined|intros _].
  apply keeps_bind; [keeps_frame|intros _]. apply keeps_called.
Qed.

Lemma keeps_viewer_setZoom : keeps IndexInv Graph.viewer_setZoom.
Proof.
  unfold Graph.viewer_setZoom. apply keeps_get_then. intros s0.
  apply keeps_bind; [apply keeps_defined|intros _]. apply keeps_called.
Qed.

Lemma keeps_viewer_setCenter : keeps IndexInv Graph.viewer_setCenter.
Proof.
  unfold Graph.viewer_setCenter. apply keeps_get_then. intros s0.
  apply keeps_bind; [apply keeps_defined|intros _]. apply keeps_called.
Qed.

Lemma keeps_moveToCurrent : keeps IndexInv Graph.moveToCurrent.
Proof.
  unfold Graph.moveToCurrent. apply keeps_get_then. intros s0.
  apply keeps_bind; [apply keeps_currentPoint|intros point].
  apply keeps_viewer_moveTo.
Qed.

Lemma keeps_graph_refreshAll : keeps IndexInv Graph.refreshAll.
Proof.
  unfold Graph.refreshAll.
  apply keeps_bind; [apply keeps_moveToCurrent|intros _].
  apply keeps_bind; [apply keeps_updateViewerInfo|intros _].
  apply keeps_bind; [apply keeps_updateMinimap|intros _].
  apply keeps_get_then. intros s0. apply keeps_highlightMarker.
Qed.

Lemma findIndex_from_range {A} (pred : A → bool) arr : ∀ k,
  findIndex_from pred arr k = -1
  ∨ k ≤ findIndex_from pred arr k < k + Z.of_nat (length arr).
Proof.
  induction arr as [|x arr IH]; intros k; simpl; [by left|].
  destruct (pred x); [right; lia|].
  destruct (IH (k + 1)) as [->|?]; [by left|right; lia].
Qed.

Lemma findIndex_range {A} (pred : A → bool) arr :
  findIndex pred arr = -1
  ∨ 0 ≤ findIndex pred arr < Z.of_nat (length arr).
Proof. unfold findIndex. destruct (findIndex_from_range pred arr 0); auto with lia. Qed.

Lemma IndexInv_set_index s index :
  IndexInv s → 0 ≤ index < Z.of_nat (length (surveyData s)) →
  IndexInv (set_nav (with_currentPointIndex index) s).
Proof. intros [_ Hlen] Hi. split; [exact Hi|exact Hlen]. Qed.

Section GraphFacts.
Variable env : Env.

Lemma keeps_initViewer : keeps IndexInv (Graph.initViewer env).
Proof.
  unfold Graph.initViewer. apply keeps_get_then. intros s0.
  destruct (viewerInitialized (engine s0)); [apply keeps_ret|].
  apply keeps_bind; [keeps_frame|intros _].
  apply keeps_bind; [apply keeps_currentPoint|intros point].
  apply keeps_bind; [keeps_frame|intros _]. keeps_frame.
Qed.

Lemma keeps_timeoutCallback : keeps IndexInv (Graph.timeoutCallback env).
Proof.
  unfold Graph.timeoutCallback.
  apply keeps_bind; [apply keeps_initViewer|intros _].
  apply keeps_bind; [apply keeps_updateViewerInfo|intros _].
  apply keeps_bind; [apply keeps_updateMinimap|intros _].
  apply keeps_get_then. intros s0. apply keeps_highlightMarker.
Qed.

Lemma keeps_graph_enterViewerMode : keeps IndexInv Graph.enterViewerMode.
Proof.
  unfold Graph.enterViewerMode.
  apply keeps_bind; [keeps_frame|intros _].
  apply keeps_bind; [keeps_frame|intros _].
  apply keeps_get_then. intros s0.
  destruct (negb _); [|apply keeps_graph_refreshAll].
  apply keeps_bind; [keeps_frame|intros _]. apply keeps_called.
Qed.

Lemma keeps_imageListener image : keeps IndexInv (Graph.imageListener image).
Proof.
  unfold Graph.imageListener.
  destruct image as [image|]; [|apply keeps_ret].
  destruct (truthy _); [|apply keeps_ret].
  apply keeps_get_bind. intros s Hs.
  set (index := findIndex _ _).
  destruct (findIndex_range (fun p => strict_eq (id p) (Graph.image_point_id image))
              (surveyData s)) as [Hnone|Hrange]; fold index in Hnone || fold index in Hrange.
  - rewrite Hnone. done.
  - destruct (index =? -1) eqn:Heq; [done|]. cbn [negb].
    rewrite final_modify_bind.
    assert (Hs' : IndexInv (set_nav (with_currentPointIndex index) s))
      by (by apply IndexInv_set_index).
    revert Hs'. generalize (set_nav (with_currentPointIndex index) s).
    apply keeps_bind; [keeps_frame|intros _].
    destruct (isViewerMode (nav s)); [|apply keeps_ret].
    apply keeps_bind; [apply keeps_viewer_setZoom|intros _].
    apply keeps_bind; [apply keeps_viewer_setCenter|intros _].
    apply keeps_bind; [apply keeps_updateViewerInfo|intros _].
    apply keeps_bind; [apply keeps_updateMinimap|intros _].
    apply keeps_highlightMarker.
Qed.

Lemma IndexInv_graph_step e s :
  IndexInv s → Graph.enabled e s → IndexInv (Graph.step env e s).
Proof.
  intros Hs Hen.
  destruct e as [index| | | | | | | |image];
    unfold Graph.step, Graph.handler, Graph.enabled in *.
  - unfold Graph.markerClick. rewrite final_modify_bind.
    assert (Hs' : IndexInv (set_nav (with_currentPointIndex index) s)).
    { apply IndexInv_set_index; [done|]. destruct Hs as [_ <-]. done. }
    revert Hs'. generalize (set_nav (with_currentPointIndex index) s).
    apply keeps_bind; [keeps_frame|intros _].
    apply keeps_graph_enterViewerMode.
  - by apply keeps_exitViewerMode.
  - by apply keeps_exitViewerMode.
  - unfold Graph.prevClick. rewrite final_bind. simpl.
    destruct (0 <? _) eqn:Hpos; [|done].
    rewrite final_modify_bind. apply keeps_graph_refreshAll.
    apply IndexInv_set_index; [done|].
    destruct Hs as [Hv _]. unfold validIndex in Hv. lia.
  - unfold Graph.nextClick. rewrite final_bind. simpl.
    destruct (_ <? _) eqn:Hlt; [|done].
    rewrite final_modify_bind. apply keeps_graph_refreshAll.
    apply IndexInv_set_index; [done|].
    destruct Hs as [Hv _]. unfold validIndex in Hv. lia.
  - revert s Hs Hen. unfold Graph.switchViewClick.
    intros s Hs _. revert s Hs. apply keeps_get_then. intros s0.
    apply keeps_bind; [keeps_frame|intros _].
    apply keeps_bind; [apply keeps_moveToCurrent|intros _].
    apply keeps_updateViewerInfo.
  - revert s Hs Hen. intros s Hs _. revert s Hs.
    apply keeps_bind; [keeps_frame|intros _]. apply keeps_timeoutCallback.
  - revert s Hs Hen. intros s Hs _. revert s Hs. unfold Graph.loadListener.
    apply keeps_bind; [apply keeps_viewer_setZoom|intros _].
    apply keeps_viewer_setCenter.
  - by apply keeps_imageListener.
Qed.

Lemma IndexInv_graph_reachable localeCompare results s :
  Graph.reachable env localeCompare results s → IndexInv s.
Proof.
  induction 1 as [s Hinit|s e _ IH Hen].
  - apply init_Ready in Hinit as (data & _ & Hne & ->). by apply initMap_valid.
  - by apply IndexInv_graph_step.
Qed.
End GraphFacts.
Lemma viewer_moveTo_run s v imageId :
  viewer (engine s) = Some v →
  Graph.viewer_moveTo imageId s
  = MkOutcome (set_engine (with_viewer (Some (MkViewer imageId))) s)
      [MoveTo imageId] (Some tt).
Proof.
  intros Hv. unfold Graph.viewer_moveTo.
  run_as ltac:(
    eapply bind_run; [apply get_run|cbv beta];
    eapply bind_run; [rewrite Hv; apply ret_run|cbv beta];
    eapply bind_run; [apply modify_run|cbv beta];
    apply called_run).
Qed.

Lemma viewer_moveTo_throw s imageId :
  viewer (engine s) = None →
  Graph.viewer_moveTo imageId s = MkOutcome s [] None.
Proof.
  intros Hv. unfold Graph.viewer_moveTo.
  run_as ltac:(
    eapply bind_run; [apply get_run|cbv beta];
    eapply bind_throw; rewrite Hv; reflexivity).
Qed.

Lemma viewer_setZoom_run s v :
  viewer (engine s) = Some v →
  Graph.viewer_setZoom s = MkOutcome s [ViewerSetZoom] (Some tt).
Proof.
  intros Hv. unfold Graph.viewer_setZoom.
  run_as ltac:(
    eapply bind_run; [apply get_run|cbv beta];
    eapply bind_run; [rewrite Hv; apply ret_run|cbv beta];
    apply called_run).
Qed.

Lemma viewer_setCenter_run s v :
  viewer (engine s) = Some v →
  Graph.viewer_setCenter s = MkOutcome s [ViewerSetCenter] (Some tt).
Proof.
  intros Hv. unfold Graph.viewer_setCenter.
  run_as ltac:(
    eapply bind_run; [apply get_run|cbv beta];
    eapply bind_run; [rewrite Hv; apply ret_run|cbv beta];
    apply called_run).
Qed.

Lemma moveToCurrent_run s point v :
  pointAt s = Some point → viewer (engine s) = Some v →
  Graph.moveToCurrent s
  = MkOutcome (showInViewer point s)
      [MoveTo (imageIdOf point (isShowingFront (nav s)))] (Some tt).
Proof.
  intros Hp Hv. unfold Graph.moveToCurrent.
  run_as ltac:(
    eapply bind_run; [apply get_run|cbv beta];
    eapply bind_run; [by apply (currentPoint_run _ point)|cbv beta];
    by apply (viewer_moveTo_run _ v)).
Qed.

Lemma moveToCurrent_throw s point :
  pointAt s = Some point → viewer (engine s) = None →
  Graph.moveToCurrent s = MkOutcome s [] None.
Proof.
  intros Hp Hv. unfold Graph.moveToCurrent.
  run_as ltac:(
    eapply bind_run; [apply get_run|cbv beta];
    eapply bind_run; [by apply (currentPoint_run _ point)|cbv beta];
    by apply viewer_moveTo_throw).
Qed.

Lemma graph_refreshAll_run s point v :
  pointAt s = Some point → viewer (engine s) = Some v →
  Graph.refreshAll s
  = MkOutcome
      (showHighlight (currentPointIndex (nav s))
         (showMinimap point (showInfo point (showInViewer point s))))
      [MoveTo (imageIdOf point (isShowingFront (nav s))); UpdateViewerInfo;
       UpdateMinimap; HighlightMarker (currentPointIndex (nav s))]
      (Some tt).
Proof.
  intros Hp Hv. unfold Graph.refreshAll.
  run_as ltac:(
    eapply bind_run; [by apply (moveToCurrent_run _ point v)|cbv beta];
    eapply bind_run; [by apply (updateViewerInfo_run _ point)|cbv beta];
    eapply bind_run; [by apply (updateMinimap_run _ point)|cbv beta];
    eapply bind_run; [apply get_run|cbv beta];
    apply highlightMarker_run).
Qed.

Lemma graph_switchViewClick_run s point v :
  pointAt s = Some point → viewer (engine s) = Some v →
  let s1 := set_nav (with_isShowingFront (negb (isShowingFront (nav s)))) s in
  Graph.switchViewClick s
  = MkOutcome (showInfo point (showInViewer point s1))
      [MoveTo (imageIdOf point (negb (isShowingFront (nav s)))); UpdateViewerInfo]
      (Some tt).
Proof.
  intros Hp Hv s1. unfold Graph.switchViewClick.
  run_as ltac:(
    eapply bind_run; [apply get_run|cbv beta];
    eapply bind_run; [apply modify_run|cbv beta];
    eapply bind_run; [by apply (moveToCurrent_run _ point v)|cbv beta];
    by apply (updateViewerInfo_run _ point)).
Qed.

Lemma graph_switchViewClick_throw s point :
  pointAt s = Some point → viewer (engine s) = None →
  Graph.switchViewClick s
  = MkOutcome (set_nav (with_isShowingFront (negb (isShowingFront (nav s)))) s)
      [] None.
Proof.
  intros Hp Hv. unfold Graph.switchViewClick.
  run_as ltac:(
    eapply bind_run; [apply get_run|cbv beta];
    eapply bind_run; [apply modify_run|cbv beta];
    eapply bind_throw; by apply (moveToCurrent_throw _ point)).
Qed.

Lemma graph_prevClick_run s point v :
  0 < currentPointIndex (nav s) →
  js_index (surveyData s) (currentPointIndex (nav s) - 1) = Some point →
  viewer (engine s) = Some v →
  let s1 := set_nav (with_currentPointIndex (currentPointIndex (nav s) - 1)) s in
  Graph.prevClick s
  = MkOutcome
      (showHighlight (currentPointIndex (nav s) - 1)
         (showMinimap point (showInfo point (showInViewer point s1))))
      [MoveTo (imageIdOf point (isShowingFront (nav s))); UpdateViewerInfo;
       UpdateMinimap; HighlightMarker (currentPointIndex (nav s) - 1)]
      (Some tt).
Proof.
  intros Hpos Hp Hv s1. unfold Graph.prevClick.
  run_as ltac:(
    eapply bind_run; [apply get_run|cbv beta];
    rewrite (proj2 (Z.ltb_lt _ _) Hpos);
    eapply bind_run; [apply modify_run|cbv beta];
    apply (graph_refreshAll_run _ point v); [exact Hp|exact Hv]).
Qed.

Lemma graph_prevClick_first s :
  currentPointIndex (nav s) ≤ 0 → Graph.prevClick s = MkOutcome s [] (Some tt).
Proof.
  intros Hpos. unfold Graph.prevClick.
  run_as ltac:(
    eapply bind_run; [apply get_run|cbv beta];
    rewrite (proj2 (Z.ltb_ge _ _) Hpos); apply ret_run).
Qed.

Lemma graph_nextClick_run s point v :
  currentPointIndex (nav s) < Z.of_nat (length (surveyData s)) - 1 →
  js_index (surveyData s) (currentPointIndex (nav s) + 1) = Some point →
  viewer (engine s) = Some v →
  let s1 := set_nav (with_currentPointIndex (currentPointIndex (nav s) + 1)) s in
  Graph.nextClick s
  = MkOutcome
      (showHighlight (currentPointIndex (nav s) + 1)
         (showMinimap point (showInfo point (showInViewer point s1))))
      [MoveTo (imageIdOf point (isShowingFront (nav s))); UpdateViewerInfo;
       UpdateMinimap; HighlightMarker (currentPointIndex (nav s) + 1)]
      (Some tt).
Proof.
  intros Hlt Hp Hv s1. unfold Graph.nextClick.
  run_as ltac:(
    eapply bind_run; [apply get_run|cbv beta];
    rewrite (proj2 (Z.ltb_lt _ _) Hlt);
    eapply bind_run; [apply modify_run|cbv beta];
    apply (graph_refreshAll_run _ point v); [exact Hp|exact Hv]).
Qed.

Lemma graph_nextClick_last s :
  Z.of_nat (length (surveyData s)) - 1 ≤ currentPointIndex (nav s) →
  Graph.nextClick s = MkOutcome s [] (Some tt).
Proof.
  intros Hge. unfold Graph.nextClick.
  run_as ltac:(
    eapply bind_run; [apply get_run|cbv beta];
    rewrite (proj2 (Z.ltb_ge _ _) Hge); apply ret_run).
Qed.

Lemma graph_markerClick_run s index point v :
  js_index (surveyData s) index = Some point →
  viewerInitialized (engine s) = true → viewer (engine s) = Some v →
  let s1 := set_page (with_viewerContainerActive true)
              (set_nav (with_isViewerMode true)
                 (set_nav (with_isShowingFront true)
                    (set_nav (with_currentPointIndex index) s))) in
  Graph.markerClick index s
  = MkOutcome
      (showHighlight index
         (showMinimap point (showInfo point (showInViewer point s1))))
      [MoveTo (imageIdOf point true); UpdateViewerInfo; UpdateMinimap;
       HighlightMarker index]
      (Some tt).
Proof.
  intros Hp Hinit Hv s1. unfold Graph.markerClick, Graph.enterViewerMode.
  run_as ltac:(
    do 4 (eapply bind_run; [apply modify_run|cbv beta]);
    eapply bind_run; [apply get_run|cbv beta];
    cbn [engine set_page set_nav viewerInitialized]; rewrite Hinit; cbn [negb];
    apply (graph_refreshAll_run _ point v); [exact Hp|exact Hv]).
Qed.

Lemma imageListener_run s image index point v :
  truthy (Graph.image_point_id image) = true →
  findIndex (fun p => strict_eq (id p) (Graph.image_point_id image)) (surveyData s)
  = index →
  js_index (surveyData s) index = Some point →
  isViewerMode (nav s) = true → viewer (engine s) = Some v →
  let s1 := set_nav (with_isShowingFront (includes (Graph.image_id image) "_front"))
              (set_nav (with_currentPointIndex index) s) in
  Graph.imageListener (Some image) s
  = MkOutcome (showHighlight index (showMinimap point (showInfo point s1)))
      [ViewerSetZoom; ViewerSetCenter; UpdateViewerInfo; UpdateMinimap;
       HighlightMarker index]
      (Some tt).
Proof.
  intros Ht Hi Hp Hmode Hv s1. unfold Graph.imageListener. rewrite Ht.
  assert (Hne : negb (index =? -1) = true).
  { apply negb_true_iff, Z.eqb_neq. intros ->. done. }
  run_as ltac:(
    eapply bind_run; [apply get_run|cbv beta];
    rewrite Hi, Hne, Hmode;
    do 2 (eapply bind_run; [apply modify_run|cbv beta]);
    eapply bind_run; [by apply (viewer_setZoom_run _ v)|cbv beta];
    eapply bind_run; [by apply (viewer_setCenter_run _ v)|cbv beta];
    eapply bind_run; [by apply (updateViewerInfo_run _ point)|cbv beta];
    eapply bind_run; [by apply (updateMinimap_run _ point)|cbv beta];
    apply highlightMarker_run).
Qed.
(** ** Navigation *)

Lemma flat_switch_twice s :
  imagerySynced s → infoSynced s →
  Flat.step Flat.SwitchViewClick (Flat.step Flat.SwitchViewClick s) = s.
Proof.
  intros (p & Hp & Hsrc) (q & Hq & Hinfo & Hprev & Hnext).
  assert (q = p) as -> by congruence.
  unfold Flat.step, Flat.handler.
  rewrite (switchViewClick_run s p Hp). cbn [final].
  rewrite (switchViewClick_run _ p) by exact Hp. cbn [final].
  destruct s as [data [index side mode] eng
                   [mk mv mmv mmc act ti pd nd src]].
  unfold showInfo, showImage, infoOf, set_page, set_nav, with_titleInfo,
    with_surveyImageSrc, with_isShowingFront in *.
  cbn in *. rewrite negb_involutive. subst. reflexivity.
Qed.

Lemma imageListener_ignored s image :
  truthy (Graph.image_point_id image) = false
  ∨ findIndex (fun p => strict_eq (id p) (Graph.image_point_id image))
              (surveyData s) = -1 →
  Graph.imageListener (Some image) s = MkOutcome s [] (Some tt).
Proof.
  intros Hcase. unfold Graph.imageListener.
  destruct (truthy _) eqn:Ht; [|reflexivity].
  destruct Hcase as [?|Hnone]; [done|].
  run_as ltac:(
    eapply bind_run; [apply get_run|cbv beta];
    rewrite Hnone; apply ret_run).
Qed.

(** In either front end two clicks on the switch-view button restore the
    navigation state, also when the handlers throw. *)
Lemma graph_switch_twice_nav s :
  validIndex s →
  nav (final (Graph.switchViewClick (final (Graph.switchViewClick s)))) = nav s.
Proof.
  intros Hvalid. destruct (pointAt_valid s Hvalid) as [point Hp].
  destruct (viewer (engine s)) as [v|] eqn:Hv.
  - rewrite (graph_switchViewClick_run s point v Hp Hv). cbn [final].
    rewrite (graph_switchViewClick_run _ point (MkViewer (imageIdOf point (negb (isShowingFront (nav s))))))
      by done.
    cbn. rewrite negb_involutive. by destruct (nav s).
  - rewrite (graph_switchViewClick_throw s point Hp Hv). cbn [final].
    rewrite (graph_switchViewClick_throw _ point) by done.
    cbn. rewrite negb_involutive. by destruct (nav s).
Qed.

Lemma graph_switch_twice_viewer s point v :
  pointAt s = Some point → viewer (engine s) = Some v →
  viewer (engine (final (Graph.switchViewClick (final (Graph.switchViewClick s)))))
  = Some (MkViewer (imageIdOf point (isShowingFront (nav s)))).
Proof.
  intros Hp Hv.
  rewrite (graph_switchViewClick_run s point v Hp Hv). cbn [final].
  rewrite (graph_switchViewClick_run _ point (MkViewer (imageIdOf point (negb (isShowingFront (nav s))))))
    by done.
  cbn. by rewrite negb_involutive.
Qed.
(** ** The claims on navigation *)

(** C5: in every reachable state of either front end the index satisfies
    0 ≤ currentPointIndex < dataset length; the prev handler at index 0 and
    the next handler at the last index return at once, leaving the whole
    state as it was, performing no refresh and raising nothing. *)
Theorem C5_index_in_range_and_boundary_noops (env : Env)
    (localeCompare : string → string → Z)
    (results : PapaOutcome SurveyPoint) (s : State) :
  Flat.reachable localeCompare results s
  ∨ Graph.reachable env localeCompare results s →
  0 ≤ currentPointIndex (nav s) < Z.of_nat (length (surveyData s))
  ∧ (currentPointIndex (nav s) = 0 →
     Flat.handler Flat.PrevClick s = MkOutcome s [] (Some tt)
     ∧ Graph.handler env Graph.PrevClick s = MkOutcome s [] (Some tt))
  ∧ (currentPointIndex (nav s) = Z.of_nat (length (surveyData s)) - 1 →
     Flat.handler Flat.NextClick s = MkOutcome s [] (Some tt)
     ∧ Graph.handler env Graph.NextClick s = MkOutcome s [] (Some tt)).
Proof.
  intros Hreach. split; [|split].
  - destruct Hreach as [Hf|Hg].
    + by apply FlatInv_reachable in Hf as [Hvalid _ _ _ _ _].
    + by apply IndexInv_graph_reachable in Hg as [Hvalid _].
  - intros H0. split; simpl.
    + apply prevClick_first. lia.
    + apply graph_prevClick_first. lia.
  - intros Hlast. split; simpl.
    + apply nextClick_last. lia.
    + apply graph_nextClick_last. lia.
Qed.
Lemma C5_boundary_noops_on_sample :
  (0 ≤ currentPointIndex (nav (initMap sampleData)) < 3
   ∧ Flat.handler Flat.PrevClick (initMap sampleData)
     = MkOutcome (initMap sampleData) [] (Some tt))
  ∧ Graph.handler sampleEnv Graph.NextClick
      (Graph.step sampleEnv (Graph.MarkerClick 2) (initMap sampleData))
    = MkOutcome (Graph.step sampleEnv (Graph.MarkerClick 2) (initMap sampleData))
        [] (Some tt).
Proof.
  split.
  - destruct (C5_index_in_range_and_boundary_noops sampleEnv codeUnitCompare
                (PapaComplete sampleData) (initMap sampleData))
      as (Hrange & Hprev & _).
    { left. apply Flat.reach_init. reflexivity. }
    split; [exact Hrange|]. exact (proj1 (Hprev eq_refl)).
  - destruct (C5_index_in_range_and_boundary_noops sampleEnv codeUnitCompare
                (PapaComplete sampleData)
                (Graph.step sampleEnv (Graph.MarkerClick 2) (initMap sampleData)))
      as (_ & _ & Hnext).
    { right. apply Graph.reach_step.
      - apply Graph.reach_init. reflexivity.
      - simpl. lia. }
    exact (proj2 (Hnext eq_refl)).
Defined.


(** *** The sample states are reachable *)

Lemma sampleFlatViewer_reachable :
  Flat.reachable codeUnitCompare (PapaComplete sampleData) sampleFlatViewer.
Proof.
  apply Flat.reach_step; [apply Flat.reach_init; reflexivity|simpl; lia].
Qed.

Lemma sampleGraphViewer_reachable :
  Graph.reachable sampleEnv codeUnitCompare (PapaComplete sampleData)
    sampleGraphViewer.
Proof.
  apply Graph.reach_step; [apply Graph.reach_step|];
    [apply Graph.reach_init; reflexivity|simpl; lia|simpl; lia].
Qed.

Lemma sampleGraphEarlySwitch_reachable :
  Graph.reachable sampleEnv codeUnitCompare (PapaComplete sampleData)
    sampleGraphEarlySwitch.
Proof.
  apply Graph.reach_step; [apply Graph.reach_step; [apply Graph.reach_step|]|];
    [apply Graph.reach_init; reflexivity|simpl; lia|exact I|simpl; lia].
Qed.


(** *** Switching the view twice *)

(** In the flat-image front end, from every reachable state with the viewer
    open: one switch-view click toggles isShowingFront, keeps
    currentPointIndex and shows the image of the other side; a second click
    restores the entire state, hence the (index, side) pair and the image
    shown. *)
Theorem flat_switchView_involution (localeCompare : string → string → Z)
    (results : PapaOutcome SurveyPoint) (s : State) :
  Flat.reachable localeCompare results s →
  isViewerMode (nav s) = true →
  ∃ point, pointAt s = Some point
    ∧ surveyImageSrc (page s)
      = Some (Flat.imageSrcOf point (isShowingFront (nav s)))
    ∧ currentPointIndex (nav (Flat.step Flat.SwitchViewClick s))
      = currentPointIndex (nav s)
    ∧ isShowingFront (nav (Flat.step Flat.SwitchViewClick s))
      = negb (isShowingFront (nav s))
    ∧ surveyImageSrc (page (Flat.step Flat.SwitchViewClick s))
      = Some (Flat.imageSrcOf point (negb (isShowingFront (nav s))))
    ∧ Flat.step Flat.SwitchViewClick (Flat.step Flat.SwitchViewClick s) = s.
Proof.
  intros Hreach Hmode. apply FlatInv_reachable in Hreach as Hinv.
  destruct (flat_viewer s Hinv Hmode) as (Himg & Hinfo & _).
  pose proof Himg as (point & Hp & Hsrc).
  exists point. split; [done|]. split; [done|].
  unfold Flat.step at 1 2 3, Flat.handler.
  rewrite (switchViewClick_run s point Hp). cbn [final].
  split; [done|]. split; [done|]. split; [done|].
  by apply flat_switch_twice.
Qed.

Lemma flat_switchView_involution_on_sample :
  surveyImageSrc (page sampleFlatViewer) = Some "./images/front_2.jpg"
  ∧ surveyImageSrc (page (Flat.step Flat.SwitchViewClick sampleFlatViewer))
    = Some "./images/rear_2.jpg"
  ∧ Flat.step Flat.SwitchViewClick (Flat.step Flat.SwitchViewClick sampleFlatViewer)
    = sampleFlatViewer.
Proof.
  destruct (flat_switchView_involution codeUnitCompare (PapaComplete sampleData)
              sampleFlatViewer sampleFlatViewer_reachable eq_refl)
    as (point & Hp & Hsrc & _ & _ & Hsrc' & Htwice).
  assert (point = samplePoint 2 180) as ->
    by (apply (inj Some); rewrite <- Hp; reflexivity).
  split; [exact Hsrc|]. split; [exact Hsrc'|exact Htwice].
Defined.

(** In the graph-based front end, from every reachable state: one
    switch-view click toggles isShowingFront and keeps currentPointIndex and
    the mode; a second click restores the navigation state; and when the
    viewer exists, the image it is then asked to show is the image of the
    restored (index, side) pair. *)
Theorem graph_switchView_involution (env : Env)
    (localeCompare : string → string → Z)
    (results : PapaOutcome SurveyPoint) (s : State) :
  Graph.reachable env localeCompare results s →
  nav (Graph.step env Graph.SwitchViewClick s)
  = with_isShowingFront (negb (isShowingFront (nav s))) (nav s)
  ∧ nav (Graph.step env Graph.SwitchViewClick
           (Graph.step env Graph.SwitchViewClick s)) = nav s
  ∧ ∀ v, viewer (engine s) = Some v →
      ∃ point, pointAt s = Some point
        ∧ viewer (engine (Graph.step env Graph.SwitchViewClick
                            (Graph.step env Graph.SwitchViewClick s)))
          = Some (MkViewer (imageIdOf point (isShowingFront (nav s)))).
Proof.
  intros Hreach. apply IndexInv_graph_reachable in Hreach as [Hvalid _].
  destruct (pointAt_valid s Hvalid) as [point Hp].
  unfold Graph.step, Graph.handler. split_and!.
  - destruct (viewer (engine s)) as [v|] eqn:Hv.
    + by rewrite (graph_switchViewClick_run s point v Hp Hv).
    + by rewrite (graph_switchViewClick_throw s point Hp Hv).
  - by apply graph_switch_twice_nav.
  - intros v Hv. exists point. split; [done|].
    by apply (graph_switch_twice_viewer s point v).
Qed.

Lemma graph_switchView_involution_on_sample :
  nav (Graph.step sampleEnv Graph.SwitchViewClick
         (Graph.step sampleEnv Graph.SwitchViewClick sampleGraphViewer))
  = MkNav 1 true true
  ∧ ∃ point,
      viewer (engine (Graph.step sampleEnv Graph.SwitchViewClick
                        (Graph.step sampleEnv Graph.SwitchViewClick
                           sampleGraphViewer)))
      = Some (MkViewer (imageIdOf point true)).
Proof.
  destruct (graph_switchView_involution sampleEnv codeUnitCompare
              (PapaComplete sampleData) sampleGraphViewer
              sampleGraphViewer_reachable) as (_ & Hnav & Hviewer).
  split; [exact Hnav|].
  destruct (Hviewer (MkViewer "point2_front") eq_refl) as (point & _ & Hv).
  exists point. exact Hv.
Defined.

(** C7 at its failing input, in the graph-based front end: a switch-view
    click that arrives after the marker click and before the deferred start
    of the viewer toggles isShowingFront and then throws, the viewer being
    still undefined; the viewer then starts on the front image. In the state
    reached, with the viewer open, the viewer shows point1_front; two further
    switch-view clicks restore the (index, side) pair and leave the viewer on
    point1_rear. *)
Lemma C7_early_switch_then_two_switches :
  Graph.reachable sampleEnv codeUnitCompare (PapaComplete sampleData)
    sampleGraphEarlySwitch
  ∧ nav sampleGraphEarlySwitch = MkNav 0 false true
  ∧ viewer (engine sampleGraphEarlySwitch) = Some (MkViewer "point1_front")
  ∧ nav (Graph.step sampleEnv Graph.SwitchViewClick
           (Graph.step sampleEnv Graph.SwitchViewClick sampleGraphEarlySwitch))
    = nav sampleGraphEarlySwitch
  ∧ viewer (engine (Graph.step sampleEnv Graph.SwitchViewClick
                      (Graph.step sampleEnv Graph.SwitchViewClick
                         sampleGraphEarlySwitch)))
    = Some (MkViewer "point1_rear").
Proof.
  split; [exact sampleGraphEarlySwitch_reachable|].
  split_and!; by vm_compute.
Qed.

(** *** The claims on the sample data *)

Lemma C10_rows_with_zero_are_dropped :
  loadCSVData codeUnitCompare GraphBased (PapaComplete sampleRows)
  = Resolved [sampleRow 1 (-18) 90]
  ∧ ((sampleRow 2 (-18) 0) ∉ [sampleRow 1 (-18) 90])
  ∧ ((sampleRow 3 0 270) ∉ [sampleRow 1 (-18) 90]).
Proof.
  assert (Hload : loadCSVData codeUnitCompare GraphBased (PapaComplete sampleRows)
                  = Resolved [sampleRow 1 (-18) 90]) by reflexivity.
  destruct (C10_loader_drops_falsy_rows codeUnitCompare GraphBased
              (PapaComplete sampleRows) [sampleRow 1 (-18) 90] Hload)
    as [_ Hdrop].
  split; [exact Hload|]. split.
  - apply Hdrop. left. reflexivity.
  - apply Hdrop. right. left. reflexivity.
Defined.

Lemma C9_not_found_and_success_on_sample :
  getImageBuffer (fun _ => Resolved (MkResponse false 404 (Resolved [])))
    "./images/front_1.jpg"
  = MkFetched ["./images/front_1.jpg"]
      (Rejected (MkError "Failed to load image: ./images/front_1.jpg"))
  ∧ settled (getImageBuffer
               (fun _ => Resolved (MkResponse true 200 (Resolved [Byte.x2a])))
               "./images/front_1.jpg")
    = Resolved [Byte.x2a].
Proof.
  split.
  - destruct (C9_getImageBuffer_outcomes
                (fun _ => Resolved (MkResponse false 404 (Resolved [])))
                "./images/front_1.jpg") as (Hreq & Hfail & _).
    pose proof (Hfail _ eq_refl eq_refl) as Hsettled.
    destruct (getImageBuffer _ _) as [reqs settled]. simpl in *.
    by rewrite Hreq, Hsettled.
  - destruct (C9_getImageBuffer_outcomes
                (fun _ => Resolved (MkResponse true 200 (Resolved [Byte.x2a])))
                "./images/front_1.jpg") as (_ & _ & _ & _ & Hok).
    exact (Hok _ _ eq_refl eq_refl eq_refl).
Defined.

Lemma C4_sample_buckets_have_no_duplicate :
  NoDup (bucketContents (cells (newCustomDataProvider sampleEnv sampleData)))
  ∧ length (bucketContents (cells (newCustomDataProvider sampleEnv sampleData)))
    = 6%nat.
Proof.
  destruct (C4_cell_buckets_partition_images sampleEnv sampleData)
    as (Hlen & _ & Hperm & Hnodup & _).
  split.
  - apply Hnodup. apply (bool_decide_unpack _). by vm_compute.
  - rewrite Hperm. exact Hlen.
Defined.

(** *** The scenarios of the specification *)

Example scenario_rear_headings :
  map rearHeadingDeg sampleData = [ofZ 270; ofZ 0; ofZ 90].
Proof. reflexivity. Qed.

Example scenario_front_sequence :
  getSequence (newCustomDataProvider sampleEnv sampleData) "seq_front"
  = Resolved (Sequence.Build "seq_front"
                ["point1_front"; "point2_front"; "point3_front"]).
Proof. by vm_compute. Qed.

Example scenario_marker_click :
  nav sampleFlatViewer = MkNav 1 true true
  ∧ titleInfo (page sampleFlatViewer) = Some (MkTitleInfo 2 3 "Front" 180).
Proof. by vm_compute. Qed.

Example scenario_empty_cell :
  getCoreImages (newCustomDataProvider sampleEnv sampleData) "no such cell"
  = Resolved (MkCoreImages "no such cell" []).
Proof. by vm_compute. Qed.

Example scenario_images_of_a_point :
  ∃ frontImage rearImage,
    getImages (newCustomDataProvider sampleEnv sampleData)
      ["point2_front"; "point2_rear"]
    = Resolved [MkImageNode (Some frontImage) "point2_front";
                MkImageNode (Some rearImage) "point2_rear"]
    ∧ ImageEnt.geometry frontImage = (JNum (-18), JNum 47)
    ∧ ImageEnt.geometry rearImage = (JNum (-18), JNum 47).
Proof. eexists _, _. by vm_compute. Qed.

(** * Further properties *)

(** ** The loader: outcomes and order *)

Section LoaderOrder.
Variable localeCompare : string → string → Z.
Context {R : Type} `{AsRow R}.

Lemma loadCSVData_complete v (data : list R) :
  loadCSVData localeCompare v (PapaComplete data)
  = match data, filter (fun row => validRow v (as_row row) = true) data with
    | [], _ => Rejected (MkError "No data in CSV")
    | _, [] => Rejected (MkError "No valid data in CSV")
    | _, validData => Resolved (js_sort localeCompare validData)
    end.
Proof.
  unfold loadCSVData. destruct data as [|row data]; [done|].
  change (0 <? Z.of_nat (length (row :: data))) with true. cbv iota.
  destruct (filter _ (row :: data)) as [|row' rest]; done.
Qed.

Lemma sort_insert_sorted x (sorted : list R) :
  consistentComparator localeCompare →
  StronglySorted (rowLe localeCompare) sorted →
  StronglySorted (rowLe localeCompare) (sort_insert localeCompare x sorted).
Proof.
  intros [Htotal Htrans] Hs.
  induction Hs as [|y rest Hrest IH Hy]; simpl.
  - repeat constructor.
  - destruct (_ <=? 0) eqn:Hle.
    + apply Z.leb_le in Hle. constructor; [by constructor|].
      constructor; [exact Hle|].
      eapply Forall_impl; [exact Hy|]. intros z Hz.
      unfold rowLe, compareRows in *. by eapply Htrans.
    + apply Z.leb_gt in Hle. constructor; [exact IH|].
      rewrite (sort_insert_perm localeCompare x rest). constructor; [|exact Hy].
      unfold rowLe, compareRows in *.
      destruct (Htotal (ToString (row_id (as_row x))) (ToString (row_id (as_row y))));
        [lia|done].
Qed.

Lemma js_sort_sorted (arr : list R) :
  consistentComparator localeCompare →
  StronglySorted (rowLe localeCompare) (js_sort localeCompare arr).
Proof.
  intros Hc. induction arr as [|x arr IH]; simpl; [constructor|].
  by apply sort_insert_sorted.
Qed.

(** An insertion leaves the rows that sort like [z] in their order. *)
Lemma sort_insert_stable z x (sorted : list R) :
  consistentComparator localeCompare →
  filter (rowAlike localeCompare z) (sort_insert localeCompare x sorted)
  = filter (rowAlike localeCompare z) (x :: sorted).
Proof.
  intros [Htotal Htrans].
  induction sorted as [|y rest IH]; simpl; [done|].
  destruct (_ <=? 0) eqn:Hle; [done|]. apply Z.leb_gt in Hle.
  rewrite filter_cons, IH, !filter_cons.
  destruct (decide (rowAlike localeCompare z y)) as [[Hzy Hyz]|Hy]; [|done].
  destruct (decide (rowAlike localeCompare z x)) as [[Hzx Hxz]|Hx]; [|done].
  exfalso. unfold compareRows in *.
  pose proof (Htrans _ _ _ Hxz Hzy). lia.
Qed.

Lemma js_sort_stable z (arr : list R) :
  consistentComparator localeCompare →
  filter (rowAlike localeCompare z) (js_sort localeCompare arr)
  = filter (rowAlike localeCompare z) arr.
Proof.
  intros Hc. induction arr as [|x arr IH]; simpl; [done|].
  rewrite sort_insert_stable by done. by rewrite !filter_cons, IH.
Qed.

(** Sorting rows that are in order already changes nothing. *)
Lemma js_sort_of_sorted (arr : list R) :
  StronglySorted (rowLe localeCompare) arr → js_sort localeCompare arr = arr.
Proof.
  induction 1 as [|x arr Harr IH Hx]; simpl; [done|].
  rewrite IH. destruct arr as [|y arr]; simpl; [done|].
  apply Forall_cons in Hx as [Hxy _]. unfold rowLe in Hxy.
  by rewrite (proj2 (Z.leb_le _ _) Hxy).
Qed.
End LoaderOrder.


Lemma codeUnitCompare_le a b : codeUnitCompare a b ≤ 0 ↔ String.le a b.
Proof.
  unfold codeUnitCompare, String.le, String.leb.
  destruct (String.compare a b); simpl; intuition (done || lia).
Qed.

Lemma codeUnitCompare_consistent : consistentComparator codeUnitCompare.
Proof.
  split.
  - intros a b. rewrite !codeUnitCompare_le. apply String.le_total.
  - intros a b c. rewrite !codeUnitCompare_le. intros. by etrans.
Qed.

(** The loader resolves exactly when some row of the parsed data is valid,
    then with the valid rows, each as often as it occurs; otherwise it
    rejects, with "CSV error: <message>" after a parse error, "No data in
    CSV" for an empty table and "No valid data in CSV" for a table without a
    valid row. *)
Theorem loadCSVData_outcomes {R : Type} `{AsRow R}
    (localeCompare : string → string → Z) (v : FrontEnd)
    (results : PapaOutcome R) :
  ((∃ out, loadCSVData localeCompare v results = Resolved out)
   ↔ ∃ data row, results = PapaComplete data ∧ row ∈ data
       ∧ validRow v (as_row row) = true)
  ∧ (∀ data out, results = PapaComplete data →
       loadCSVData localeCompare v results = Resolved out →
       out ≡ₚ filter (fun row => validRow v (as_row row) = true) data)
  ∧ (∀ msg, results = PapaError msg →
       loadCSVData localeCompare v results
       = Rejected (MkError ("CSV error: " +:+ msg)))
  ∧ (results = PapaComplete [] →
       loadCSVData localeCompare v results = Rejected (MkError "No data in CSV"))
  ∧ (∀ data, results = PapaComplete data → data ≠ [] →
       (∀ row, row ∈ data → validRow v (as_row row) = false) →
       loadCSVData localeCompare v results
       = Rejected (MkError "No valid data in CSV")).
Proof.
  split_and!.
  - split.
    + intros [out Hout].
      apply loadCSVData_resolved in Hout as (data & -> & Hperm & Hne).
      destruct out as [|row out]; [done|]. exists data, row.
      split; [done|].
      assert (Hin : row ∈ row :: out) by left.
      rewrite Hperm in Hin. by apply list_elem_of_filter in Hin as [? ?].
    + intros (data & row & -> & Hin & Hvalid).
      rewrite loadCSVData_complete.
      assert (Hf : row ∈ filter (fun row => validRow v (as_row row) = true) data)
        by (by apply list_elem_of_filter).
      destruct data as [|row0 data]; [by apply elem_of_nil in Hin|].
      destruct (filter _ (row0 :: data)); [by apply elem_of_nil in Hf|].
      by eexists.
  - intros data out -> Hout.
    by apply loadCSVData_resolved in Hout as (data' & [= <-] & Hperm & _).
  - by intros msg ->.
  - by intros ->.
  - intros data -> Hne Hnone. rewrite loadCSVData_complete.
    destruct data as [|row0 data]; [done|].
    destruct (filter _ (row0 :: data)) as [|row rest] eqn:Hf; [done|].
    assert (Hin : row ∈ row :: rest) by left.
    rewrite <- Hf in Hin. apply list_elem_of_filter in Hin as [Hv Hin].
    by rewrite (Hnone row Hin) in Hv.
Qed.

Lemma loadCSVData_sorted {R : Type} `{AsRow R}
    (localeCompare : string → string → Z) (v : FrontEnd)
    (results : PapaOutcome R) (out : list R) :
  consistentComparator localeCompare →
  loadCSVData localeCompare v results = Resolved out →
  StronglySorted (rowLe localeCompare) out.
Proof.
  intros Hc Hout. destruct results as [data|msg]; [|done].
  rewrite loadCSVData_complete in Hout.
  destruct data as [|row0 data]; [done|].
  destruct (filter _ (row0 :: data)) as [|row rest]; [done|].
  injection Hout as <-. by apply (js_sort_sorted localeCompare (row :: rest)).
Qed.

(** With a comparator that orders strings, the loaded rows are in ascending
    order of [String(id)], every row sorting no later than all rows after
    it, and rows that sort alike keep the order they had in the table: the
    result is the stable sort of the valid rows. *)
Theorem loadCSVData_sorted_stable {R : Type} `{AsRow R}
    (localeCompare : string → string → Z) (v : FrontEnd)
    (data out : list R) :
  consistentComparator localeCompare →
  loadCSVData localeCompare v (PapaComplete data) = Resolved out →
  StronglySorted (rowLe localeCompare) out
  ∧ ∀ z, filter (rowAlike localeCompare z) out
         = filter (rowAlike localeCompare z)
             (filter (fun row => validRow v (as_row row) = true) data).
Proof.
  intros Hc. rewrite loadCSVData_complete.
  destruct data as [|row0 data]; [done|].
  destruct (filter _ (row0 :: data)) as [|row rest]; [done|].
  intros [= <-]. split.
  - by apply (js_sort_sorted localeCompare (row :: rest)).
  - intros z. by apply (js_sort_stable localeCompare z (row :: rest)).
Qed.

Lemma loadCSVData_sorted_stable_on_sample :
  loadCSVData codeUnitCompare GraphBased
    (PapaComplete [samplePoint 3 270; samplePoint 10 180; samplePoint 1 90])
  = Resolved [samplePoint 1 90; samplePoint 10 180; samplePoint 3 270]
  ∧ StronglySorted (rowLe codeUnitCompare)
      [samplePoint 1 90; samplePoint 10 180; samplePoint 3 270].
Proof.
  assert (Hload : loadCSVData codeUnitCompare GraphBased
            (PapaComplete [samplePoint 3 270; samplePoint 10 180; samplePoint 1 90])
          = Resolved [samplePoint 1 90; samplePoint 10 180; samplePoint 3 270])
    by reflexivity.
  split; [exact Hload|].
  exact (proj1 (loadCSVData_sorted_stable codeUnitCompare GraphBased _ _
                  codeUnitCompare_consistent Hload)).
Defined.

Lemma filter_all {A} (P : A → Prop) `{∀ x, Decision (P x)} (l : list A) :
  Forall P l → filter P l = l.
Proof.
  induction 1 as [|x l Hx _ IH]; [done|].
  rewrite filter_cons_True by exact Hx. by rewrite IH.
Qed.

(** Loading what the loader resolved with resolves with the same rows in
    the same order. *)
Theorem loadCSVData_idempotent {R : Type} `{AsRow R}
    (localeCompare : string → string → Z) (v : FrontEnd)
    (results : PapaOutcome R) (out : list R) :
  consistentComparator localeCompare →
  loadCSVData localeCompare v results = Resolved out →
  loadCSVData localeCompare v (PapaComplete out) = Resolved out.
Proof.
  intros Hc Hout.
  pose proof Hout as (data & -> & Hperm & Hne)%loadCSVData_resolved.
  pose proof (loadCSVData_sorted localeCompare v _ out Hc Hout) as Hsorted.
  assert (Hall : filter (fun row => validRow v (as_row row) = true) out = out).
  { apply filter_all, Forall_forall. intros row.
    rewrite Hperm, list_elem_of_filter. tauto. }
  rewrite loadCSVData_complete.
  destruct out as [|row out]; [done|].
  rewrite Hall. by rewrite js_sort_of_sorted.
Qed.

Lemma loadCSVData_idempotent_on_sample :
  loadCSVData codeUnitCompare FlatImage (PapaComplete sampleData)
  = Resolved sampleData.
Proof.
  exact (loadCSVData_idempotent codeUnitCompare FlatImage
           (PapaComplete [samplePoint 3 270; samplePoint 1 90; samplePoint 2 180])
           sampleData codeUnitCompare_consistent eq_refl).
Defined.

(** ** Strings: the ids derived from a point id *)

Lemma string_app_cons c (a b : string) : String c a +:+ b = String c (a +:+ b).
Proof. reflexivity. Qed.

Lemma string_app_length (a b : string) :
  String.length (a +:+ b) = (String.length a + String.length b)%nat.
Proof.
  induction a as [|c a IH]; [done|].
  rewrite string_app_cons. cbn [String.length]. by rewrite IH.
Qed.

Lemma string_app_inj_r (s a b : string) : a +:+ s = b +:+ s → a = b.
Proof.
  revert b. induction a as [|c a IH]; intros [|d b] Heq.
  - done.
  - apply (f_equal String.length) in Heq.
    rewrite !string_app_length in Heq. cbn [String.length] in Heq. lia.
  - apply (f_equal String.length) in Heq.
    rewrite !string_app_length in Heq. cbn [String.length] in Heq. lia.
  - rewrite !string_app_cons in Heq. injection Heq as -> Heq.
    f_equal. by apply IH.
Qed.

Lemma front_suffix_ne_rear (a b : string) : a +:+ "_front" ≠ b +:+ "_rear".
Proof.
  revert b. induction a as [|c a IH]; intros b Heq.
  - destruct b as [|d [|e b]]; [done|done|].
    apply (f_equal String.length) in Heq.
    rewrite !string_app_length in Heq. cbn [String.length] in Heq. lia.
  - destruct b as [|d b].
    + apply (f_equal String.length) in Heq.
      rewrite !string_app_length in Heq. cbn [String.length] in Heq. lia.
    + rewrite !string_app_cons in Heq. injection Heq as _ Heq.
      by apply IH in Heq.
Qed.

Lemma front_id_inj p q : front_id p = front_id q → ToString (id p) = ToString (id q).
Proof.
  unfold front_id. intros Heq. apply (inj (String.app "point")) in Heq.
  by apply string_app_inj_r in Heq.
Qed.

Lemma rear_id_inj p q : rear_id p = rear_id q → ToString (id p) = ToString (id q).
Proof.
  unfold rear_id. intros Heq. apply (inj (String.app "point")) in Heq.
  by apply string_app_inj_r in Heq.
Qed.

Lemma front_id_ne_rear_id p q : front_id p ≠ rear_id q.
Proof.
  unfold front_id, rear_id. intros Heq.
  apply (inj (String.app "point")) in Heq. by apply front_suffix_ne_rear in Heq.
Qed.

(** ** The provider: lookups by id, duplicate ids, references, buckets *)

Section ProviderLookups.
Variable env : Env.

Lemma foldl_processPoint_clock data : ∀ b,
  clock_calls (foldl (processPoint env) b data)
  = (clock_calls b + 2 * length data)%nat.
Proof.
  induction data as [|point data IH]; intros b; simpl; [lia|].
  rewrite IH. simpl. lia.
Qed.

(** Points whose derived ids differ from [k] leave the entry of [k] alone. *)
Lemma foldl_processPoint_lookup_other data k : ∀ b,
  (∀ r, r ∈ data → front_id r ≠ k ∧ rear_id r ≠ k) →
  b_images (foldl (processPoint env) b data) !! k = b_images b !! k.
Proof.
  induction data as [|point data IH]; intros b Hother; simpl; [done|].
  rewrite IH by (intros r Hr; apply Hother; by right).
  destruct (Hother point) as [Hf Hr]; [by left|].
  simpl. by rewrite !lookup_insert_ne.
Qed.

Lemma images_lookup_last data j q :
  data !! j = Some q →
  (∀ k r, (j < k)%nat → data !! k = Some r →
     ToString (id r) ≠ ToString (id q)) →
  images (newCustomDataProvider env data) !! front_id q
  = Some (frontImageOf env (2 * j) q)
  ∧ images (newCustomDataProvider env data) !! rear_id q
    = Some (rearImageOf env (S (2 * j)) q).
Proof.
  intros Hj Hlast.
  assert (Hsplit : data = take j data ++ q :: drop (S j) data)
    by (by rewrite take_drop_middle).
  assert (Hlen : length (take j data) = j).
  { rewrite length_take. apply lookup_lt_Some in Hj. lia. }
  assert (Hlater : ∀ r, r ∈ drop (S j) data →
            ToString (id r) ≠ ToString (id q)).
  { intros r Hr. apply list_elem_of_lookup in Hr as [k Hk].
    rewrite lookup_drop in Hk. apply (Hlast (S j + k)%nat r); [lia|done]. }
  unfold newCustomDataProvider, _processSurveyData, processAll. cbn [images].
  rewrite Hsplit at 1 2. rewrite !foldl_app. cbn [foldl].
  set (b := foldl (processPoint env) _ (take j data)).
  assert (Hclock : clock_calls b = (2 * j)%nat).
  { unfold b. rewrite foldl_processPoint_clock. simpl. lia. }
  split.
  - rewrite foldl_processPoint_lookup_other.
    + simpl. rewrite lookup_insert_ne by (symmetry; apply front_id_ne_rear_id).
      rewrite (lookup_insert_eq (b_images b)). by rewrite Hclock.
    + intros r Hr. split.
      * intros Heq%front_id_inj. by apply (Hlater r).
      * intros Heq. symmetry in Heq. by apply front_id_ne_rear_id in Heq.
  - rewrite foldl_processPoint_lookup_other.
    + simpl. rewrite lookup_insert_eq. by rewrite Hclock.
    + intros r Hr. split.
      * apply front_id_ne_rear_id.
      * intros Heq%rear_id_inj. by apply (Hlater r).
Qed.

Lemma length_filter_imap {A B} (P : B → Prop) `{∀ y, Decision (P y)}
    (Q : A → Prop) `{∀ x, Decision (Q x)} (l : list A) : ∀ (f : nat → A → B),
  (∀ i x, P (f i x) ↔ Q x) →
  length (filter P (imap f l)) = length (filter Q l).
Proof.
  induction l as [|x l IH]; intros f Hf; [done|].
  rewrite imap_cons, !filter_cons.
  destruct (decide (P (f 0%nat x))) as [Hp|Hp], (decide (Q x)) as [Hq|Hq];
    simpl; rewrite ?(IH (f ∘ S)) by (intros; apply Hf); try done.
  - by apply Hf in Hp.
  - by apply (Hf 0%nat) in Hq.
Qed.
End ProviderLookups.

(** When several points have the same [String(id)], the image table holds
    the images of the last of them: both derived ids of any such point
    resolve to the front and rear image built from that last point. *)
Theorem images_table_keeps_last_duplicate (env : Env)
    (data : list SurveyPoint) (j : nat) (q p : SurveyPoint) :
  data !! j = Some q →
  (∀ k r, (j < k)%nat → data !! k = Some r →
     ToString (id r) ≠ ToString (id q)) →
  ToString (id p) = ToString (id q) →
  getImages (newCustomDataProvider env data) [front_id p; rear_id p]
  = Resolved [MkImageNode (Some (frontImageOf env (2 * j) q)) (front_id p);
              MkImageNode (Some (rearImageOf env (S (2 * j)) q)) (rear_id p)].
Proof.
  intros Hj Hlast Hsame.
  destruct (images_lookup_last env data j q Hj Hlast) as [Hf Hr].
  assert (Hfp : front_id p = front_id q) by (unfold front_id; by rewrite Hsame).
  assert (Hrp : rear_id p = rear_id q) by (unfold rear_id; by rewrite Hsame).
  unfold getImages. cbn [map]. by rewrite Hfp, Hrp, Hf, Hr.
Qed.

Lemma images_table_keeps_last_duplicate_on_sample :
  ∃ frontImage rearImage,
    getImages (newCustomDataProvider sampleEnv duplicateIdData)
      ["point1_front"; "point1_rear"]
    = Resolved [MkImageNode (Some frontImage) "point1_front";
                MkImageNode (Some rearImage) "point1_rear"]
    ∧ ImageEnt.computed_rotation frontImage = (HalfPi, 0, DegreesToRadians 270)
    ∧ ImageEnt.computed_rotation rearImage = (HalfPi, 0, DegreesToRadians 90).
Proof.
  eexists _, _. split; [|split].
  - apply (images_table_keeps_last_duplicate sampleEnv duplicateIdData 1
             (samplePoint 1 270) (samplePoint 1 90) eq_refl).
    + intros k r Hk Hr. destruct k as [|[|k]]; [lia|lia|done].
    + reflexivity.
  - reflexivity.
  - reflexivity.
Defined.

(** With pairwise distinct [String(id)]s, the two derived ids of every point
    of the dataset resolve to that point's own images: they carry its
    coordinates, its id, the heading of their side, and the dimensions and
    file of their side. *)
Theorem getImages_round_trip (env : Env) (data : list SurveyPoint)
    (i : nat) (point : SurveyPoint) :
  NoDup (map (fun p => ToString (id p)) data) →
  data !! i = Some point →
  ∃ frontImage rearImage,
    getImages (newCustomDataProvider env data) [front_id point; rear_id point]
    = Resolved [MkImageNode (Some frontImage) (front_id point);
                MkImageNode (Some rearImage) (rear_id point)]
    ∧ ImageEnt.geometry frontImage = (lat point, long point)
    ∧ ImageEnt.geometry rearImage = (lat point, long point)
    ∧ ImageEnt.point_id frontImage = id point
    ∧ ImageEnt.point_id rearImage = id point
    ∧ ImageEnt.computed_rotation frontImage
      = (HalfPi, 0, DegreesToRadians (heading_front point))
    ∧ ImageEnt.computed_rotation rearImage
      = (HalfPi, 0,
         DegreesToRadians (js_rem (js_add (heading_front point) 180) 360))
    ∧ (ImageEnt.width frontImage, ImageEnt.height frontImage)
      = (front_width point, front_height point)
    ∧ (ImageEnt.width rearImage, ImageEnt.height rearImage)
      = (rear_width point, rear_height point)
    ∧ url (ImageEnt.thumb frontImage) = "./images/" +:+ ToString (front point)
    ∧ url (ImageEnt.thumb rearImage) = "./images/" +:+ ToString (rear point).
Proof.
  intros Hnd Hi.
  exists (frontImageOf env (2 * i) point), (rearImageOf env (S (2 * i)) point).
  split; [|by repeat split].
  assert (Hlast : ∀ k r, (i < k)%nat → data !! k = Some r →
            ToString (id r) ≠ ToString (id point)).
  { intros k r Hk Hr Heq.
    assert (i = k); [|lia].
    apply (NoDup_lookup _ i k (ToString (id point)) Hnd).
    - change (map ?f ?l) with (f <$> l). by rewrite list_lookup_fmap, Hi.
    - change (map ?f ?l) with (f <$> l). rewrite list_lookup_fmap, Hr. simpl.
      by rewrite Heq. }
  destruct (images_lookup_last env data i point Hi Hlast) as [Hf Hr].
  unfold getImages. cbn [map]. by rewrite Hf, Hr.
Qed.

Lemma getImages_round_trip_on_sample :
  ∃ frontImage rearImage,
    getImages (newCustomDataProvider sampleEnv sampleData)
      ["point3_front"; "point3_rear"]
    = Resolved [MkImageNode (Some frontImage) "point3_front";
                MkImageNode (Some rearImage) "point3_rear"]
    ∧ ImageEnt.computed_rotation rearImage = (HalfPi, 0, DegreesToRadians 90)
    ∧ url (ImageEnt.thumb rearImage) = "./images/rear_3.jpg".
Proof.
  destruct (getImages_round_trip sampleEnv sampleData 2 (samplePoint 3 270))
    as (frontImage & rearImage & Hget & _ & _ & _ & _ & _ & Hrot & _ & _ & _ & Hurl).
  { apply (bool_decide_unpack _). by vm_compute. }
  { reflexivity. }
  exists frontImage, rearImage. split; [exact Hget|]. split; [exact Hrot|exact Hurl].
Defined.

(** Every id listed in a sequence, and the id of every image of a cell
    bucket, is a key of the image table, and the image found there belongs
    to the same sequence. *)
Theorem provider_references_resolve (env : Env) (data : list SurveyPoint) :
  (∀ sequenceId sequence imageId,
     getSequence (newCustomDataProvider env data) sequenceId = Resolved sequence →
     imageId ∈ Sequence.image_ids sequence →
     ∃ image, images (newCustomDataProvider env data) !! imageId = Some image
       ∧ ImageEnt.id image = imageId
       ∧ ImageEnt.sequence image = sequenceId)
  ∧ (∀ cellId bucket image,
       cells (newCustomDataProvider env data) !! cellId = Some bucket →
       image ∈ bucket →
       ∃ image', images (newCustomDataProvider env data) !! ImageEnt.id image
                 = Some image'
         ∧ ImageEnt.id image' = ImageEnt.id image
         ∧ ImageEnt.sequence image' = ImageEnt.sequence image).
Proof.
  assert (Hkind : ∀ image, image ∈ allImages env data →
            (∃ p, ImageEnt.id image = front_id p
                  ∧ ImageEnt.sequence image = "seq_front")
            ∨ (∃ p, ImageEnt.id image = rear_id p
                    ∧ ImageEnt.sequence image = "seq_rear")).
  { intros image. unfold allImages.
    rewrite frontImages_processAll, rearImages_processAll, elem_of_app.
    intros [Hin|Hin]; apply elem_of_lookup_imap_1 in Hin as (k & p & -> & _);
      [left|right]; by exists p. }
  assert (Hstored : ∀ image, image ∈ allImages env data →
            ∃ image', images (newCustomDataProvider env data) !! ImageEnt.id image
                      = Some image'
              ∧ ImageEnt.id image' = ImageEnt.id image
              ∧ ImageEnt.sequence image' = ImageEnt.sequence image).
  { intros image Hin.
    destruct (images_lookup_known env data image Hin) as [image' Hlook].
    exists image'. split; [done|].
    destruct (images_lookup_inv env data _ _ Hlook) as [Hid Hin']. split; [done|].
    destruct (Hkind image Hin) as [(p & Hp & ->)|(p & Hp & ->)],
             (Hkind image' Hin') as [(q & Hq & ->)|(q & Hq & ->)]; try done.
    - rewrite Hp, Hq in Hid. symmetry in Hid. by apply front_id_ne_rear_id in Hid.
    - rewrite Hp, Hq in Hid. by apply front_id_ne_rear_id in Hid. }
  split.
  - intros sequenceId sequence imageId Hseq Hin.
    assert (∃ image, image ∈ allImages env data ∧ ImageEnt.id image = imageId
                     ∧ ImageEnt.sequence image = sequenceId)
      as (image & Himg & <- & <-).
    { destruct (decide (sequenceId = "seq_front")) as [->|Hf].
      - rewrite getSequence_front in Hseq. injection Hseq as <-. simpl in Hin.
        rewrite <- (front_ids_processAll env) in Hin.
        change (map ?f ?l) with (f <$> l) in Hin.
        apply list_elem_of_fmap in Hin as (image & -> & Hin).
        exists image. split; [unfold allImages; set_solver|]. split; [done|].
        rewrite frontImages_processAll in Hin.
        by apply elem_of_lookup_imap_1 in Hin as (k & p & -> & _).
      - destruct (decide (sequenceId = "seq_rear")) as [->|Hr].
        + rewrite getSequence_rear in Hseq. injection Hseq as <-. simpl in Hin.
          rewrite <- (rear_ids_processAll env) in Hin.
          change (map ?f ?l) with (f <$> l) in Hin.
          apply list_elem_of_fmap in Hin as (image & -> & Hin).
          exists image. split; [unfold allImages; set_solver|]. split; [done|].
          rewrite rearImages_processAll in Hin.
          by apply elem_of_lookup_imap_1 in Hin as (k & p & -> & _).
        + by rewrite getSequence_other in Hseq. }
    by apply Hstored.
  - intros cellId bucket image Hcell Hin. apply Hstored.
    rewrite lookup_cells in Hcell.
    destruct (filter _ _) eqn:Hf; [done|]. injection Hcell as <-.
    rewrite <- Hf in Hin. by apply list_elem_of_filter in Hin as [_ ?].
Qed.

(** A cell query resolves with the images of that cell in creation order:
    the front images of the cell's points in dataset order, then their rear
    images in dataset order, so with twice as many images as the cell has
    points. *)
Theorem getCoreImages_bucket_order (env : Env) (data : list SurveyPoint)
    (cellId : string) :
  ∃ r, getCoreImages (newCustomDataProvider env data) cellId = Resolved r
    ∧ cell_id r = cellId
    ∧ core_images r
      = filter (fun image => cellOf env image = cellId)
               (frontImages (processAll env data))
        ++ filter (fun image => cellOf env image = cellId)
                  (rearImages (processAll env data))
    ∧ length (core_images r)
      = (2 * length (filter (fun point => cellOfPoint env point = cellId) data))%nat.
Proof.
  assert (Himages : match cells (newCustomDataProvider env data) !! cellId with
                    | Some bucket => bucket
                    | None => []
                    end
                    = filter (fun image => cellOf env image = cellId)
                             (allImages env data)).
  { rewrite lookup_cells. by destruct (filter _ _). }
  eexists. split; [reflexivity|]. cbn [cell_id core_images].
  split; [done|]. rewrite Himages. unfold allImages. rewrite filter_app.
  split; [done|].
  rewrite length_app, frontImages_processAll, rearImages_processAll.
  rewrite !(length_filter_imap _ (fun point => cellOfPoint env point = cellId));
    [lia|done..].
Qed.


(** ** The graph-based front end, handler by handler *)

Lemma graph_refreshAll_throw s point :
  pointAt s = Some point → viewer (engine s) = None →
  Graph.refreshAll s = MkOutcome s [] None.
Proof.
  intros Hp Hv. unfold Graph.refreshAll.
  run_as ltac:(eapply bind_throw; by apply (moveToCurrent_throw _ point)).
Qed.

Lemma graph_prevClick_throw s point :
  0 < currentPointIndex (nav s) →
  js_index (surveyData s) (currentPointIndex (nav s) - 1) = Some point →
  viewer (engine s) = None →
  Graph.prevClick s
  = MkOutcome (set_nav (with_currentPointIndex (currentPointIndex (nav s) - 1)) s)
      [] None.
Proof.
  intros Hpos Hp Hv. unfold Graph.prevClick.
  run_as ltac:(
    eapply bind_run; [apply get_run|cbv beta];
    rewrite (proj2 (Z.ltb_lt _ _) Hpos);
    eapply bind_run; [apply modify_run|cbv beta];
    apply (graph_refreshAll_throw _ point); [exact Hp|exact Hv]).
Qed.

Lemma graph_nextClick_throw s point :
  currentPointIndex (nav s) < Z.of_nat (length (surveyData s)) - 1 →
  js_index (surveyData s) (currentPointIndex (nav s) + 1) = Some point →
  viewer (engine s) = None →
  Graph.nextClick s
  = MkOutcome (set_nav (with_currentPointIndex (currentPointIndex (nav s) + 1)) s)
      [] None.
Proof.
  intros Hlt Hp Hv. unfold Graph.nextClick.
  run_as ltac:(
    eapply bind_run; [apply get_run|cbv beta];
    rewrite (proj2 (Z.ltb_lt _ _) Hlt);
    eapply bind_run; [apply modify_run|cbv beta];
    apply (graph_refreshAll_throw _ point); [exact Hp|exact Hv]).
Qed.

Lemma graph_markerClick_defer s index :
  viewerInitialized (engine s) = false →
  let s1 := set_page (with_viewerContainerActive true)
              (set_nav (with_isViewerMode true)
                 (set_nav (with_isShowingFront true)
                    (set_nav (with_currentPointIndex index) s))) in
  Graph.markerClick index s
  = MkOutcome
      (set_engine (with_pendingTimeouts (S (pendingTimeouts (engine s)))) s1)
      [SetTimeout] (Some tt).
Proof.
  intros Hinit s1. unfold Graph.markerClick, Graph.enterViewerMode.
  run_as ltac:(
    do 4 (eapply bind_run; [apply modify_run|cbv beta]);
    eapply bind_run; [apply get_run|cbv beta];
    cbn [engine set_page set_nav viewerInitialized]; rewrite Hinit; cbn [negb];
    eapply bind_run; [apply modify_run|cbv beta];
    apply called_run).
Qed.

Lemma initViewer_skip env s :
  viewerInitialized (engine s) = true →
  Graph.initViewer env s = MkOutcome s [] (Some tt).
Proof.
  intros Hinit. unfold Graph.initViewer.
  run_as ltac:(
    eapply bind_run; [apply get_run|cbv beta];
    rewrite Hinit; apply ret_run).
Qed.

Lemma initViewer_run env s point :
  viewerInitialized (engine s) = false → pointAt s = Some point →
  Graph.initViewer env s
  = MkOutcome
      (set_engine (with_viewerInitialized true)
         (set_engine (with_viewer (Some (MkViewer (front_id point))))
            (set_engine (with_dataProvider
                           (Some (newCustomDataProvider env (surveyData s)))) s)))
      [] (Some tt).
Proof.
  intros Hinit Hp. unfold Graph.initViewer.
  run_as ltac:(
    eapply bind_run; [apply get_run|cbv beta];
    rewrite Hinit;
    eapply bind_run; [apply modify_run|cbv beta];
    eapply bind_run; [by apply (currentPoint_run _ point)|cbv beta];
    eapply bind_run; [apply modify_run|cbv beta];
    apply modify_run).
Qed.

Lemma timeoutCallback_run env s sI point :
  Graph.initViewer env s = MkOutcome sI [] (Some tt) →
  pointAt sI = Some point →
  Graph.timeoutCallback env s
  = MkOutcome
      (showHighlight (currentPointIndex (nav sI))
         (showMinimap point (showInfo point sI)))
      [UpdateViewerInfo; UpdateMinimap; HighlightMarker (currentPointIndex (nav sI))]
      (Some tt).
Proof.
  intros Hinit Hp. unfold Graph.timeoutCallback.
  run_as ltac:(
    eapply bind_run; [exact Hinit|cbv beta];
    eapply bind_run; [by apply (updateViewerInfo_run _ point)|cbv beta];
    eapply bind_run; [by apply (updateMinimap_run _ point)|cbv beta];
    eapply bind_run; [apply get_run|cbv beta];
    apply highlightMarker_run).
Qed.

Lemma loadListener_run s v :
  viewer (engine s) = Some v →
  Graph.loadListener s = MkOutcome s [ViewerSetZoom; ViewerSetCenter] (Some tt).
Proof.
  intros Hv. unfold Graph.loadListener.
  run_as ltac:(
    eapply bind_run; [by apply (viewer_setZoom_run _ v)|cbv beta];
    by apply (viewer_setCenter_run _ v)).
Qed.

Lemma imageListener_silent s image index :
  truthy (Graph.image_point_id image) = true →
  findIndex (fun p => strict_eq (id p) (Graph.image_point_id image)) (surveyData s)
  = index →
  index ≠ -1 →
  isViewerMode (nav s) = false →
  Graph.imageListener (Some image) s
  = MkOutcome
      (set_nav (with_isShowingFront (includes (Graph.image_id image) "_front"))
         (set_nav (with_currentPointIndex index) s))
      [] (Some tt).
Proof.
  intros Ht Hi Hne Hmode. unfold Graph.imageListener. rewrite Ht.
  assert (Hneb : negb (index =? -1) = true)
    by (by apply negb_true_iff, Z.eqb_neq).
  run_as ltac:(
    eapply bind_run; [apply get_run|cbv beta];
    rewrite Hi, Hneb, Hmode;
    eapply bind_run; [apply modify_run|cbv beta];
    eapply bind_run; [apply modify_run|cbv beta];
    apply ret_run).
Qed.

Lemma timeoutFires_run env s sI point :
  Graph.initViewer env
    (set_engine (fun e => with_pendingTimeouts (Nat.pred (pendingTimeouts e)) e) s)
  = MkOutcome sI [] (Some tt) →
  pointAt sI = Some point →
  Graph.handler env Graph.TimeoutFires s
  = MkOutcome
      (showHighlight (currentPointIndex (nav sI))
         (showMinimap point (showInfo point sI)))
      [UpdateViewerInfo; UpdateMinimap; HighlightMarker (currentPointIndex (nav sI))]
      (Some tt).
Proof.
  intros Hinit Hp. unfold Graph.handler.
  run_as ltac:(
    eapply bind_run; [apply modify_run|cbv beta];
    by apply (timeoutCallback_run env _ sI point)).
Qed.

(** After the info-panel, minimap and highlight refreshes these three
    displays agree with the state. *)
Lemma graph_refreshed_synced s point :
  pointAt s = Some point →
  length (markers (page s)) = length (surveyData s) →
  let s' := showHighlight (currentPointIndex (nav s))
              (showMinimap point (showInfo point s)) in
  infoSynced s' ∧ minimapSynced s' ∧ highlightSynced s'.
Proof.
  intros Hp Hlen. simpl. split_and!.
  - by exists point.
  - by exists point.
  - split; simpl; [by rewrite length_restyle|by rewrite restyle_restyle].
Qed.

Lemma js_index_elem_of {A} (arr : list A) (i : Z) (x : A) :
  js_index arr i = Some x → x ∈ arr.
Proof.
  unfold js_index. destruct (i <? 0); [done|]. apply list_elem_of_lookup_2.
Qed.

Section GraphInvariant.
Variable env : Env.
Variable data : list SurveyPoint.

Local Ltac vacuous H := simpl; rewrite ?H; done.
Local Ltac started :=
  right; split; [done|]; split; [by eexists|done].
Local Ltac idle_viewer H := intros ?; simpl; rewrite H; done.
Local Ltac kept Hv Hview :=
  let v0 := fresh in let Hv0 := fresh in
  intros v0 Hv0; simpl in Hv0; rewrite Hv in Hv0; by apply Hview.
Local Ltac asked :=
  first [ eassumption
        | intros ? [= <-]; eexists _, _; split; [|reflexivity];
          eapply js_index_elem_of; eassumption ].

Lemma GraphInv_initMap : data ≠ [] → GraphInv env data (initMap data).
Proof.
  intros Hne. split; try done.
  - by apply initMap_valid.
  - by left.
Qed.

Lemma GraphInv_step e s :
  GraphInv env data s → Graph.enabled e s → GraphInv env data (Graph.step env e s).
Proof.
  intros Hinv Hen. pose proof Hinv as [Hidx Hdata Heng Hview Hpend Hdisp].
  pose proof (IndexInv_graph_step env e s Hidx Hen) as Hidx'.
  pose proof Hidx as [Hvalid Hlen].
  destruct (pointAt_valid s Hvalid) as [point Hp].
  destruct e as [index| | | | | | | |image];
    unfold Graph.step, Graph.handler, Graph.enabled in *.
  - rewrite Hlen in Hen.
    destruct (js_index_in_range _ _ Hen) as [point' Hp'].
    destruct Heng as [(Hi & Hv & Hd)|(Hi & [v Hv] & Hd)].
    + rewrite (graph_markerClick_defer s index Hi) in Hidx' |- *.
      cbn [final] in *.
      split; [exact Hidx'|exact Hdata|by left|idle_viewer Hv|simpl; lia|vacuous Hi].
    + rewrite (graph_markerClick_run s index point' v Hp' Hi Hv) in Hidx' |- *.
      cbn [final] in *.
      split; [exact Hidx'|exact Hdata|started|asked|vacuous Hi|].
      intros _ _. by apply (graph_refreshed_synced
        (showInViewer point' (set_page (with_viewerContainerActive true)
           (set_nav (with_isViewerMode true)
              (set_nav (with_isShowingFront true)
                 (set_nav (with_currentPointIndex index) s))))) point').
  - rewrite (exitViewerMode_run s point Hp) in Hidx' |- *.
    cbn [final] in *.
    split; [exact Hidx'|exact Hdata|exact Heng|exact Hview|done|done].
  - rewrite (exitViewerMode_run s point Hp) in Hidx' |- *.
    cbn [final] in *.
    split; [exact Hidx'|exact Hdata|exact Heng|exact Hview|done|done].
  - destruct (decide (0 < currentPointIndex (nav s))) as [Hpos|Hpos];
      [|by rewrite graph_prevClick_first by lia].
    destruct (js_index_in_range (surveyData s) (currentPointIndex (nav s) - 1))
      as [point' Hp']; [unfold validIndex in Hvalid; lia|].
    destruct Heng as [(Hi & Hv & Hd)|(Hi & [v Hv] & Hd)].
    + rewrite (graph_prevClick_throw s point' Hpos Hp' Hv) in Hidx' |- *.
      cbn [final] in *.
      split; [exact Hidx'|exact Hdata|by left|idle_viewer Hv|exact Hpend|vacuous Hi].
    + rewrite (graph_prevClick_run s point' v Hpos Hp' Hv) in Hidx' |- *.
      cbn [final] in *.
      split; [exact Hidx'|exact Hdata|started|asked|vacuous Hi|].
      intros _ _. by apply (graph_refreshed_synced
        (showInViewer point'
           (set_nav (with_currentPointIndex (currentPointIndex (nav s) - 1)) s))
        point').
  - destruct (decide (currentPointIndex (nav s)
                      < Z.of_nat (length (surveyData s)) - 1)) as [Hlt|Hge];
      [|by rewrite graph_nextClick_last by lia].
    destruct (js_index_in_range (surveyData s) (currentPointIndex (nav s) + 1))
      as [point' Hp']; [unfold validIndex in Hvalid; lia|].
    destruct Heng as [(Hi & Hv & Hd)|(Hi & [v Hv] & Hd)].
    + rewrite (graph_nextClick_throw s point' Hlt Hp' Hv) in Hidx' |- *.
      cbn [final] in *.
      split; [exact Hidx'|exact Hdata|by left|idle_viewer Hv|exact Hpend|vacuous Hi].
    + rewrite (graph_nextClick_run s point' v Hlt Hp' Hv) in Hidx' |- *.
      cbn [final] in *.
      split; [exact Hidx'|exact Hdata|started|asked|vacuous Hi|].
      intros _ _. by apply (graph_refreshed_synced
        (showInViewer point'
           (set_nav (with_currentPointIndex (currentPointIndex (nav s) + 1)) s))
        point').
  - destruct Heng as [(Hi & Hv & Hd)|(Hi & [v Hv] & Hd)].
    + rewrite (graph_switchViewClick_throw s point Hp Hv) in Hidx' |- *.
      cbn [final] in *.
      split; [exact Hidx'|exact Hdata|by left|idle_viewer Hv|exact Hpend|vacuous Hi].
    + rewrite (graph_switchViewClick_run s point v Hp Hv) in Hidx' |- *.
      cbn [final] in *.
      split; [exact Hidx'|exact Hdata|started|asked|vacuous Hi|].
      simpl. intros Hmode _.
      destruct (Hdisp Hmode Hi) as (_ & Hmini & Hhl).
      split; [by exists point|]. split; [|done].
      destruct Hmini as (q & Hq & Hmv & Hmc). by exists q.
  - destruct Heng as [(Hi & Hv & Hd)|(Hi & [v Hv] & Hd)].
    + pose proof (timeoutFires_run env s _ point
                 (initViewer_run env
                    (set_engine (fun e => with_pendingTimeouts
                                            (Nat.pred (pendingTimeouts e)) e) s)
                    point Hi Hp) Hp) as Hrun.
      unfold Graph.handler in Hrun. rewrite Hrun in Hidx' |- *.
      cbn [final] in *.
      split; [exact Hidx'|exact Hdata|started| |done|].
      { intros ? [= <-]. exists point, true.
        split; [exact (js_index_elem_of _ _ _ Hp)|reflexivity]. }
      intros _ _. by apply (graph_refreshed_synced
        (set_engine (with_viewerInitialized true)
           (set_engine (with_viewer (Some (MkViewer (front_id point))))
              (set_engine (with_dataProvider
                             (Some (newCustomDataProvider env (surveyData s))))
                 (set_engine (fun e => with_pendingTimeouts
                                         (Nat.pred (pendingTimeouts e)) e) s))))
        point).
    + pose proof (timeoutFires_run env s _ point
                 (initViewer_skip env
                    (set_engine (fun e => with_pendingTimeouts
                                            (Nat.pred (pendingTimeouts e)) e) s)
                    Hi) Hp) as Hrun.
      unfold Graph.handler in Hrun. rewrite Hrun in Hidx' |- *.
      cbn [final] in *.
      split; [exact Hidx'|exact Hdata|started|asked|vacuous Hi|].
      intros _ _. by apply (graph_refreshed_synced
        (set_engine (fun e => with_pendingTimeouts
                                (Nat.pred (pendingTimeouts e)) e) s) point).
  - destruct (viewer (engine s)) as [v|] eqn:Hv; [|done].
    by rewrite (loadListener_run s v Hv).
  - destruct image as [image|]; [|done].
    destruct (viewer (engine s)) as [v|] eqn:Hv; [|done].
    destruct Heng as [(Hi & Hv' & Hd)|(Hi & _ & Hd)]; [congruence|].
    destruct (truthy (Graph.image_point_id image)) eqn:Ht;
      [|by rewrite imageListener_ignored by (by left)].
    destruct (findIndex_range
                (fun p => strict_eq (id p) (Graph.image_point_id image))
                (surveyData s)) as [Hnone|Hrange];
      [by rewrite imageListener_ignored by (by right)|].
    destruct (js_index_in_range _ _ Hrange) as [point' Hp'].
    destruct (isViewerMode (nav s)) eqn:Hmode.
    + rewrite (imageListener_run s image _ point' v Ht eq_refl Hp' Hmode Hv)
        in Hidx' |- *.
      cbn [final] in *.
      split; [exact Hidx'|exact Hdata|started|kept Hv Hview|vacuous Hi|].
      intros _ _. by apply (graph_refreshed_synced
        (set_nav (with_isShowingFront (includes (Graph.image_id image) "_front"))
           (set_nav (with_currentPointIndex
                       (findIndex (fun p => strict_eq (id p)
                                              (Graph.image_point_id image))
                                  (surveyData s))) s)) point').
    + assert (Hne : findIndex (fun p => strict_eq (id p)
                                          (Graph.image_point_id image))
                              (surveyData s) ≠ -1) by lia.
      rewrite (imageListener_silent s image _ Ht eq_refl Hne Hmode)
        in Hidx' |- *.
      cbn [final] in *.
      split; [exact Hidx'|exact Hdata|started|kept Hv Hview|vacuous Hmode|vacuous Hmode].
Qed.

Lemma GraphInv_reachable localeCompare results s :
  Graph.reachable env localeCompare results s →
  loadCSVData localeCompare GraphBased results = Resolved data →
  GraphInv env data s.
Proof.
  intros Hreach Hload. induction Hreach as [s Hinit|s e _ IH Hen].
  - apply init_Ready in Hinit as (data' & Hload' & Hne & ->).
    assert (data' = data) as -> by congruence. by apply GraphInv_initMap.
  - by apply GraphInv_step.
Qed.
End GraphInvariant.

Lemma graph_reachable_loaded env localeCompare results s :
  Graph.reachable env localeCompare results s →
  ∃ data, loadCSVData localeCompare GraphBased results = Resolved data.
Proof.
  induction 1 as [s Hinit|s e _ IH Hen]; [|done].
  apply init_Ready in Hinit as (data & Hload & _). by exists data.
Qed.

Lemma graph_reachable_inv env localeCompare results s :
  Graph.reachable env localeCompare results s →
  ∃ data, loadCSVData localeCompare GraphBased results = Resolved data
    ∧ GraphInv env data s.
Proof.
  intros Hreach.
  destruct (graph_reachable_loaded _ _ _ _ Hreach) as [data Hload].
  exists data. split; [done|]. by apply (GraphInv_reachable env data localeCompare results).
Qed.

Lemma flat_step_data e s :
  FlatInv s → Flat.enabled e s → surveyData (Flat.step e s) = surveyData s.
Proof.
  intros Hinv Hen. pose proof Hinv as [Hvalid [Hlen Hhl] _ _ _ _].
  destruct (pointAt_valid s Hvalid) as [point Hp].
  destruct e as [index| | | | |]; unfold Flat.step, Flat.handler, Flat.enabled in *.
  - rewrite Hlen in Hen.
    destruct (js_index_in_range _ _ Hen) as [point' Hp'].
    by rewrite (markerClick_run s index point' Hp').
  - by rewrite (exitViewerMode_run s point Hp).
  - by rewrite (exitViewerMode_run s point Hp).
  - destruct (decide (0 < currentPointIndex (nav s))) as [Hpos|Hpos];
      [|by rewrite prevClick_first by lia].
    destruct (js_index_in_range (surveyData s) (currentPointIndex (nav s) - 1))
      as [point' Hp']; [unfold validIndex in Hvalid; lia|].
    by rewrite (prevClick_run s point' Hpos Hp').
  - destruct (decide (currentPointIndex (nav s)
                      < Z.of_nat (length (surveyData s)) - 1)) as [Hlt|Hge];
      [|by rewrite nextClick_last by lia].
    destruct (js_index_in_range (surveyData s) (currentPointIndex (nav s) + 1))
      as [point' Hp']; [unfold validIndex in Hvalid; lia|].
    by rewrite (nextClick_run s point' Hlt Hp').
  - by rewrite (switchViewClick_run s point Hp).
Qed.

(** ** The dataset and the engine over a session *)

(** In both front ends the dataset of every reachable state is the list the
    loader resolved with, in the same order, and there is one marker per
    survey point: no handler adds, drops or reorders a point. *)
Theorem dataset_fixed_after_load (env : Env)
    (localeCompare : string → string → Z)
    (results : PapaOutcome SurveyPoint) (s : State) :
  (Flat.reachable localeCompare results s →
   ∃ data, loadCSVData localeCompare FlatImage results = Resolved data
     ∧ surveyData s = data
     ∧ length (markers (page s)) = length data)
  ∧ (Graph.reachable env localeCompare results s →
     ∃ data, loadCSVData localeCompare GraphBased results = Resolved data
       ∧ surveyData s = data
       ∧ length (markers (page s)) = length data).
Proof.
  split.
  - intros Hreach.
    assert (∃ data, loadCSVData localeCompare FlatImage results = Resolved data
                    ∧ surveyData s = data) as (data & Hload & Hdata).
    { induction Hreach as [s Hinit|s e Hreach IH Hen].
      - apply init_Ready in Hinit as (data & Hload & _ & ->). by exists data.
      - destruct IH as (data & Hload & Hdata). exists data. split; [done|].
        rewrite flat_step_data; [done| |done].
        by apply (FlatInv_reachable localeCompare results). }
    exists data. split; [done|]. split; [done|].
    apply FlatInv_reachable in Hreach as [_ [Hlen _] _ _ _ _]. by rewrite <- Hdata.
  - intros Hreach.
    destruct (graph_reachable_inv _ _ _ _ Hreach)
      as (data & Hload & [[_ Hlen] Hdata _ _ _ _]).
    exists data. split; [done|]. split; [done|]. by rewrite <- Hdata.
Qed.

Lemma dataset_fixed_after_load_on_sample :
  surveyData sampleFlatViewer = sampleData
  ∧ surveyData sampleGraphViewer = sampleData.
Proof.
  destruct (proj1 (dataset_fixed_after_load sampleEnv codeUnitCompare
                     (PapaComplete sampleData) sampleFlatViewer)
              sampleFlatViewer_reachable) as (flatData & Hflat & <- & _).
  destruct (proj2 (dataset_fixed_after_load sampleEnv codeUnitCompare
                     (PapaComplete sampleData) sampleGraphViewer)
              sampleGraphViewer_reachable) as (graphData & Hgraph & <- & _).
  split; reflexivity.
Defined.



(** In the graph-based front end, in every reachable state with the viewer
    open and the engine started, the info panel, the prev and next buttons,
    the minimap and the marker highlight agree with the index and side. *)
Theorem graph_displays_follow_state (env : Env)
    (localeCompare : string → string → Z)
    (results : PapaOutcome SurveyPoint) (s : State) :
  Graph.reachable env localeCompare results s →
  isViewerMode (nav s) = true →
  viewerInitialized (engine s) = true →
  infoSynced s ∧ minimapSynced s ∧ highlightSynced s.
Proof.
  intros Hreach Hmode Hinit.
  destruct (graph_reachable_inv _ _ _ _ Hreach) as (data & _ & [_ _ _ _ _ Hdisp]).
  by apply Hdisp.
Qed.

Lemma graph_displays_follow_state_on_sample :
  titleInfo (page sampleGraphViewer) = Some (MkTitleInfo 2 3 "Front" 180)
  ∧ prevDisabled (page sampleGraphViewer) = false
  ∧ nextDisabled (page sampleGraphViewer) = false.
Proof.
  destruct (graph_displays_follow_state sampleEnv codeUnitCompare
              (PapaComplete sampleData) sampleGraphViewer
              sampleGraphViewer_reachable eq_refl eq_refl)
    as ((point & Hp & Hinfo & Hprev & Hnext) & _ & _).
  assert (point = samplePoint 2 180) as ->
    by (apply (inj Some); rewrite <- Hp; reflexivity).
  split; [exact Hinfo|]. split; [exact Hprev|exact Hnext].
Defined.

(** The image the viewer was last asked for, at its creation or by
    [moveTo], is always an image of the provider: [getImages] resolves its id
    with a node, never with null. *)
Theorem graph_requested_image_resolves (env : Env)
    (localeCompare : string → string → Z)
    (results : PapaOutcome SurveyPoint) (s : State)
    (v : Viewer) (provider : CustomDataProvider) :
  Graph.reachable env localeCompare results s →
  viewer (engine s) = Some v →
  dataProvider (engine s) = Some provider →
  ∃ image, getImages provider [requestedImage v]
           = Resolved [MkImageNode (Some image) (requestedImage v)]
    ∧ ImageEnt.id image = requestedImage v.
Proof.
  intros Hreach Hv Hprovider.
  destruct (graph_reachable_inv _ _ _ _ Hreach)
    as (data & _ & [_ Hdata Heng Hview _ _]).
  destruct (Hview v Hv) as (point & side & Hin & Hasked).
  destruct Heng as [(_ & _ & Hnone)|(_ & _ & Hsome)]; [congruence|].
  assert (provider = newCustomDataProvider env (surveyData s)) as -> by congruence.
  apply list_elem_of_lookup_1 in Hin as [i Hi].
  assert (∃ image, image ∈ allImages env (surveyData s)
                   ∧ ImageEnt.id image = requestedImage v) as (image & Hin & Hid).
  { destruct side.
    - exists (frontImageOf env (2 * i) point). split; [|by rewrite Hasked].
      unfold allImages. rewrite frontImages_processAll, elem_of_app. left.
      apply elem_of_lookup_imap. by exists i, point.
    - exists (rearImageOf env (S (2 * i)) point). split; [|by rewrite Hasked].
      unfold allImages. rewrite rearImages_processAll, elem_of_app. right.
      apply elem_of_lookup_imap. by exists i, point. }
  destruct (images_lookup_known env _ image Hin) as [image' Hlook].
  rewrite Hid in Hlook. exists image'. split.
  - unfold getImages. cbn [map]. by rewrite Hlook.
  - by apply (images_lookup_inv env (surveyData s)).
Qed.

Lemma graph_requested_image_resolves_on_sample :
  ∃ image,
    getImages (newCustomDataProvider sampleEnv sampleData) ["point2_front"]
    = Resolved [MkImageNode (Some image) "point2_front"].
Proof.
  destruct (graph_requested_image_resolves sampleEnv codeUnitCompare
              (PapaComplete sampleData) sampleGraphViewer
              (MkViewer "point2_front")
              (newCustomDataProvider sampleEnv sampleData)
              sampleGraphViewer_reachable eq_refl eq_refl)
    as (image & Hget & _).
  exists image. exact Hget.
Defined.

(** In the graph-based front end a handler ends in a TypeError exactly when
    the viewer does not exist yet and the handler reaches [viewer.moveTo]:
    the switch-view click, the prev click above index 0 and the next click
    below the last index. No other handler throws, and none does once the
    viewer exists. *)
Theorem graph_handler_throws_only_before_start (env : Env)
    (localeCompare : string → string → Z)
    (results : PapaOutcome SurveyPoint) (s : State) (e : Graph.Event) :
  Graph.reachable env localeCompare results s →
  Graph.enabled e s →
  result (Graph.handler env e s) = None
  ↔ viewer (engine s) = None
    ∧ (e = Graph.SwitchViewClick
       ∨ (e = Graph.PrevClick ∧ 0 < currentPointIndex (nav s))
       ∨ (e = Graph.NextClick
          ∧ currentPointIndex (nav s) < Z.of_nat (length (surveyData s)) - 1)).
Proof.
  intros Hreach Hen.
  destruct (graph_reachable_inv _ _ _ _ Hreach)
    as (data & _ & [[Hvalid Hlen] _ Heng _ _ _]).
  destruct (pointAt_valid s Hvalid) as [point Hp].
  assert (Hnever : ∀ o : Outcome unit, result o = Some tt →
            ∀ P : Prop, (P → False) → result o = None ↔ P).
  { intros o Ho P HP. rewrite Ho. split; [done|]. intros HP'. by apply HP in HP'. }
  destruct e as [index| | | | | | | |image]; unfold Graph.enabled in Hen;
    cbn [Graph.handler].
  - rewrite Hlen in Hen.
    destruct (js_index_in_range _ _ Hen) as [point' Hp'].
    apply Hnever; [|intros (_ & [?|[[? _]|[? _]]]); done].
    destruct Heng as [(Hi & Hv & Hd)|(Hi & [v Hv] & Hd)].
    + by rewrite (graph_markerClick_defer s index Hi).
    + by rewrite (graph_markerClick_run s index point' v Hp' Hi Hv).
  - apply Hnever; [|intros (_ & [?|[[? _]|[? _]]]); done].
    by rewrite (exitViewerMode_run s point Hp).
  - apply Hnever; [|intros (_ & [?|[[? _]|[? _]]]); done].
    by rewrite (exitViewerMode_run s point Hp).
  - destruct (decide (0 < currentPointIndex (nav s))) as [Hpos|Hpos].
    + destruct (js_index_in_range (surveyData s) (currentPointIndex (nav s) - 1))
        as [point' Hp']; [unfold validIndex in Hvalid; lia|].
      destruct (viewer (engine s)) as [v|] eqn:Hv.
      * apply Hnever; [|by intros (? & _)].
        by rewrite (graph_prevClick_run s point' v Hpos Hp' Hv).
      * rewrite (graph_prevClick_throw s point' Hpos Hp' Hv). cbn [result].
        split; [|done]. intros _. split; [done|]. right. by left.
    + apply Hnever; [by rewrite graph_prevClick_first by lia|].
      intros (_ & [?|[[_ ?]|[? _]]]); done.
  - destruct (decide (currentPointIndex (nav s)
                      < Z.of_nat (length (surveyData s)) - 1)) as [Hlt|Hge].
    + destruct (js_index_in_range (surveyData s) (currentPointIndex (nav s) + 1))
        as [point' Hp']; [unfold validIndex in Hvalid; lia|].
      destruct (viewer (engine s)) as [v|] eqn:Hv.
      * apply Hnever; [|by intros (? & _)].
        by rewrite (graph_nextClick_run s point' v Hlt Hp' Hv).
      * rewrite (graph_nextClick_throw s point' Hlt Hp' Hv). cbn [result].
        split; [|done]. intros _. split; [done|]. right. by right.
    + apply Hnever; [by rewrite graph_nextClick_last by lia|].
      intros (_ & [?|[[? _]|[_ ?]]]); done.
  - destruct (viewer (engine s)) as [v|] eqn:Hv.
    + apply Hnever; [|by intros (? & _)].
      by rewrite (graph_switchViewClick_run s point v Hp Hv).
    + rewrite (graph_switchViewClick_throw s point Hp Hv). cbn [result].
      split; [|done]. intros _. split; [done|]. by left.
  - apply Hnever; [|intros (_ & [?|[[? _]|[? _]]]); done].
    destruct Heng as [(Hi & Hv & Hd)|(Hi & [v Hv] & Hd)].
    + pose proof (timeoutFires_run env s _ point
                 (initViewer_run env
                    (set_engine (fun e => with_pendingTimeouts
                                            (Nat.pred (pendingTimeouts e)) e) s)
                    point Hi Hp) Hp) as Hrun.
      cbn [Graph.handler] in Hrun. by rewrite Hrun.
    + pose proof (timeoutFires_run env s _ point
                 (initViewer_skip env
                    (set_engine (fun e => with_pendingTimeouts
                                            (Nat.pred (pendingTimeouts e)) e) s)
                    Hi) Hp) as Hrun.
      cbn [Graph.handler] in Hrun. by rewrite Hrun.
  - destruct (viewer (engine s)) as [v|] eqn:Hv; [|done].
    apply Hnever; [|by intros (? & _)].
    by rewrite (loadListener_run s v Hv).
  - destruct (viewer (engine s)) as [v|] eqn:Hv; [|done].
    apply Hnever; [|by intros (? & _)].
    destruct image as [image|]; [|done].
    destruct (truthy (Graph.image_point_id image)) eqn:Ht;
      [|by rewrite imageListener_ignored by (by left)].
    destruct (findIndex_range
                (fun p => strict_eq (id p) (Graph.image_point_id image))
                (surveyData s)) as [Hnone|Hrange];
      [by rewrite imageListener_ignored by (by right)|].
    destruct (js_index_in_range _ _ Hrange) as [point' Hp'].
    destruct (isViewerMode (nav s)) eqn:Hmode.
    + by rewrite (imageListener_run s image _ point' v Ht eq_refl Hp' Hmode Hv).
    + assert (Hne : findIndex (fun p => strict_eq (id p)
                                          (Graph.image_point_id image))
                              (surveyData s) ≠ -1) by lia.
      by rewrite (imageListener_silent s image _ Ht eq_refl Hne Hmode).
Qed.

Lemma graph_handler_throws_only_before_start_on_sample :
  result (Graph.handler sampleEnv Graph.SwitchViewClick sampleGraphPending) = None
  ∧ result (Graph.handler sampleEnv Graph.SwitchViewClick sampleGraphViewer)
    ≠ None.
Proof.
  split.
  - apply (graph_handler_throws_only_before_start sampleEnv codeUnitCompare
             (PapaComplete sampleData) sampleGraphPending Graph.SwitchViewClick).
    + apply Graph.reach_step; [by apply Graph.reach_init|]. simpl. lia.
    + exact I.
    + split; [reflexivity|by left].
  - intros Hthrow.
    apply (graph_handler_throws_only_before_start sampleEnv codeUnitCompare
             (PapaComplete sampleData) sampleGraphViewer Graph.SwitchViewClick
             sampleGraphViewer_reachable I) in Hthrow as [Hnone _].
    discriminate Hnone.
Defined.

(** ** Moving along the survey *)

Lemma State_eq (a b : State) :
  surveyData a = surveyData b → nav a = nav b → engine a = engine b →
  page a = page b → a = b.
Proof. destruct a, b. simpl. by intros -> -> -> ->. Qed.

Lemma Page_eq (a b : Page) :
  markers a = markers b → mapView a = mapView b →
  minimapView a = minimapView b → minimapCircles a = minimapCircles b →
  viewerContainerActive a = viewerContainerActive b →
  titleInfo a = titleInfo b → prevDisabled a = prevDisabled b →
  nextDisabled a = nextDisabled b → surveyImageSrc a = surveyImageSrc b →
  a = b.
Proof. destruct a, b. simpl. by intros -> -> -> -> -> -> -> -> ->. Qed.

Lemma flatRefreshed_twice i j p q s :
  flatRefreshed i p (flatRefreshed j q s) = flatRefreshed i p s.
Proof.
  apply State_eq; [reflexivity..|].
  apply Page_eq; try reflexivity.
  change (restyle i (restyle j (markers (page s))) = restyle i (markers (page s))).
  apply restyle_restyle.
Qed.

Lemma flatRefreshed_synced s point :
  pointAt s = Some point →
  imagerySynced s → infoSynced s → minimapSynced s → highlightSynced s →
  flatRefreshed (currentPointIndex (nav s)) point s = s.
Proof.
  intros Hp (p1 & Hp1 & Hsrc) (p2 & Hp2 & Hinfo & Hprev & Hnext)
    (p3 & Hp3 & Hmv & Hmc) (_ & Hhl).
  assert (p1 = point) as -> by congruence.
  assert (p2 = point) as -> by congruence.
  assert (p3 = point) as -> by congruence.
  apply State_eq; [reflexivity|by destruct s as [? [] ? ?]|reflexivity|].
  apply Page_eq; try reflexivity.
  - symmetry. exact Hhl.
  - symmetry. exact Hmv.
  - symmetry. exact Hmc.
  - etransitivity; [|symmetry; exact Hinfo]. by destruct s as [? [] ? ?].
  - symmetry. exact Hprev.
  - symmetry. exact Hnext.
  - symmetry. exact Hsrc.
Qed.

Lemma graphRefreshed_twice i j p q s :
  graphRefreshed i p (graphRefreshed j q s) = graphRefreshed i p s.
Proof.
  apply State_eq; [reflexivity..|].
  apply Page_eq; try reflexivity.
  change (restyle i (restyle j (markers (page s))) = restyle i (markers (page s))).
  apply restyle_restyle.
Qed.

Lemma graphRefreshed_displays_synced s point :
  pointAt s = Some point →
  infoSynced s → minimapSynced s → highlightSynced s →
  graphRefreshed (currentPointIndex (nav s)) point s = showInViewer point s.
Proof.
  intros Hp (p2 & Hp2 & Hinfo & Hprev & Hnext) (p3 & Hp3 & Hmv & Hmc) (_ & Hhl).
  assert (p2 = point) as -> by congruence.
  assert (p3 = point) as -> by congruence.
  apply State_eq; [reflexivity|by destruct s as [? [] ? ?]|reflexivity|].
  apply Page_eq; try reflexivity.
  - symmetry. exact Hhl.
  - symmetry. exact Hmv.
  - symmetry. exact Hmc.
  - etransitivity; [|symmetry; exact Hinfo]. by destruct s as [? [] ? ?].
  - symmetry. exact Hprev.
  - symmetry. exact Hnext.
Qed.

Lemma showInViewer_synced s point :
  pointAt s = Some point → viewerSynced s → showInViewer point s = s.
Proof.
  intros Hp (q & Hq & Hvw). assert (q = point) as -> by congruence.
  apply State_eq; [reflexivity..| |reflexivity].
  destruct s as [? ? [] ?]. unfold showInViewer, set_engine, with_viewer.
  simpl in *. by rewrite Hvw.
Qed.

Lemma flat_next_moves s point :
  currentPointIndex (nav s) < Z.of_nat (length (surveyData s)) - 1 →
  js_index (surveyData s) (currentPointIndex (nav s) + 1) = Some point →
  Flat.step Flat.NextClick s = flatRefreshed (currentPointIndex (nav s) + 1) point s.
Proof.
  intros Hlt Hp. unfold Flat.step, Flat.handler.
  by rewrite (nextClick_run s point Hlt Hp).
Qed.

Lemma flat_prev_moves s point :
  0 < currentPointIndex (nav s) →
  js_index (surveyData s) (currentPointIndex (nav s) - 1) = Some point →
  Flat.step Flat.PrevClick s = flatRefreshed (currentPointIndex (nav s) - 1) point s.
Proof.
  intros Hpos Hp. unfold Flat.step, Flat.handler.
  by rewrite (prevClick_run s point Hpos Hp).
Qed.

Lemma graph_next_moves env s point v :
  currentPointIndex (nav s) < Z.of_nat (length (surveyData s)) - 1 →
  js_index (surveyData s) (currentPointIndex (nav s) + 1) = Some point →
  viewer (engine s) = Some v →
  Graph.step env Graph.NextClick s
  = graphRefreshed (currentPointIndex (nav s) + 1) point s.
Proof.
  intros Hlt Hp Hv. unfold Graph.step, Graph.handler.
  by rewrite (graph_nextClick_run s point v Hlt Hp Hv).
Qed.

Lemma graph_prev_moves env s point v :
  0 < currentPointIndex (nav s) →
  js_index (surveyData s) (currentPointIndex (nav s) - 1) = Some point →
  viewer (engine s) = Some v →
  Graph.step env Graph.PrevClick s
  = graphRefreshed (currentPointIndex (nav s) - 1) point s.
Proof.
  intros Hpos Hp Hv. unfold Graph.step, Graph.handler.
  by rewrite (graph_prevClick_run s point v Hpos Hp Hv).
Qed.

(** A next click below the last index followed by a prev click, and a prev
    click above index 0 followed by a next click, amount to one refresh at
    the index the state had. *)
Lemma flat_next_then_prev s point :
  validIndex s → pointAt s = Some point →
  currentPointIndex (nav s) < Z.of_nat (length (surveyData s)) - 1 →
  currentPointIndex (nav (Flat.step Flat.NextClick s))
  = currentPointIndex (nav s) + 1
  ∧ Flat.step Flat.PrevClick (Flat.step Flat.NextClick s)
    = flatRefreshed (currentPointIndex (nav s)) point s.
Proof.
  intros Hvalid Hp Hlt. unfold validIndex in Hvalid.
  destruct (js_index_in_range (surveyData s) (currentPointIndex (nav s) + 1))
    as [point' Hp']; [lia|].
  rewrite (flat_next_moves s point' Hlt Hp'). split; [reflexivity|].
  set (i := currentPointIndex (nav s)) in *.
  assert (Hi : currentPointIndex (nav (flatRefreshed (i + 1) point' s)) - 1 = i).
  { change (i + 1 - 1 = i). lia. }
  rewrite (flat_prev_moves _ point).
  - rewrite Hi. apply flatRefreshed_twice.
  - change (0 < i + 1). lia.
  - rewrite Hi. exact Hp.
Qed.

Lemma flat_prev_then_next s point :
  validIndex s → pointAt s = Some point →
  0 < currentPointIndex (nav s) →
  currentPointIndex (nav (Flat.step Flat.PrevClick s))
  = currentPointIndex (nav s) - 1
  ∧ Flat.step Flat.NextClick (Flat.step Flat.PrevClick s)
    = flatRefreshed (currentPointIndex (nav s)) point s.
Proof.
  intros Hvalid Hp Hpos. unfold validIndex in Hvalid.
  destruct (js_index_in_range (surveyData s) (currentPointIndex (nav s) - 1))
    as [point' Hp']; [lia|].
  rewrite (flat_prev_moves s point' Hpos Hp'). split; [reflexivity|].
  set (i := currentPointIndex (nav s)) in *.
  assert (Hi : currentPointIndex (nav (flatRefreshed (i - 1) point' s)) + 1 = i).
  { change (i - 1 + 1 = i). lia. }
  rewrite (flat_next_moves _ point).
  - rewrite Hi. apply flatRefreshed_twice.
  - change (i - 1 < Z.of_nat (length (surveyData s)) - 1). lia.
  - rewrite Hi. exact Hp.
Qed.

Lemma graph_next_then_prev env s point v :
  validIndex s → pointAt s = Some point → viewer (engine s) = Some v →
  currentPointIndex (nav s) < Z.of_nat (length (surveyData s)) - 1 →
  currentPointIndex (nav (Graph.step env Graph.NextClick s))
  = currentPointIndex (nav s) + 1
  ∧ Graph.step env Graph.PrevClick (Graph.step env Graph.NextClick s)
    = graphRefreshed (currentPointIndex (nav s)) point s.
Proof.
  intros Hvalid Hp Hv Hlt. unfold validIndex in Hvalid.
  destruct (js_index_in_range (surveyData s) (currentPointIndex (nav s) + 1))
    as [point' Hp']; [lia|].
  rewrite (graph_next_moves env s point' v Hlt Hp' Hv). split; [reflexivity|].
  set (i := currentPointIndex (nav s)) in *.
  assert (Hi : currentPointIndex (nav (graphRefreshed (i + 1) point' s)) - 1 = i).
  { change (i + 1 - 1 = i). lia. }
  rewrite (graph_prev_moves env _ point
             (MkViewer (imageIdOf point' (isShowingFront (nav s))))).
  - rewrite Hi. apply graphRefreshed_twice.
  - change (0 < i + 1). lia.
  - rewrite Hi. exact Hp.
  - reflexivity.
Qed.

Lemma graph_prev_then_next env s point v :
  validIndex s → pointAt s = Some point → viewer (engine s) = Some v →
  0 < currentPointIndex (nav s) →
  currentPointIndex (nav (Graph.step env Graph.PrevClick s))
  = currentPointIndex (nav s) - 1
  ∧ Graph.step env Graph.NextClick (Graph.step env Graph.PrevClick s)
    = graphRefreshed (currentPointIndex (nav s)) point s.
Proof.
  intros Hvalid Hp Hv Hpos. unfold validIndex in Hvalid.
  destruct (js_index_in_range (surveyData s) (currentPointIndex (nav s) - 1))
    as [point' Hp']; [lia|].
  rewrite (graph_prev_moves env s point' v Hpos Hp' Hv). split; [reflexivity|].
  set (i := currentPointIndex (nav s)) in *.
  assert (Hi : currentPointIndex (nav (graphRefreshed (i - 1) point' s)) + 1 = i).
  { change (i - 1 + 1 = i). lia. }
  rewrite (graph_next_moves env _ point
             (MkViewer (imageIdOf point' (isShowingFront (nav s))))).
  - rewrite Hi. apply graphRefreshed_twice.
  - change (i - 1 < Z.of_nat (length (surveyData s)) - 1). lia.
  - rewrite Hi. exact Hp.
  - reflexivity.
Qed.

(** In the flat-image front end, from every reachable state with the viewer
    open: a next click below the last index followed by a prev click, and a
    prev click above index 0 followed by a next click, restore the entire
    state, the image, info panel, minimap and highlight included. *)
Theorem flat_next_prev_round_trip (localeCompare : string → string → Z)
    (results : PapaOutcome SurveyPoint) (s : State) :
  Flat.reachable localeCompare results s →
  isViewerMode (nav s) = true →
  (currentPointIndex (nav s) < Z.of_nat (length (surveyData s)) - 1 →
   currentPointIndex (nav (Flat.step Flat.NextClick s))
   = currentPointIndex (nav s) + 1
   ∧ Flat.step Flat.PrevClick (Flat.step Flat.NextClick s) = s)
  ∧ (0 < currentPointIndex (nav s) →
     currentPointIndex (nav (Flat.step Flat.PrevClick s))
     = currentPointIndex (nav s) - 1
     ∧ Flat.step Flat.NextClick (Flat.step Flat.PrevClick s) = s).
Proof.
  intros Hreach Hmode. apply FlatInv_reachable in Hreach as Hinv.
  pose proof Hinv as [Hvalid Hhl _ _ _ Hview].
  destruct (Hview Hmode) as (Himg & Hinfo & Hmini).
  destruct (pointAt_valid s Hvalid) as [point Hp].
  pose proof (flatRefreshed_synced s point Hp Himg Hinfo Hmini Hhl) as Hsame.
  split.
  - intros Hlt.
    destruct (flat_next_then_prev s point Hvalid Hp Hlt) as [Hindex Hback].
    split; [exact Hindex|]. by rewrite Hback.
  - intros Hpos.
    destruct (flat_prev_then_next s point Hvalid Hp Hpos) as [Hindex Hback].
    split; [exact Hindex|]. by rewrite Hback.
Qed.

Lemma flat_next_prev_round_trip_on_sample :
  Flat.step Flat.PrevClick (Flat.step Flat.NextClick sampleFlatViewer)
  = sampleFlatViewer
  ∧ Flat.step Flat.NextClick (Flat.step Flat.PrevClick sampleFlatViewer)
    = sampleFlatViewer.
Proof.
  destruct (flat_next_prev_round_trip codeUnitCompare (PapaComplete sampleData)
              sampleFlatViewer sampleFlatViewer_reachable eq_refl)
    as [Hnext Hprev].
  split.
  - apply Hnext. reflexivity.
  - apply Hprev. reflexivity.
Defined.

(** In the graph-based front end, from every reachable state with the viewer
    open and the engine started: a next click below the last index followed
    by a prev click, and a prev click above index 0 followed by a next
    click, restore the index, the side and every display, and leave the
    viewer on the image of that index and side; the entire state is restored
    when the viewer was on that image before. *)
Theorem graph_next_prev_round_trip (env : Env)
    (localeCompare : string → string → Z)
    (results : PapaOutcome SurveyPoint) (s : State) :
  Graph.reachable env localeCompare results s →
  isViewerMode (nav s) = true →
  viewerInitialized (engine s) = true →
  ∃ point, pointAt s = Some point
    ∧ (currentPointIndex (nav s) < Z.of_nat (length (surveyData s)) - 1 →
       currentPointIndex (nav (Graph.step env Graph.NextClick s))
       = currentPointIndex (nav s) + 1
       ∧ Graph.step env Graph.PrevClick (Graph.step env Graph.NextClick s)
         = showInViewer point s)
    ∧ (0 < currentPointIndex (nav s) →
       currentPointIndex (nav (Graph.step env Graph.PrevClick s))
       = currentPointIndex (nav s) - 1
       ∧ Graph.step env Graph.NextClick (Graph.step env Graph.PrevClick s)
         = showInViewer point s)
    ∧ (viewerSynced s → showInViewer point s = s).
Proof.
  intros Hreach Hmode Hinit.
  destruct (graph_reachable_inv _ _ _ _ Hreach)
    as (data & _ & [[Hvalid Hlen] _ Heng _ _ Hdisp]).
  destruct (Hdisp Hmode Hinit) as (Hinfo & Hmini & Hhl).
  destruct Heng as [(Hi & _)|(_ & [v Hv] & _)]; [congruence|].
  destruct (pointAt_valid s Hvalid) as [point Hp].
  pose proof (graphRefreshed_displays_synced s point Hp Hinfo Hmini Hhl) as Hsame.
  exists point. split; [done|]. split; [|split].
  - intros Hlt.
    destruct (graph_next_then_prev env s point v Hvalid Hp Hv Hlt)
      as [Hindex Hback].
    split; [exact Hindex|]. by rewrite Hback.
  - intros Hpos.
    destruct (graph_prev_then_next env s point v Hvalid Hp Hv Hpos)
      as [Hindex Hback].
    split; [exact Hindex|]. by rewrite Hback.
  - by apply showInViewer_synced.
Qed.

Lemma graph_next_prev_round_trip_on_sample :
  Graph.step sampleEnv Graph.PrevClick
    (Graph.step sampleEnv Graph.NextClick sampleGraphViewer)
  = sampleGraphViewer
  ∧ Graph.step sampleEnv Graph.NextClick
      (Graph.step sampleEnv Graph.PrevClick sampleGraphViewer)
    = sampleGraphViewer.
Proof.
  destruct (graph_next_prev_round_trip sampleEnv codeUnitCompare
              (PapaComplete sampleData) sampleGraphViewer
              sampleGraphViewer_reachable eq_refl eq_refl)
    as (point & Hp & Hnext & Hprev & Hsame).
  assert (Hs : showInViewer point sampleGraphViewer = sampleGraphViewer).
  { apply Hsame. exists (samplePoint 2 180). split; reflexivity. }
  rewrite Hs in Hnext, Hprev. split.
  - apply Hnext. reflexivity.
  - apply Hprev. reflexivity.
Defined.

Lemma flat_prev_noop_iff s :
  FlatInv s →
  Flat.step Flat.PrevClick s = s ↔ currentPointIndex (nav s) = 0.
Proof.
  intros [Hvalid _ _ _ _ _]. unfold validIndex in Hvalid. split.
  - intros Hsame.
    destruct (decide (0 < currentPointIndex (nav s))) as [Hpos|Hpos]; [|lia].
    destruct (js_index_in_range (surveyData s) (currentPointIndex (nav s) - 1))
      as [point' Hp']; [lia|].
    rewrite (flat_prev_moves s point' Hpos Hp') in Hsame.
    apply (f_equal (fun s => currentPointIndex (nav s))) in Hsame.
    change (currentPointIndex (nav s) - 1 = currentPointIndex (nav s)) in Hsame.
    lia.
  - intros H0. unfold Flat.step, Flat.handler. rewrite prevClick_first; [done|lia].
Qed.

Lemma flat_next_noop_iff s :
  FlatInv s →
  Flat.step Flat.NextClick s = s
  ↔ currentPointIndex (nav s) = Z.of_nat (length (surveyData s)) - 1.
Proof.
  intros [Hvalid _ _ _ _ _]. unfold validIndex in Hvalid. split.
  - intros Hsame.
    destruct (decide (currentPointIndex (nav s)
                      < Z.of_nat (length (surveyData s)) - 1)) as [Hlt|Hge]; [|lia].
    destruct (js_index_in_range (surveyData s) (currentPointIndex (nav s) + 1))
      as [point' Hp']; [lia|].
    rewrite (flat_next_moves s point' Hlt Hp') in Hsame.
    apply (f_equal (fun s => currentPointIndex (nav s))) in Hsame.
    change (currentPointIndex (nav s) + 1 = currentPointIndex (nav s)) in Hsame.
    lia.
  - intros Hlast. unfold Flat.step, Flat.handler.
    rewrite nextClick_last; [done|lia].
Qed.

(** The index after a prev or next click of the graph-based front end,
    whether or not the viewer exists. *)
Lemma graph_prev_index env s :
  validIndex s →
  currentPointIndex (nav (Graph.step env Graph.PrevClick s))
  = Z.max (currentPointIndex (nav s) - 1) 0
  ∧ surveyData (Graph.step env Graph.PrevClick s) = surveyData s.
Proof.
  intros Hvalid. unfold validIndex in Hvalid.
  destruct (decide (0 < currentPointIndex (nav s))) as [Hpos|Hpos].
  - destruct (js_index_in_range (surveyData s) (currentPointIndex (nav s) - 1))
      as [point' Hp']; [lia|].
    unfold Graph.step, Graph.handler.
    destruct (viewer (engine s)) as [v|] eqn:Hv.
    + rewrite (graph_prevClick_run s point' v Hpos Hp' Hv).
      split; [|reflexivity].
      change (currentPointIndex (nav s) - 1
              = Z.max (currentPointIndex (nav s) - 1) 0). lia.
    + rewrite (graph_prevClick_throw s point' Hpos Hp' Hv).
      split; [|reflexivity].
      change (currentPointIndex (nav s) - 1
              = Z.max (currentPointIndex (nav s) - 1) 0). lia.
  - unfold Graph.step, Graph.handler. rewrite graph_prevClick_first by lia.
    cbn [final]. split; [lia|done].
Qed.

Lemma graph_next_index env s :
  validIndex s →
  currentPointIndex (nav (Graph.step env Graph.NextClick s))
  = Z.min (currentPointIndex (nav s) + 1) (Z.of_nat (length (surveyData s)) - 1)
  ∧ surveyData (Graph.step env Graph.NextClick s) = surveyData s.
Proof.
  intros Hvalid. unfold validIndex in Hvalid.
  destruct (decide (currentPointIndex (nav s)
                    < Z.of_nat (length (surveyData s)) - 1)) as [Hlt|Hge].
  - destruct (js_index_in_range (surveyData s) (currentPointIndex (nav s) + 1))
      as [point' Hp']; [lia|].
    unfold Graph.step, Graph.handler.
    destruct (viewer (engine s)) as [v|] eqn:Hv.
    + rewrite (graph_nextClick_run s point' v Hlt Hp' Hv).
      split; [|reflexivity].
      change (currentPointIndex (nav s) + 1
              = Z.min (currentPointIndex (nav s) + 1)
                      (Z.of_nat (length (surveyData s)) - 1)). lia.
    + rewrite (graph_nextClick_throw s point' Hlt Hp' Hv).
      split; [|reflexivity].
      change (currentPointIndex (nav s) + 1
              = Z.min (currentPointIndex (nav s) + 1)
                      (Z.of_nat (length (surveyData s)) - 1)). lia.
  - unfold Graph.step, Graph.handler. rewrite graph_nextClick_last by lia.
    cbn [final]. split; [lia|done].
Qed.

Lemma flat_prev_index s :
  FlatInv s →
  currentPointIndex (nav (Flat.step Flat.PrevClick s))
  = Z.max (currentPointIndex (nav s) - 1) 0.
Proof.
  intros [Hvalid _ _ _ _ _]. unfold validIndex in Hvalid.
  destruct (decide (0 < currentPointIndex (nav s))) as [Hpos|Hpos].
  - destruct (js_index_in_range (surveyData s) (currentPointIndex (nav s) - 1))
      as [point' Hp']; [lia|].
    rewrite (flat_prev_moves s point' Hpos Hp').
    change (currentPointIndex (nav s) - 1
            = Z.max (currentPointIndex (nav s) - 1) 0). lia.
  - unfold Flat.step, Flat.handler. rewrite prevClick_first by lia.
    cbn [final]. lia.
Qed.

Lemma flat_next_index s :
  FlatInv s →
  currentPointIndex (nav (Flat.step Flat.NextClick s))
  = Z.min (currentPointIndex (nav s) + 1) (Z.of_nat (length (surveyData s)) - 1).
Proof.
  intros [Hvalid _ _ _ _ _]. unfold validIndex in Hvalid.
  destruct (decide (currentPointIndex (nav s)
                    < Z.of_nat (length (surveyData s)) - 1)) as [Hlt|Hge].
  - destruct (js_index_in_range (surveyData s) (currentPointIndex (nav s) + 1))
      as [point' Hp']; [lia|].
    rewrite (flat_next_moves s point' Hlt Hp').
    change (currentPointIndex (nav s) + 1
            = Z.min (currentPointIndex (nav s) + 1)
                    (Z.of_nat (length (surveyData s)) - 1)). lia.
  - unfold Flat.step, Flat.handler. rewrite nextClick_last by lia.
    cbn [final]. lia.
Qed.

(** While the viewer is open, and in the graph-based front end once the
    engine has started, a navigation button is disabled exactly when a click
    on it would change nothing: the prev button at index 0 and the next
    button at the last index, and there only. *)
Theorem disabled_buttons_are_the_noops (env : Env)
    (localeCompare : string → string → Z)
    (results : PapaOutcome SurveyPoint) (s : State) :
  (Flat.reachable localeCompare results s →
   isViewerMode (nav s) = true →
   (prevDisabled (page s) = true ↔ Flat.step Flat.PrevClick s = s)
   ∧ (nextDisabled (page s) = true ↔ Flat.step Flat.NextClick s = s))
  ∧ (Graph.reachable env localeCompare results s →
     isViewerMode (nav s) = true →
     viewerInitialized (engine s) = true →
     (prevDisabled (page s) = true ↔ Graph.step env Graph.PrevClick s = s)
     ∧ (nextDisabled (page s) = true ↔ Graph.step env Graph.NextClick s = s)).
Proof.
  split.
  - intros Hreach Hmode. apply FlatInv_reachable in Hreach as Hinv.
    destruct (flat_viewer s Hinv Hmode) as (_ & (p & _ & _ & Hprev & Hnext) & _).
    rewrite Hprev, Hnext, !Z.eqb_eq.
    split; symmetry; [by apply flat_prev_noop_iff|by apply flat_next_noop_iff].
  - intros Hreach Hmode Hinit.
    destruct (graph_reachable_inv _ _ _ _ Hreach)
      as (data & _ & [[Hvalid Hlen] _ _ _ _ Hdisp]).
    destruct (Hdisp Hmode Hinit) as ((p & _ & _ & Hprev & Hnext) & _ & _).
    rewrite Hprev, Hnext, !Z.eqb_eq.
    pose proof Hvalid as Hrange. unfold validIndex in Hrange. split; split.
    + intros H0. unfold Graph.step, Graph.handler.
      rewrite graph_prevClick_first; [done|lia].
    + intros Hsame. apply (f_equal (fun s => currentPointIndex (nav s))) in Hsame.
      rewrite (proj1 (graph_prev_index env s Hvalid)) in Hsame. lia.
    + intros Hlast. unfold Graph.step, Graph.handler.
      rewrite graph_nextClick_last; [done|lia].
    + intros Hsame. apply (f_equal (fun s => currentPointIndex (nav s))) in Hsame.
      rewrite (proj1 (graph_next_index env s Hvalid)) in Hsame. lia.
Qed.

Lemma disabled_buttons_are_the_noops_on_sample :
  nextDisabled (page (Flat.step Flat.NextClick sampleFlatViewer)) = true
  ∧ Graph.step sampleEnv Graph.PrevClick sampleGraphViewer ≠ sampleGraphViewer.
Proof.
  split.
  - assert (Hreach : Flat.reachable codeUnitCompare (PapaComplete sampleData)
                       (Flat.step Flat.NextClick sampleFlatViewer))
      by (apply Flat.reach_step; [exact sampleFlatViewer_reachable|exact I]).
    destruct (proj1 (disabled_buttons_are_the_noops sampleEnv codeUnitCompare
                       (PapaComplete sampleData)
                       (Flat.step Flat.NextClick sampleFlatViewer))
                Hreach eq_refl) as [_ [_ Hnext]].
    apply Hnext. vm_compute. reflexivity.
  - intros Hsame.
    destruct (proj2 (disabled_buttons_are_the_noops sampleEnv codeUnitCompare
                       (PapaComplete sampleData) sampleGraphViewer)
                sampleGraphViewer_reachable eq_refl eq_refl) as [[_ Hprev] _].
    apply Hprev in Hsame. vm_compute in Hsame. discriminate Hsame.
Defined.

Ltac iter_succ :=
  repeat match goal with
  | |- context [Nat.iter (S ?n) ?f ?x] =>
      change (Nat.iter (S n) f x) with (f (Nat.iter n f x))
  end.

Lemma flat_iter_reachable localeCompare results e s n :
  (∀ s', Flat.enabled e s') →
  Flat.reachable localeCompare results s →
  Flat.reachable localeCompare results (Nat.iter n (Flat.step e) s).
Proof.
  intros Hen Hreach. induction n as [|n IH]; [done|].
  iter_succ. by apply Flat.reach_step.
Qed.

Lemma graph_iter_reachable env localeCompare results e s n :
  (∀ s', Graph.enabled e s') →
  Graph.reachable env localeCompare results s →
  Graph.reachable env localeCompare results (Nat.iter n (Graph.step env e) s).
Proof.
  intros Hen Hreach. induction n as [|n IH]; [done|].
  iter_succ. by apply Graph.reach_step.
Qed.

Lemma flat_iter_data e s n :
  (∀ s', Flat.enabled e s') → FlatInv s →
  FlatInv (Nat.iter n (Flat.step e) s)
  ∧ surveyData (Nat.iter n (Flat.step e) s) = surveyData s.
Proof.
  intros Hen Hinv. induction n as [|n [IHinv IHdata]]; [done|].
  iter_succ. split; [by apply FlatInv_step|].
  by rewrite flat_step_data.
Qed.

(** Repeated clicks stop at the ends of the survey: from a reachable state
    at index i of a dataset of n points, k clicks on next lead to index
    min(i + k, n - 1) and k clicks on prev to index max(i - k, 0), in the
    graph-based front end also while the viewer does not exist and the
    handlers throw. *)
Theorem repeated_clicks_stop_at_the_ends (env : Env)
    (localeCompare : string → string → Z)
    (results : PapaOutcome SurveyPoint) (s : State) (k : nat) :
  (Flat.reachable localeCompare results s →
   currentPointIndex (nav (Nat.iter k (Flat.step Flat.NextClick) s))
   = Z.min (currentPointIndex (nav s) + Z.of_nat k)
           (Z.of_nat (length (surveyData s)) - 1)
   ∧ currentPointIndex (nav (Nat.iter k (Flat.step Flat.PrevClick) s))
     = Z.max (currentPointIndex (nav s) - Z.of_nat k) 0)
  ∧ (Graph.reachable env localeCompare results s →
     currentPointIndex (nav (Nat.iter k (Graph.step env Graph.NextClick) s))
     = Z.min (currentPointIndex (nav s) + Z.of_nat k)
             (Z.of_nat (length (surveyData s)) - 1)
     ∧ currentPointIndex (nav (Nat.iter k (Graph.step env Graph.PrevClick) s))
       = Z.max (currentPointIndex (nav s) - Z.of_nat k) 0).
Proof.
  split.
  - intros Hreach. apply FlatInv_reachable in Hreach as Hinv.
    pose proof (flat_valid s Hinv) as Hvalid. unfold validIndex in Hvalid.
    split; induction k as [|k IH].
    + cbn [Nat.iter nat_rect]. lia.
    + destruct (flat_iter_data Flat.NextClick s k (fun _ => I) Hinv)
        as [Hinvk Hdatak].
      iter_succ. rewrite (flat_next_index _ Hinvk), IH, Hdatak. lia.
    + cbn [Nat.iter nat_rect]. lia.
    + destruct (flat_iter_data Flat.PrevClick s k (fun _ => I) Hinv)
        as [Hinvk Hdatak].
      iter_succ. rewrite (flat_prev_index _ Hinvk), IH. lia.
  - intros Hreach.
    pose proof (IndexInv_graph_reachable env _ _ _ Hreach) as [Hvalid _].
    pose proof Hvalid as Hrange. unfold validIndex in Hrange.
    assert (Hnextv : ∀ n,
      validIndex (Nat.iter n (Graph.step env Graph.NextClick) s)).
    { intros n.
      eapply IndexInv_graph_reachable, graph_iter_reachable; [done|exact Hreach]. }
    assert (Hnextd : ∀ n,
      surveyData (Nat.iter n (Graph.step env Graph.NextClick) s) = surveyData s).
    { induction n as [|n IHn]; [done|]. iter_succ.
      by rewrite (proj2 (graph_next_index env _ (Hnextv n))). }
    assert (Hprev : ∀ n,
      validIndex (Nat.iter n (Graph.step env Graph.PrevClick) s)).
    { intros n.
      eapply IndexInv_graph_reachable, graph_iter_reachable; [done|exact Hreach]. }
    split; induction k as [|k IH].
    + cbn [Nat.iter nat_rect]. lia.
    + iter_succ.
      rewrite (proj1 (graph_next_index env _ (Hnextv k))), IH, (Hnextd k). lia.
    + cbn [Nat.iter nat_rect]. lia.
    + iter_succ. rewrite (proj1 (graph_prev_index env _ (Hprev k))), IH. lia.
Qed.

Lemma repeated_clicks_stop_at_the_ends_on_sample :
  currentPointIndex (nav (Nat.iter 5 (Flat.step Flat.NextClick) sampleFlatViewer))
  = 2
  ∧ currentPointIndex
      (nav (Nat.iter 5 (Graph.step sampleEnv Graph.PrevClick) sampleGraphViewer))
    = 0.
Proof.
  destruct (repeated_clicks_stop_at_the_ends sampleEnv codeUnitCompare
              (PapaComplete sampleData) sampleFlatViewer 5) as [Hflat _].
  destruct (repeated_clicks_stop_at_the_ends sampleEnv codeUnitCompare
              (PapaComplete sampleData) sampleGraphViewer 5) as [_ Hgraph].
  destruct (Hflat sampleFlatViewer_reachable) as [Hnext _].
  destruct (Hgraph sampleGraphViewer_reachable) as [_ Hprev].
  split.
  - etransitivity; [exact Hnext|]. vm_compute. reflexivity.
  - etransitivity; [exact Hprev|]. vm_compute. reflexivity.
Defined.

(** ** The image listener *)

Lemma findIndex_from_first {A} (pred : A → bool) arr : ∀ k i x,
  arr !! i = Some x → pred x = true →
  (∀ j y, (j < i)%nat → arr !! j = Some y → pred y = false) →
  findIndex_from pred arr k = k + Z.of_nat i.
Proof.
  induction arr as [|a arr IH]; intros k i x Hi Hx Hbefore; [done|].
  destruct i as [|i]; simpl in *.
  - injection Hi as ->. rewrite Hx. lia.
  - rewrite (Hbefore 0%nat a) by (done || lia).
    rewrite (IH (k + 1) i x Hi Hx); [lia|].
    intros j y Hj Hy. apply (Hbefore (S j) y); [lia|done].
Qed.

Lemma findIndex_from_none {A} (pred : A → bool) arr : ∀ k,
  (∀ x, x ∈ arr → pred x = false) → findIndex_from pred arr k = -1.
Proof.
  induction arr as [|a arr IH]; intros k Hnone; [done|]. simpl.
  rewrite (Hnone a) by apply list_elem_of_here.
  apply IH. intros x Hx. apply Hnone. by apply list_elem_of_further.
Qed.

Lemma substring_whole (s : string) : String.substring 0 (String.length s) s = s.
Proof. induction s as [|c s IH]; [done|]. simpl. by rewrite IH. Qed.

Lemma substring_after (a b : string) :
  String.substring (String.length a) (String.length b) (a +:+ b) = b.
Proof.
  induction a as [|c a IH]; [apply substring_whole|].
  rewrite string_app_cons. simpl. exact IH.
Qed.

Lemma includes_suffix (a sub : string) :
  sub ≠ "" → includes (a +:+ sub) sub = true.
Proof.
  intros Hne. unfold includes.
  destruct (String.index 0 sub (a +:+ sub)) eqn:Hindex; [done|].
  apply (String.index_correct3 0 (String.length a)) in Hindex; [|done|lia].
  by rewrite substring_after in Hindex.
Qed.

Lemma string_app_assoc (a b c : string) : a +:+ (b +:+ c) = (a +:+ b) +:+ c.
Proof.
  induction a as [|x a IH]; [done|]. rewrite !string_app_cons. by rewrite IH.
Qed.

Lemma front_id_includes_front point : includes (front_id point) "_front" = true.
Proof.
  unfold front_id. rewrite string_app_assoc. by apply includes_suffix.
Qed.

Lemma imageListener_not_found s image :
  truthy (Graph.image_point_id image) = false
  ∨ (∀ p, p ∈ surveyData s → id p ≠ Graph.image_point_id image) →
  Graph.imageListener (Some image) s = MkOutcome s [] (Some tt).
Proof.
  intros Hcase. apply imageListener_ignored.
  destruct Hcase as [Ht|Hnone]; [by left|right].
  apply findIndex_from_none. intros x Hx. unfold strict_eq.
  apply bool_decide_eq_false. by apply Hnone.
Qed.

Lemma imageListener_found s image v i p :
  viewer (engine s) = Some v →
  truthy (Graph.image_point_id image) = true →
  surveyData s !! i = Some p →
  id p = Graph.image_point_id image →
  (∀ j q, (j < i)%nat → surveyData s !! j = Some q →
     id q ≠ Graph.image_point_id image) →
  nav (final (Graph.imageListener (Some image) s))
  = MkNav (Z.of_nat i) (includes (Graph.image_id image) "_front")
      (isViewerMode (nav s))
  ∧ engine (final (Graph.imageListener (Some image) s)) = engine s
  ∧ result (Graph.imageListener (Some image) s) = Some tt
  ∧ trace (Graph.imageListener (Some image) s)
    = (if isViewerMode (nav s)
       then [ViewerSetZoom; ViewerSetCenter; UpdateViewerInfo;
             UpdateMinimap; HighlightMarker (Z.of_nat i)]
       else []).
Proof.
  intros Hv Ht Hi Hid Hfirst.
  assert (Hindex : findIndex
                     (fun p => strict_eq (id p) (Graph.image_point_id image))
                     (surveyData s) = Z.of_nat i).
  { unfold findIndex. rewrite (findIndex_from_first _ _ 0 i p Hi); [lia| |].
    - unfold strict_eq. by apply bool_decide_eq_true.
    - intros j q Hj Hq. unfold strict_eq. apply bool_decide_eq_false.
      by apply (Hfirst j q). }
  assert (Hp : js_index (surveyData s) (Z.of_nat i) = Some p).
  { unfold js_index. destruct (Z.of_nat i <? 0) eqn:Hneg; [lia|].
    by rewrite Nat2Z.id. }
  assert (Hnav : ∀ b, isViewerMode (nav s) = b →
            with_isShowingFront (includes (Graph.image_id image) "_front")
              (with_currentPointIndex (Z.of_nat i) (nav s))
            = MkNav (Z.of_nat i) (includes (Graph.image_id image) "_front") b).
  { by intros b <-. }
  destruct (isViewerMode (nav s)) eqn:Hmode.
  - rewrite (imageListener_run s image _ p v Ht Hindex Hp Hmode Hv).
    cbn [final result trace]. split; [exact (Hnav true eq_refl)|done].
  - rewrite (imageListener_silent s image _ Ht Hindex ltac:(lia) Hmode).
    cbn [final result trace]. split; [exact (Hnav false eq_refl)|done].
Qed.

(** The ['image'] listener, in any state where the viewer exists. A report
    without image, without a truthy [point_id], or whose [point_id] is the id
    of no survey point changes nothing and refreshes nothing. Any other
    report moves the index to the first survey point with that id, sets the
    side by whether the image id contains [_front], and leaves the mode and
    the viewer as they were; with the viewer open it refits the image and
    refreshes the info panel, the minimap and the highlight, and with the
    viewer closed it refreshes nothing. *)
Theorem imageListener_follows_first_match (env : Env) (s : State)
    (image : Graph.EngineImage) :
  viewer (engine s) ≠ None →
  Graph.handler env (Graph.ViewerImage None) s = MkOutcome s [] (Some tt)
  ∧ (truthy (Graph.image_point_id image) = false
     ∨ (∀ p, p ∈ surveyData s → id p ≠ Graph.image_point_id image) →
     Graph.handler env (Graph.ViewerImage (Some image)) s
     = MkOutcome s [] (Some tt))
  ∧ (truthy (Graph.image_point_id image) = true →
     ∀ i p, surveyData s !! i = Some p →
       id p = Graph.image_point_id image →
       (∀ j q, (j < i)%nat → surveyData s !! j = Some q →
          id q ≠ Graph.image_point_id image) →
       nav (Graph.step env (Graph.ViewerImage (Some image)) s)
       = MkNav (Z.of_nat i) (includes (Graph.image_id image) "_front")
           (isViewerMode (nav s))
       ∧ engine (Graph.step env (Graph.ViewerImage (Some image)) s) = engine s
       ∧ result (Graph.handler env (Graph.ViewerImage (Some image)) s) = Some tt
       ∧ trace (Graph.handler env (Graph.ViewerImage (Some image)) s)
         = (if isViewerMode (nav s)
            then [ViewerSetZoom; ViewerSetCenter; UpdateViewerInfo;
                  UpdateMinimap; HighlightMarker (Z.of_nat i)]
            else [])).
Proof.
  intros Hviewer. split; [done|]. split.
  - apply imageListener_not_found.
  - intros Ht i p Hi Hid Hfirst.
    destruct (viewer (engine s)) as [v|] eqn:Hv; [|done].
    by apply (imageListener_found s image v i p).
Qed.

Lemma imageListener_follows_first_match_on_sample :
  nav (Graph.step sampleEnv
         (Graph.ViewerImage (Some (Graph.MkEngineImage "point3_rear" (JNum 3))))
         sampleGraphViewer)
  = MkNav 2 false true
  ∧ Graph.handler sampleEnv
      (Graph.ViewerImage (Some (Graph.MkEngineImage "point9_front" (JNum 9))))
      sampleGraphViewer
    = MkOutcome sampleGraphViewer [] (Some tt).
Proof.
  destruct (imageListener_follows_first_match sampleEnv sampleGraphViewer
              (Graph.MkEngineImage "point3_rear" (JNum 3)))
    as (_ & _ & Hfound); [done|].
  destruct (imageListener_follows_first_match sampleEnv sampleGraphViewer
              (Graph.MkEngineImage "point9_front" (JNum 9)))
    as (_ & Hignored & _); [done|].
  split.
  - apply (Hfound eq_refl 2%nat (samplePoint 3 270) eq_refl eq_refl).
    intros j q Hj Hq. destruct j as [|[|j]]; [| |lia]; by injection Hq as <-.
  - apply Hignored. right. intros p Hp.
    apply list_elem_of_lookup_1 in Hp as [j Hj].
    destruct j as [|[|[|j]]]; [| | |done]; by injection Hj as <-.
Defined.

(** When the engine shows the front image the provider built for a survey
    point whose id is truthy and is the id of no earlier point, the listener
    sets the index to that point and the side to front: the navigation state
    then names the image the engine is on. *)
Theorem imageListener_follows_provider_front_image (env : Env) (s : State)
    (i calls : nat) (point : SurveyPoint) :
  viewer (engine s) ≠ None →
  surveyData s !! i = Some point →
  truthy (id point) = true →
  (∀ j q, (j < i)%nat → surveyData s !! j = Some q → id q ≠ id point) →
  nav (Graph.step env
         (Graph.ViewerImage (Some (engineImageOf (frontImageOf env calls point))))
         s)
  = MkNav (Z.of_nat i) true (isViewerMode (nav s))
  ∧ imageIdOf point true = ImageEnt.id (frontImageOf env calls point).
Proof.
  intros Hviewer Hi Ht Hfirst. split; [|reflexivity].
  destruct (viewer (engine s)) as [v|] eqn:Hv; [|done].
  destruct (imageListener_found s (engineImageOf (frontImageOf env calls point))
              v i point Hv Ht Hi eq_refl Hfirst) as (Hnav & _).
  unfold Graph.step. cbn [Graph.handler]. rewrite Hnav. f_equal.
  apply front_id_includes_front.
Qed.

Lemma imageListener_follows_provider_front_image_on_sample :
  nav (Graph.step sampleEnv
         (Graph.ViewerImage
            (Some (engineImageOf (frontImageOf sampleEnv 0 (samplePoint 1 90)))))
         sampleGraphViewer)
  = MkNav 0 true true.
Proof.
  apply (imageListener_follows_provider_front_image sampleEnv sampleGraphViewer
           0 0 (samplePoint 1 90)); [done|reflexivity|reflexivity|].
  intros j q Hj. lia.
Defined.

(** * The rear heading *)

(** ** Exact arithmetic on integer-valued numbers

    An integer below 2^53 in magnitude is a double; on such integers the
    rounded sum is the sum while it stays below 2^53, and the remainder is
    the truncated remainder of the integers. *)

Lemma Pos_iter_nat {A} (f : A → A) (x : A) (p : positive) :
  Pos.iter f x p = Nat.iter (Pos.to_nat p) f x.
Proof.
  revert x. induction p as [p IH|p IH|]; intros x; cbn [Pos.iter].
  - rewrite !IH, Pos2Nat.inj_xI, Nat.iter_succ.
    replace (2 * Pos.to_nat p)%nat with (Pos.to_nat p + Pos.to_nat p)%nat by lia.
    by rewrite Nat.iter_add.
  - rewrite !IH, Pos2Nat.inj_xO.
    replace (2 * Pos.to_nat p)%nat with (Pos.to_nat p + Pos.to_nat p)%nat by lia.
    by rewrite Nat.iter_add.
  - done.
Qed.

Lemma iter_pos_nat {A} (f : A → A) (p : positive) (x : A) :
  SpecFloat.iter_pos f p x = Nat.iter (Pos.to_nat p) f x.
Proof.
  revert x. induction p as [p IH|p IH|]; intros x; cbn [SpecFloat.iter_pos].
  - rewrite !IH, Pos2Nat.inj_xI, Nat.iter_succ_r.
    replace (2 * Pos.to_nat p)%nat with (Pos.to_nat p + Pos.to_nat p)%nat by lia.
    by rewrite Nat.iter_add.
  - rewrite !IH, Pos2Nat.inj_xO.
    replace (2 * Pos.to_nat p)%nat with (Pos.to_nat p + Pos.to_nat p)%nat by lia.
    by rewrite Nat.iter_add.
  - done.
Qed.

Lemma digits2_pos_shift (p : positive) (k : nat) :
  Zpos (digits2_pos (Nat.iter k xO p)) = Zpos (digits2_pos p) + Z.of_nat k.
Proof.
  induction k as [|k IH]; [simpl; lia|].
  rewrite Nat.iter_succ. cbn [digits2_pos]. lia.
Qed.

Lemma Zpos_shift (p : positive) (k : nat) :
  Zpos (Nat.iter k xO p) = Zpos p * 2 ^ Z.of_nat k.
Proof.
  induction k as [|k IH]; [simpl; lia|].
  rewrite Nat.iter_succ, Nat2Z.inj_succ, Z.pow_succ_r by lia.
  rewrite Pos2Z.inj_xO, IH. lia.
Qed.

Lemma shr_1_shift (p : positive) (k : nat) :
  Nat.iter k shr_1 (Build_shr_record (Zpos (Nat.iter k xO p)) false false)
  = Build_shr_record (Zpos p) false false.
Proof.
  induction k as [|k IH]; [done|].
  rewrite Nat.iter_succ_r, Nat.iter_succ. exact IH.
Qed.

Lemma digits2_pos_bound (p : positive) :
  2 ^ (Zpos (digits2_pos p) - 1) ≤ Zpos p < 2 ^ Zpos (digits2_pos p).
Proof.
  induction p as [p IH|p IH|]; cbn [digits2_pos]; [| |simpl; lia].
  - rewrite Pos2Z.inj_succ, Z.pow_succ_r by lia.
    replace (Z.succ (Zpos (digits2_pos p)) - 1)
      with (Z.succ (Zpos (digits2_pos p) - 1)) by lia.
    rewrite Z.pow_succ_r by lia. lia.
  - rewrite Pos2Z.inj_succ, Z.pow_succ_r by lia.
    replace (Z.succ (Zpos (digits2_pos p)) - 1)
      with (Z.succ (Zpos (digits2_pos p) - 1)) by lia.
    rewrite Z.pow_succ_r by lia. lia.
Qed.

Lemma digits2_pos_le_53 (p : positive) :
  Zpos p < 2 ^ 53 → Zpos (digits2_pos p) ≤ 53.
Proof.
  intros Hp. pose proof (digits2_pos_bound p) as [Hlow _].
  destruct (decide (Zpos (digits2_pos p) ≤ 53)) as [|Hgt]; [done|].
  assert (2 ^ 53 ≤ 2 ^ (Zpos (digits2_pos p) - 1))
    by (apply Z.pow_le_mono_r; lia).
  lia.
Qed.

(** A mantissa of 53 bits with trailing zero bits is rounded to itself. *)
Lemma binary_round_aux_exact (s : bool) (m : positive) (e : Z) (n : nat) :
  Zpos (digits2_pos m) = 53 → -1074 ≤ e ≤ 971 →
  binary_round_aux 53 1024 s (Zpos (Nat.iter n xO m)) (e - Z.of_nat n) loc_Exact
  = S754_finite s m e.
Proof.
  intros Hd He.
  assert (Hstep : shr_fexp 53 1024 (Zpos (Nat.iter n xO m)) (e - Z.of_nat n) loc_Exact
                  = (Build_shr_record (Zpos m) false false, e)).
  { unfold shr_fexp, shr, fexp, emin. cbn [Zdigits2 shr_record_of_loc].
    rewrite digits2_pos_shift, Hd.
    replace (Z.max (53 + Z.of_nat n + (e - Z.of_nat n) - 53) (3 - 1024 - 53)
             - (e - Z.of_nat n)) with (Z.of_nat n) by lia.
    destruct n as [|n]; [simpl; f_equal; lia|].
    change (Z.of_nat (S n)) with (Z.pos (Pos.of_succ_nat n)) at 1. cbv iota.
    rewrite iter_pos_nat, SuccNat2Pos.id_succ, shr_1_shift.
    f_equal. lia. }
  assert (Hstep0 : shr_fexp 53 1024 (Zpos m) e loc_Exact
                   = (Build_shr_record (Zpos m) false false, e)).
  { unfold shr_fexp, shr, fexp, emin. cbn [Zdigits2 shr_record_of_loc]. rewrite Hd.
    by replace (Z.max (53 + e - 53) (3 - 1024 - 53) - e) with 0 by lia. }
  unfold binary_round_aux. rewrite Hstep.
  cbn [shr_m loc_of_shr_record round_nearest_even]. rewrite Hstep0. cbn [shr_m].
  by rewrite (proj2 (Z.leb_le e (1024 - 53))) by lia.
Qed.

(** Rounding a positive integer of at most 53 bits, given with any number
    of trailing zero bits, is exact and gives its normalised form. *)
Lemma binary_round_exact (s : bool) (p : positive) (k : nat) :
  Zpos p < 2 ^ 53 →
  binary_round 53 1024 s (Nat.iter k xO p) (- Z.of_nat k)
  = S754_finite s (Nat.iter (Z.to_nat (53 - Zpos (digits2_pos p))) xO p)
      (Zpos (digits2_pos p) - 53).
Proof.
  intros Hp. pose proof (digits2_pos_le_53 p Hp) as Hd.
  set (d := Zpos (digits2_pos p)) in *.
  set (j := Z.to_nat (53 - d)).
  assert (Hm : Zpos (digits2_pos (Nat.iter j xO p)) = 53).
  { rewrite digits2_pos_shift. fold d. unfold j. lia. }
  unfold binary_round, shl_align, fexp, emin. rewrite digits2_pos_shift. fold d.
  replace (Z.max (d + Z.of_nat k + - Z.of_nat k - 53) (3 - 1024 - 53)
           - - Z.of_nat k) with (d - 53 + Z.of_nat k) by lia.
  replace (Z.max (d + Z.of_nat k + - Z.of_nat k - 53) (3 - 1024 - 53))
    with (d - 53) by lia.
  destruct (d - 53 + Z.of_nat k) as [|q|q] eqn:Hq.
  - assert (k = j) as -> by (unfold j; lia).
    replace (- Z.of_nat j) with (d - 53 - Z.of_nat 0) by (unfold j; lia).
    apply (binary_round_aux_exact s (Nat.iter j xO p) (d - 53) 0 Hm). lia.
  - assert (k = (Pos.to_nat q + j)%nat) as -> by (unfold j; lia).
    rewrite Nat.iter_add.
    replace (- Z.of_nat (Pos.to_nat q + j))
      with (d - 53 - Z.of_nat (Pos.to_nat q)) by (unfold j; lia).
    apply (binary_round_aux_exact s (Nat.iter j xO p) (d - 53) _ Hm). lia.
  - rewrite Pos_iter_nat, <- Nat.iter_add.
    replace (Pos.to_nat q + k)%nat with j by (unfold j; lia).
    replace (d - 53) with (d - 53 - Z.of_nat 0) at 1 by lia.
    apply (binary_round_aux_exact s (Nat.iter j xO p) (d - 53) 0 Hm). lia.
Qed.

(** Normalising [n * 2^k] at exponent [-k] is normalising [n]. *)
Lemma binary_normalize_shift (n : Z) (k : nat) (s : bool) :
  Z.abs n < 2 ^ 53 →
  binary_normalize 53 1024 (n * 2 ^ Z.of_nat k) (- Z.of_nat k) s
  = binary_normalize 53 1024 n 0 s.
Proof.
  intros Hn. destruct n as [|p|p].
  - done.
  - rewrite <- Zpos_shift. cbn [binary_normalize].
    rewrite (binary_round_exact false p k) by lia.
    by rewrite <- (binary_round_exact false p 0) by lia.
  - replace (Z.neg p * 2 ^ Z.of_nat k) with (- (Zpos p * 2 ^ Z.of_nat k)) by lia.
    rewrite <- Zpos_shift.
    change (- Z.pos (Nat.iter k xO p)) with (Z.neg (Nat.iter k xO p)).
    cbn [binary_normalize].
    rewrite (binary_round_exact true p k) by lia.
    by rewrite <- (binary_round_exact true p 0) by lia.
Qed.

Lemma binary_round_integer (s : bool) (p : positive) :
  Zpos p < 2 ^ 53 →
  binary_round 53 1024 s p 0
  = S754_finite s (Nat.iter (leadingShift p) xO p) (- Z.of_nat (leadingShift p)).
Proof.
  intros Hp. pose proof (digits2_pos_le_53 p Hp) as Hd.
  change (binary_round 53 1024 s p 0)
    with (binary_round 53 1024 s (Nat.iter 0 xO p) (- Z.of_nat 0)).
  rewrite (binary_round_exact s p 0 Hp). unfold leadingShift. f_equal. lia.
Qed.

Lemma shl_align_shift (p : positive) (j J : nat) :
  (j ≤ J)%nat →
  fst (shl_align (Nat.iter j xO p) (- Z.of_nat j) (- Z.of_nat J))
  = Nat.iter J xO p.
Proof.
  intros HjJ. unfold shl_align.
  destruct (- Z.of_nat J - - Z.of_nat j) as [|q|q] eqn:Hq; cbn [fst].
  - by replace J with j by lia.
  - lia.
  - rewrite Pos_iter_nat, <- Nat.iter_add. f_equal. lia.
Qed.

Lemma cond_Zopp_mul (s : bool) (a b : Z) :
  cond_Zopp s (a * b) = cond_Zopp s a * b.
Proof. destruct s; simpl; lia. Qed.

Lemma cond_Zopp_abs (s : bool) (a : Z) : Z.abs (cond_Zopp s a) = Z.abs a.
Proof. destruct s; simpl; lia. Qed.

(** Adding two integers below 2^53, each in normalised form, when the sum
    is below 2^53 too: the sum, exactly. *)
Lemma SFadd_integers (sa sb : bool) (a b : positive) :
  Zpos a < 2 ^ 53 → Zpos b < 2 ^ 53 →
  Z.abs (cond_Zopp sa (Zpos a) + cond_Zopp sb (Zpos b)) < 2 ^ 53 →
  SFadd 53 1024
    (S754_finite sa (Nat.iter (leadingShift a) xO a) (- Z.of_nat (leadingShift a)))
    (S754_finite sb (Nat.iter (leadingShift b) xO b) (- Z.of_nat (leadingShift b)))
  = binary_normalize 53 1024 (cond_Zopp sa (Zpos a) + cond_Zopp sb (Zpos b)) 0 false.
Proof.
  intros Ha Hb Hsum. cbn [SFadd].
  set (ja := leadingShift a). set (jb := leadingShift b).
  set (J := Nat.max ja jb).
  replace (Z.min (- Z.of_nat ja) (- Z.of_nat jb)) with (- Z.of_nat J)
    by (unfold J; lia).
  rewrite !shl_align_shift by (unfold J; lia).
  rewrite !Zpos_shift, !cond_Zopp_mul, <- Z.mul_add_distr_r.
  by apply binary_normalize_shift.
Qed.

Lemma ofZ_pos (p : positive) :
  Zpos p < 2 ^ 53 →
  ofZ (Zpos p)
  = S754_finite false (Nat.iter (leadingShift p) xO p)
      (- Z.of_nat (leadingShift p)).
Proof. apply binary_round_integer. Qed.

Lemma ofZ_neg (p : positive) :
  Zpos p < 2 ^ 53 →
  ofZ (Zneg p)
  = S754_finite true (Nat.iter (leadingShift p) xO p)
      (- Z.of_nat (leadingShift p)).
Proof. apply binary_round_integer. Qed.

(** On integers whose sum stays below 2^53 in magnitude, [+] is exact. *)
Lemma js_add_ofZ (a b : Z) :
  Z.abs a < 2 ^ 53 → Z.abs b < 2 ^ 53 → Z.abs (a + b) < 2 ^ 53 →
  js_add (ofZ a) (ofZ b) = ofZ (a + b).
Proof.
  intros Ha Hb Hab. unfold js_add.
  assert (Hform : ∀ p, Zpos p < 2 ^ 53 →
            ofZ (Zpos p) = S754_finite false (Nat.iter (leadingShift p) xO p)
                             (- Z.of_nat (leadingShift p))
            ∧ ofZ (Zneg p) = S754_finite true (Nat.iter (leadingShift p) xO p)
                               (- Z.of_nat (leadingShift p)))
    by (intros p Hp; split; [by apply ofZ_pos|by apply ofZ_neg]).
  destruct a as [|a|a], b as [|b|b].
  - reflexivity.
  - change (0 + Z.pos b) with (Z.pos b).
    destruct (Hform b ltac:(lia)) as [-> _]. reflexivity.
  - change (0 + Z.neg b) with (Z.neg b).
    destruct (Hform b ltac:(lia)) as [_ ->]. reflexivity.
  - rewrite Z.add_0_r. destruct (Hform a ltac:(lia)) as [-> _]. reflexivity.
  - destruct (Hform a ltac:(lia)) as [-> _], (Hform b ltac:(lia)) as [-> _].
    by rewrite (SFadd_integers false false a b) by (simpl; lia).
  - destruct (Hform a ltac:(lia)) as [-> _], (Hform b ltac:(lia)) as [_ ->].
    by rewrite (SFadd_integers false true a b) by (simpl; lia).
  - rewrite Z.add_0_r. destruct (Hform a ltac:(lia)) as [_ ->]. reflexivity.
  - destruct (Hform a ltac:(lia)) as [_ ->], (Hform b ltac:(lia)) as [-> _].
    by rewrite (SFadd_integers true false a b) by (simpl; lia).
  - destruct (Hform a ltac:(lia)) as [_ ->], (Hform b ltac:(lia)) as [_ ->].
    by rewrite (SFadd_integers true true a b) by (simpl; lia).
Qed.

(** On an integer dividend and a positive integer divisor, both below 2^53,
    [%] is the truncated remainder of the integers; a zero remainder keeps
    the sign of the dividend. *)
Lemma js_rem_ofZ (x d : Z) :
  Z.abs x < 2 ^ 53 → 0 < d < 2 ^ 53 →
  js_rem (ofZ x) (ofZ d)
  = binary_normalize 53 1024 (Z.rem x d) 0 (x <? 0).
Proof.
  intros Hx Hd. destruct d as [|d|d]; [lia| |lia].
  rewrite (ofZ_pos d) by lia.
  assert (Hfinite : ∀ (s : bool) (a : positive), Zpos a < 2 ^ 53 →
    js_rem (S754_finite s (Nat.iter (leadingShift a) xO a)
              (- Z.of_nat (leadingShift a)))
           (S754_finite false (Nat.iter (leadingShift d) xO d)
              (- Z.of_nat (leadingShift d)))
    = binary_normalize 53 1024 (cond_Zopp s (Z.rem (Zpos a) (Zpos d))) 0 s).
  { intros s a Ha. cbn [js_rem].
    set (ja := leadingShift a). set (jd := leadingShift d).
    set (J := Nat.max ja jd).
    replace (Z.min (- Z.of_nat ja) (- Z.of_nat jd)) with (- Z.of_nat J)
      by (unfold J; lia).
    rewrite !shl_align_shift by (unfold J; lia).
    rewrite !Zpos_shift, Z.mul_rem_distr_r by lia.
    rewrite cond_Zopp_mul. apply binary_normalize_shift.
    rewrite cond_Zopp_abs.
    pose proof (Z.rem_bound_pos (Zpos a) (Zpos d) ltac:(lia) ltac:(lia)). lia. }
  destruct x as [|a|a].
  - reflexivity.
  - rewrite (ofZ_pos a) by lia. by rewrite Hfinite by lia.
  - rewrite (ofZ_neg a) by lia. rewrite Hfinite by lia.
    change (Z.neg a) with (- Z.pos a). by rewrite Z.rem_opp_l by lia.
Qed.

(** ** The rear heading of an integer heading *)

Lemma rearHeadingDeg_integer (point : SurveyPoint) (n : Z) :
  heading_front point = ofZ n →
  Z.abs n < 2 ^ 53 → Z.abs (n + 180) < 2 ^ 53 →
  rearHeadingDeg point
  = binary_normalize 53 1024 (Z.rem (n + 180) 360) 0 (n + 180 <? 0).
Proof.
  intros Hh Hn Hsum. unfold rearHeadingDeg. rewrite Hh.
  rewrite js_add_ofZ by lia. by rewrite js_rem_ofZ by lia.
Qed.

Lemma rearHeadingDeg_mod (point : SurveyPoint) (n : Z) :
  heading_front point = ofZ n →
  -180 ≤ n < 2 ^ 53 - 180 →
  rearHeadingDeg point = ofZ ((n + 180) mod 360).
Proof.
  intros Hh Hn. rewrite (rearHeadingDeg_integer point n Hh) by lia.
  rewrite (proj2 (Z.ltb_ge (n + 180) 0)) by lia.
  by rewrite Z.rem_mod_nonneg by lia.
Qed.

Lemma getCoreImages_filter (env : Env) (data : list SurveyPoint) (c : string) :
  getCoreImages (newCustomDataProvider env data) c
  = Resolved {| cell_id := c;
                core_images := filter (fun image => cellOf env image = c)
                                      (allImages env data) |}.
Proof. unfold getCoreImages. rewrite lookup_cells. by destruct (filter _ _). Qed.

(** C1, as amended: for every survey point of the dataset whose heading is
    an integer number h of degrees with -180 <= h < 2^53 - 180, which covers
    the integers of the data model's range 0 to 360 with 0 and 359, the rear
    heading is (h + 180) mod 360: it is the yaw, before the conversion to
    radians, of the rear image the provider keeps in the cell of the point
    and, when no later point has the same String(id), under the rear id of
    the point; and it is the heading the info panel shows for the rear
    view. *)
Theorem C1_rear_heading_plus_180_mod_360 (env : Env)
    (data : list SurveyPoint) (i : nat) (point : SurveyPoint) (h : Z) :
  data !! i = Some point →
  heading_front point = ofZ h →
  -180 ≤ h < 2 ^ 53 - 180 →
  (∃ cell image,
     getCoreImages (newCustomDataProvider env data) (cellOfPoint env point)
     = Resolved cell
     ∧ image ∈ core_images cell
     ∧ ImageEnt.id image = rear_id point
     ∧ ImageEnt.sequence image = "seq_rear"
     ∧ ImageEnt.point_id image = id point
     ∧ ImageEnt.computed_rotation image
       = (HalfPi, 0, DegreesToRadians (ofZ ((h + 180) mod 360))))
  ∧ ((∀ k r, (i < k)%nat → data !! k = Some r →
        ToString (id r) ≠ ToString (id point)) →
     ∃ image,
       getImages (newCustomDataProvider env data) [rear_id point]
       = Resolved [MkImageNode (Some image) (rear_id point)]
       ∧ ImageEnt.point_id image = id point
       ∧ ImageEnt.computed_rotation image
         = (HalfPi, 0, DegreesToRadians (ofZ ((h + 180) mod 360))))
  ∧ (∀ s, surveyData s = data →
          currentPointIndex (nav s) = Z.of_nat i →
          isShowingFront (nav s) = false →
          titleInfo (page (final (updateViewerInfo s)))
          = Some {| position := Z.of_nat i + 1;
                    total := Z.of_nat (length data);
                    view := "Rear";
                    heading := ofZ ((h + 180) mod 360) |}).
Proof.
  intros Hi Hh Hrange.
  pose proof (rearHeadingDeg_mod point h Hh Hrange) as Hrear.
  assert (Hrot : ImageEnt.computed_rotation (rearImageOf env (S (2 * i)) point)
                 = (HalfPi, 0, DegreesToRadians (ofZ ((h + 180) mod 360)))).
  { change (ImageEnt.computed_rotation (rearImageOf env (S (2 * i)) point))
      with (HalfPi, 0, DegreesToRadians (rearHeadingDeg point)).
    by rewrite Hrear. }
  split; [|split].
  - exists {| cell_id := cellOfPoint env point;
              core_images := filter (fun image => cellOf env image
                                                  = cellOfPoint env point)
                                    (allImages env data) |},
           (rearImageOf env (S (2 * i)) point).
    split; [apply getCoreImages_filter|]. split; [|done].
    cbn [core_images]. apply list_elem_of_filter. split; [reflexivity|].
    unfold allImages. rewrite rearImages_processAll, elem_of_app. right.
    apply elem_of_lookup_imap. by exists i, point.
  - intros Hlast.
    destruct (images_lookup_last env data i point Hi Hlast) as [_ Hr].
    exists (rearImageOf env (S (2 * i)) point).
    split; [|done]. unfold getImages. cbn [map]. by rewrite Hr.
  - intros s Hdata Hidx Hside.
    assert (Hp : pointAt s = Some point).
    { unfold pointAt, js_index. rewrite Hdata, Hidx.
      destruct (_ <? 0) eqn:Hneg; [lia|]. by rewrite Nat2Z.id. }
    rewrite (updateViewerInfo_run s point Hp). cbn [final].
    change (titleInfo (page (showInfo point s))) with (Some (infoOf s point)).
    unfold infoOf. rewrite Hside, Hidx, Hdata. f_equal. f_equal. exact Hrear.
Qed.

Lemma C1_boundary_headings :
  (titleInfo (page (final (updateViewerInfo (rearViewOf boundaryData 0))))
   = Some (MkTitleInfo 1 2 "Rear" 179)
   ∧ ∃ image,
       getImages (newCustomDataProvider sampleEnv boundaryData) ["point1_rear"]
       = Resolved [MkImageNode (Some image) "point1_rear"]
       ∧ ImageEnt.computed_rotation image = (HalfPi, 0, DegreesToRadians 179))
  ∧ (titleInfo (page (final (updateViewerInfo (rearViewOf boundaryData 1))))
     = Some (MkTitleInfo 2 2 "Rear" 180)
     ∧ ∃ image,
         getImages (newCustomDataProvider sampleEnv boundaryData) ["point2_rear"]
         = Resolved [MkImageNode (Some image) "point2_rear"]
         ∧ ImageEnt.computed_rotation image = (HalfPi, 0, DegreesToRadians 180)).
Proof.
  split.
  - destruct (C1_rear_heading_plus_180_mod_360 sampleEnv boundaryData 0
                (samplePoint 1 359) 359 eq_refl eq_refl ltac:(lia))
      as (_ & Himage & Hinfo).
    split.
    + exact (Hinfo (rearViewOf boundaryData 0) eq_refl eq_refl eq_refl).
    + destruct Himage as (image & Hget & _ & Hrot).
      { intros k r Hk Hr. destruct k as [|[|k]]; [lia| |done].
        injection Hr as <-. by vm_compute. }
      exists image. split; [exact Hget|exact Hrot].
  - destruct (C1_rear_heading_plus_180_mod_360 sampleEnv boundaryData 1
                (samplePoint 2 0) 0 eq_refl eq_refl ltac:(lia))
      as (_ & Himage & Hinfo).
    split.
    + exact (Hinfo (rearViewOf boundaryData 1) eq_refl eq_refl eq_refl).
    + destruct Himage as (image & Hget & _ & Hrot).
      { intros k r Hk Hr. destruct k as [|[|k]]; [lia|lia|done]. }
      exists image. split; [exact Hget|exact Hrot].
Defined.

(** C1, the claim as stated fails. The loader passes a row whose heading is
    200.1, inside the range 0 to 360: the rear heading of the provider and of
    the info panel is 5657647031884192 * 2^-48 (20.100000000000023), the
    remainder of the rounded sum, while (h + 180) mod 360 is h - 180, that is
    5657647031884184 * 2^-48 (20.099999999999994). It passes a row whose
    heading is -270: the rear heading is -90, while (-270 + 180) mod 360 is
    270. And for the heading 2^53 - 1 the rear heading is 212, while
    (2^53 - 1 + 180) mod 360 is 211. *)
Lemma C1_fails_on_decimal_and_negative_headings :
  (loadCSVData codeUnitCompare GraphBased
     (PapaComplete [pointWithHeading heading_200_1])
   = Resolved [pointWithHeading heading_200_1]
   ∧ (∃ image,
        getImages (newCustomDataProvider sampleEnv [pointWithHeading heading_200_1])
          ["point1_rear"]
        = Resolved [MkImageNode (Some image) "point1_rear"]
        ∧ ImageEnt.computed_rotation image
          = (HalfPi, 0,
             DegreesToRadians (S754_finite false 5657647031884192 (-48))))
   ∧ titleInfo (page (final (updateViewerInfo
                               (rearViewOf [pointWithHeading heading_200_1] 0))))
     = Some (MkTitleInfo 1 1 "Rear" (S754_finite false 5657647031884192 (-48)))
   ∧ ∃ value rearValue : QArith_base.Q,
       numberValue heading_200_1 = Some value
       ∧ numberValue (rearHeadingDeg (pointWithHeading heading_200_1))
         = Some rearValue
       ∧ QArith_base.Qle (QArith_base.inject_Z 0) value
       ∧ QArith_base.Qle value (QArith_base.inject_Z 360)
       ∧ QArith_base.Qeq
           (QArith_base.Qminus value (QArith_base.inject_Z 180))
           (QArith_base.Qmake 5657647031884184 (2 ^ 48))
       ∧ QArith_base.Qeq rearValue
           (QArith_base.Qmake 5657647031884192 (2 ^ 48))
       ∧ ¬ QArith_base.Qeq rearValue
             (QArith_base.Qminus value (QArith_base.inject_Z 180)))
  ∧ (loadCSVData codeUnitCompare GraphBased
       (PapaComplete [pointWithHeading (ofZ (-270))])
     = Resolved [pointWithHeading (ofZ (-270))]
     ∧ rearHeadingDeg (pointWithHeading (ofZ (-270))) = ofZ (-90)
     ∧ (-270 + 180) mod 360 = 270
     ∧ ofZ (-90) ≠ ofZ ((-270 + 180) mod 360)
     ∧ titleInfo (page (final (updateViewerInfo
                                 (rearViewOf [pointWithHeading (ofZ (-270))] 0))))
       = Some (MkTitleInfo 1 1 "Rear" (ofZ (-90))))
  ∧ (rearHeadingDeg (pointWithHeading (ofZ (2 ^ 53 - 1))) = ofZ 212
     ∧ (2 ^ 53 - 1 + 180) mod 360 = 211
     ∧ ofZ 212 ≠ ofZ 211).
Proof.
  split; [|split].
  - split; [reflexivity|]. split; [eexists; split; reflexivity|].
    split; [reflexivity|].
    eexists _, _. split; [reflexivity|]. split; [reflexivity|].
    split; [by vm_compute|]. split; [by vm_compute|].
    split; [by vm_compute|]. split; [by vm_compute|]. by vm_compute.
  - split; [reflexivity|]. split; [reflexivity|]. split; [reflexivity|].
    split; [by vm_compute|]. reflexivity.
  - split; [by vm_compute|]. split; [reflexivity|]. by vm_compute.
Qed.

(** For every integer heading h with h and h + 180 below 2^53 in magnitude,
    the rear heading is the truncated remainder of h + 180 by 360, a number
    strictly between -360 and 360 that is congruent to h + 180: in 0..359
    for h from -180 upwards; zero or negative for h below -180, the
    remainder taking the sign of the dividend, and -0 when h + 180 is a
    negative multiple of 360. *)
Theorem rearHeadingDeg_range (point : SurveyPoint) (h : Z) :
  heading_front point = ofZ h →
  Z.abs h < 2 ^ 53 → Z.abs (h + 180) < 2 ^ 53 →
  rearHeadingDeg point
  = (if (h + 180 <? 0) && (Z.rem (h + 180) 360 =? 0) then negativeZero
     else ofZ (Z.rem (h + 180) 360))
  ∧ (Z.rem (h + 180) 360 - (h + 180)) mod 360 = 0
  ∧ -360 < Z.rem (h + 180) 360 < 360
  ∧ (-180 ≤ h → 0 ≤ Z.rem (h + 180) 360)
  ∧ (h < -180 → Z.rem (h + 180) 360 ≤ 0).
Proof.
  intros Hh Hn Hsum.
  split.
  { rewrite (rearHeadingDeg_integer point h Hh Hn Hsum).
    destruct (Z.rem (h + 180) 360 =? 0) eqn:Hzero.
    - apply Z.eqb_eq in Hzero. rewrite Hzero.
      by destruct (h + 180 <? 0).
    - rewrite andb_false_r. apply Z.eqb_neq in Hzero.
      by destruct (Z.rem (h + 180) 360) as [|p|p], (h + 180 <? 0). }
  set (a := h + 180).
  assert (Hdiv : a = 360 * (a ÷ 360) + Z.rem a 360)
    by (apply Z.quot_rem'; lia).
  assert (Hcong : (Z.rem a 360 - a) mod 360 = 0).
  { replace (Z.rem a 360 - a) with (- (a ÷ 360) * 360) by lia.
    apply Z.mod_mul. lia. }
  split; [exact Hcong|].
  destruct (Z.le_gt_cases 0 a) as [Hpos|Hneg].
  - pose proof (Z.rem_bound_pos a 360 Hpos ltac:(lia)). subst a. lia.
  - pose proof (Z.rem_bound_pos (- a) 360 ltac:(lia) ltac:(lia)) as Hb.
    rewrite Z.rem_opp_l in Hb by lia. subst a. lia.
Qed.

Lemma rearHeadingDeg_range_on_sample :
  rearHeadingDeg (pointWithHeading (ofZ (-270))) = ofZ (-90)
  ∧ rearHeadingDeg (pointWithHeading (ofZ (-540))) = negativeZero
  ∧ rearHeadingDeg (pointWithHeading (ofZ 359)) = ofZ 179.
Proof.
  split; [|split].
  - exact (proj1 (rearHeadingDeg_range (pointWithHeading (ofZ (-270))) (-270)
                    eq_refl ltac:(lia) ltac:(lia))).
  - exact (proj1 (rearHeadingDeg_range (pointWithHeading (ofZ (-540))) (-540)
                    eq_refl ltac:(lia) ltac:(lia))).
  - exact (proj1 (rearHeadingDeg_range (pointWithHeading (ofZ 359)) 359
                    eq_refl ltac:(lia) ltac:(lia))).
Defined.

(** * The refreshes that follow a transition *)






